(** * Map search assistant: coordinate extraction, view reconciliation and
      session handlers

    A shallow embedding of
    - [src/services/geminiService.ts]  (parseCoordinatesFromText, sendMessageToGemini),
    - [src/components/MapComponent.tsx] (isValidLatLng, MapUpdater, MapEvents,
      PlacePopup, MapComponent),
    - [src/components/ChatInterface.tsx] (SimpleMarkdown, handleSubmit,
      handleSaveAllToDatabase, removeFromDatabase),
    - the application component (handleSearch, handleMapMove, ...),
    followed by the properties the specification states about them.

    JavaScript numbers are IEEE-754 binary64 values, modelled by the primitive
    [float] type; JavaScript strings are sequences of UTF-16 code units,
    modelled by [list N]. *)

From Stdlib Require Import ZArith NArith List Bool Lia String Ascii DecimalString Floats.
Import ListNotations.

Set Warnings "-inexact-float".

(* ================================================================== *)
(** * JavaScript strings and numbers *)
(* ================================================================== *)

Module JS.

Local Open Scope N_scope.

(** A string is a list of UTF-16 code units. *)
Definition jsstring := list N.

(** [js "..."] writes a string literal. *)
Definition js (s : string) : jsstring :=
  map N_of_ascii (list_ascii_of_string s).

Definition jsstring_eqb (a b : jsstring) : bool :=
  if list_eq_dec N.eq_dec a b then true else false.

(** WhiteSpace and LineTerminator code units: what [\s] matches and what
    [String.prototype.trim] and [parseFloat] strip. *)
Definition isWhiteSpace (c : N) : bool :=
  ((9 <=? c) && (c <=? 13)) || (c =? 32) || (c =? 160) || (c =? 5760)
  || ((8192 <=? c) && (c <=? 8202)) || (c =? 8232) || (c =? 8233)
  || (c =? 8239) || (c =? 8287) || (c =? 12288) || (c =? 65279).

(** [\n], [\r], U+2028, U+2029: what [.] does not match without the [s] flag. *)
Definition isLineTerminator (c : N) : bool :=
  (c =? 10) || (c =? 13) || (c =? 8232) || (c =? 8233).

(** [\d] *)
Definition isDigit (c : N) : bool := (48 <=? c) && (c <=? 57).

Fixpoint dropWhile {A} (p : A -> bool) (l : list A) : list A :=
  match l with
  | [] => []
  | x :: r => if p x then dropWhile p r else l
  end.

Definition trimStart (s : jsstring) : jsstring := dropWhile isWhiteSpace s.
Definition trimEnd (s : jsstring) : jsstring := rev (dropWhile isWhiteSpace (rev s)).

(** [s.trim()] *)
Definition trim (s : jsstring) : jsstring := trimEnd (trimStart s).

(** [s.substr(start, len)] for non-negative arguments. *)
Definition substr (s : jsstring) (start len : nat) : jsstring :=
  firstn len (skipn start s).

Fixpoint isPrefix (p s : jsstring) : bool :=
  match p, s with
  | [], _ => true
  | a :: p', b :: s' => (a =? b) && isPrefix p' s'
  | _ :: _, [] => false
  end.

(** ** parseFloat

    [parseFloat] skips leading white space, reads the longest prefix that is a
    StrDecimalLiteral (sign, [Infinity] or digits with an optional fraction
    and exponent) and returns the binary64 value nearest to it (ties to
    even); [NaN] when no such prefix exists. *)

(** DecimalDigits: accumulated value, number of digits read, and the rest. *)
Fixpoint decimalDigits (s : jsstring) (acc : Z) (n : Z) : Z * Z * jsstring :=
  match s with
  | c :: r =>
      if isDigit c
      then decimalDigits r (10 * acc + Z.of_N (c - 48))%Z (n + 1)%Z
      else (acc, n, s)
  | [] => (acc, n, s)
  end.

Definition signOf (s : jsstring) : bool * jsstring :=
  match s with
  | c :: r =>
      if c =? 45 then (true, r) else if c =? 43 then (false, r) else (false, s)
  | [] => (false, s)
  end.

(** ExponentPart, 0 when absent. *)
Definition exponentPart (s : jsstring) : Z :=
  match s with
  | c :: r =>
      if (c =? 101) || (c =? 69) then
        let '(neg, r') := signOf r in
        let '(v, n, _) := decimalDigits r' 0%Z 0%Z in
        if (n =? 0)%Z then 0%Z else if neg then (- v)%Z else v
      else 0%Z
  | [] => 0%Z
  end.

(** The binary64 value nearest to [(-1)^neg * m * 10^e]: the quotient of two
    integers, rounded once by [SFdiv]. *)
Definition roundDecimal (neg : bool) (m e : Z) : float :=
  match m with
  | Zpos p =>
      match (Zpos p * 10 ^ Z.max e 0)%Z, (10 ^ Z.max (- e) 0)%Z with
      | Zpos n, Zpos d =>
          SF2Prim (SFdiv prec emax (S754_finite neg n 0) (S754_finite false d 0))
      | _, _ => nan
      end
  | _ => if neg then neg_zero else zero
  end.

Definition parseFloat (s : jsstring) : float :=
  let '(neg, u) := signOf (trimStart s) in
  if isPrefix (js "Infinity") u then (if neg then neg_infinity else infinity)
  else
    let '(ip, ni, r1) := decimalDigits u 0%Z 0%Z in
    let '(fp, nf, r2) :=
      match r1 with
      | c :: r => if c =? 46 then decimalDigits r ip 0%Z else (ip, 0%Z, r1)
      | [] => (ip, 0%Z, r1)
      end in
    if ((ni =? 0) && (nf =? 0))%Z then nan
    else roundDecimal neg fp (exponentPart r2 - nf)%Z.

(** [isNaN(x)] on a number. *)
Definition isNaN (x : float) : bool := PrimFloat.is_nan x.

(** [Math.pow(x, 2)]: the square, rounded once. ECMAScript leaves the rounding
    of [Math.pow] to the implementation and fixes its value on zeros and NaN
    (+0 and NaN), which the square gives as well. *)
Definition pow2 (x : float) : float := (x * x)%float.

(** [Math.min(a, b)]: NaN if either is, -0 below +0. *)
Definition mathMin (a b : float) : float :=
  if isNaN a || isNaN b then nan
  else if PrimFloat.Leibniz.eqb b neg_zero && PrimFloat.Leibniz.eqb a zero then b
  else if (b <? a)%float then b else a.

(** [Math.max(a, b)]: NaN if either is, +0 above -0. *)
Definition mathMax (a b : float) : float :=
  if isNaN a || isNaN b then nan
  else if PrimFloat.Leibniz.eqb b zero && PrimFloat.Leibniz.eqb a neg_zero then b
  else if (a <? b)%float then b else a.

(** ** Number.prototype.toFixed *)

(** The decimal digits of a natural number, ["0"] for 0. *)
Definition decimalOfN (n : N) : jsstring :=
  js (DecimalString.NilZero.string_of_uint (N.to_uint n)).

(** The integer [n] for which [n / 10^f] is nearest to [m * 2^e], the larger
    one of two. *)
Definition nearestScaled (f : nat) (m : positive) (e : Z) : N :=
  let scaled := (Zpos m * 10 ^ Z.of_nat f)%Z in
  match e with
  | Zneg k => Z.to_N ((2 * scaled + 2 ^ Zpos k) / (2 * 2 ^ Zpos k))
  | _ => Z.to_N (scaled * 2 ^ e)
  end.

(** Steps 9-10 of toFixed: the digits of [n] with the point before the last
    [f] of them, zero-padded to [f + 1] digits. *)
Definition placePoint (f : nat) (digits : jsstring) : jsstring :=
  if Nat.eqb f 0 then digits
  else
    let padded := repeat 48 (S f - List.length digits) ++ digits in
    let k := List.length padded in
    firstn (k - f) padded ++ [46] ++ skipn (k - f) padded.

Section ToFixed.

(** [Number::toString] in radix 10, used for the values that are not finite
    or are 1e21 and above. *)
Variable numberToString : float -> jsstring.

(** [x.toFixed(f)] for [f] of 0 to 100. *)
Definition toFixed (x : float) (f : nat) : jsstring :=
  if negb (PrimFloat.is_finite x) then numberToString x
  else
    let negative := (x <? 0)%float in
    let x' := if negative then (- x)%float else x in
    let s : jsstring := if negative then [45] else [] in
    if (1e21 <=? x')%float then s ++ numberToString x'
    else
      let n := match Prim2SF x' with
               | S754_finite _ m e => nearestScaled f m e
               | _ => 0
               end in
      s ++ placePoint f (decimalOfN n).

End ToFixed.

End JS.

(* ================================================================== *)
(** * Regular expressions: the backtracking matcher of ECMAScript *)
(* ================================================================== *)

Module Regex.

Import JS.
Local Open Scope nat_scope.

(** Pattern syntax, as far as the patterns of the source need it. *)
Inductive regex : Type :=
| Empty                                   (* the empty alternative *)
| Char (c : N)                            (* a literal or escaped character *)
| Class (p : N -> bool)                   (* [.], [\s], [\d], a bracket class *)
| AssertStart                             (* [^], no [m] flag *)
| Seq (r1 r2 : regex)
| Alt (r1 r2 : regex)                     (* [r1|r2] *)
| Quant (r : regex) (min : nat) (max : option nat) (greedy : bool)
| Group (i : nat) (r : regex).            (* capturing group number [i] *)

(** A match state: the end index, the input from there on, and the captures
    (group number 1 at position 0). *)
Record MatchState : Type := mkState {
  endIndex : nat;
  rest : jsstring;
  captures : list (option jsstring)
}.

Definition Continuation := MatchState -> option MatchState.

(** Canonicalize under the [i] flag (no [u] flag): the upper-case form. A code
    unit of 128 or more never canonicalizes to one below 128, so against the
    ASCII characters of a pattern only the ASCII letters fold. The classes
    used here ([.], [\s], [\d], punctuation) hold no letter and are closed
    under it. *)
Definition canonicalize (c : N) : N :=
  if ((97 <=? c) && (c <=? 122))%N then (c - 32)%N else c.

Fixpoint setNth (k : nat) (v : option jsstring) (caps : list (option jsstring))
  : list (option jsstring) :=
  match k, caps with
  | 0, [] => [v]
  | 0, _ :: t => v :: t
  | S k', [] => None :: setNth k' v []
  | S k', c :: t => c :: setNth k' v t
  end.

Definition setCapture (i : nat) (v : option jsstring) (caps : list (option jsstring))
  : list (option jsstring) :=
  match i with
  | 0 => caps
  | S k => setNth k v caps
  end.

Definition getCapture (i : nat) (caps : list (option jsstring)) : option jsstring :=
  match i with
  | 0 => None
  | S i' => nth i' caps None
  end.

(** The capturing groups inside a pattern. *)
Fixpoint groupsOf (r : regex) : list nat :=
  match r with
  | Seq r1 r2 | Alt r1 r2 => groupsOf r1 ++ groupsOf r2
  | Quant r' _ _ _ => groupsOf r'
  | Group i r' => i :: groupsOf r'
  | _ => []
  end.

Definition clearCaptures (parens : list nat) (x : MatchState) : MatchState :=
  mkState (endIndex x) (rest x)
          (fold_left (fun caps i => setCapture i None caps) parens (captures x)).

Definition orElse (a : option MatchState) (b : unit -> option MatchState)
  : option MatchState :=
  match a with
  | Some z => Some z
  | None => b tt
  end.

(** RepeatMatcher(m, min, max, greedy, x, c). An iteration that consumes
    nothing once [min] is 0 fails, so [min] plus the length of the remaining
    input bounds the number of iterations; [fuel] starts above that bound. *)
Fixpoint repeatMatcher (m : MatchState -> Continuation -> option MatchState)
    (parens : list nat) (fuel : nat) (min : nat) (max : option nat)
    (greedy : bool) (x : MatchState) (c : Continuation) : option MatchState :=
  match max with
  | Some 0 => c x
  | _ =>
      match fuel with
      | 0 => None
      | S fuel' =>
          let d : Continuation := fun y =>
            if (min =? 0) && (endIndex y =? endIndex x) then None
            else repeatMatcher m parens fuel' (pred min) (option_map pred max)
                               greedy y c in
          let xr := clearCaptures parens x in
          if negb (min =? 0) then m xr d
          else if negb greedy then orElse (c x) (fun _ => m xr d)
          else orElse (m xr d) (fun _ => c x)
      end
  end.

(** The matcher of a pattern, with the [i] flag set. *)
Fixpoint matcher (r : regex) (x : MatchState) (c : Continuation)
  : option MatchState :=
  match r with
  | Empty => c x
  | Char pc =>
      match rest x with
      | ch :: t =>
          if (canonicalize ch =? canonicalize pc)%N
          then c (mkState (S (endIndex x)) t (captures x))
          else None
      | [] => None
      end
  | Class p =>
      match rest x with
      | ch :: t =>
          if p ch then c (mkState (S (endIndex x)) t (captures x)) else None
      | [] => None
      end
  | AssertStart => if endIndex x =? 0 then c x else None
  | Seq r1 r2 => matcher r1 x (fun y => matcher r2 y c)
  | Alt r1 r2 => orElse (matcher r1 x c) (fun _ => matcher r2 x c)
  | Quant r' min max greedy =>
      repeatMatcher (matcher r') (groupsOf r') (S (min + List.length (rest x)))
                    min max greedy x c
  | Group i r' =>
      matcher r' x (fun y =>
        c (mkState (endIndex y) (rest y)
             (setCapture i (Some (firstn (endIndex y - endIndex x) (rest x)))
                         (captures y))))
  end.

(** The captures before a match: [undefined] for every group. *)
Definition noCaptures (r : regex) : list (option jsstring) :=
  repeat None (list_max (groupsOf r)).

(** The first index from [i] on at which the pattern matches; [s] is the
    input from index [i]. *)
Fixpoint search (r : regex) (s : jsstring) (i : nat) : option MatchState :=
  match matcher r (mkState i s (noCaptures r)) Some with
  | Some y => Some y
  | None =>
      match s with
      | [] => None
      | _ :: s' => search r s' (S i)
      end
  end.

(** [regex.exec(text)] for a pattern with the [g] flag: the captures of the
    first match at or after [lastIndex] and the new [lastIndex], or [None] and
    [lastIndex] reset to 0. *)
Definition exec (r : regex) (text : jsstring) (lastIndex : nat)
  : option (list (option jsstring)) * nat :=
  if List.length text <? lastIndex then (None, 0)
  else
    match search r (skipn lastIndex text) lastIndex with
    | Some y => (Some (captures y), endIndex y)
    | None => (None, 0)
    end.

(** [s.split(pattern)], without a limit: the pieces between the matches and,
    after each match, its captures ([None] for [undefined]). The pattern is
    matched at each index [q] in turn (sticky); [p] is where the current
    piece started, [cur] is the input from [p] to [q] and [s] the input from
    [q]. A match that ends at [p] is passed over. Every step moves [p] or
    [q] forward, so twice the length of the input bounds the steps. *)
Fixpoint splitLoop (r : regex) (fuel : nat) (p q : nat) (cur s : jsstring)
  : list (option jsstring) :=
  match fuel with
  | 0 => []
  | S fuel' =>
      match s with
      | [] => [Some cur]
      | c :: s' =>
          match matcher r (mkState q s (noCaptures r)) Some with
          | None => splitLoop r fuel' p (S q) (cur ++ [c]) s'
          | Some z =>
              let e := endIndex z in
              if e =? p then splitLoop r fuel' p (S q) (cur ++ [c]) s'
              else
                Some cur
                :: map (fun i => getCapture i (captures z))
                       (seq 1 (list_max (groupsOf r)))
                ++ splitLoop r fuel' e e [] (skipn (e - q) s)
          end
      end
  end.

Definition splitBy (r : regex) (s : jsstring) : list (option jsstring) :=
  match s with
  | [] =>
      match matcher r (mkState 0 [] (noCaptures r)) Some with
      | Some _ => []
      | None => [Some []]
      end
  | _ :: _ => splitLoop r (S (2 * List.length s)) 0 0 [] s
  end.

(** Pattern-writing helpers. *)
Fixpoint lit (s : jsstring) : regex :=
  match s with
  | [] => Empty
  | [c] => Char c
  | c :: t => Seq (Char c) (lit t)
  end.

Fixpoint seqs (rs : list regex) : regex :=
  match rs with
  | [] => Empty
  | [r] => r
  | r :: t => Seq r (seqs t)
  end.

Definition opt (r : regex) : regex := Quant r 0 (Some 1) true.       (* r?  *)
Definition star (r : regex) : regex := Quant r 0 None true.          (* r*  *)
Definition plus (r : regex) : regex := Quant r 1 None true.          (* r+  *)
Definition lazyStar (r : regex) : regex := Quant r 0 None false.     (* r*? *)
Definition dot : regex := Class (fun c => negb (isLineTerminator c)). (* .   *)
Definition oneOf (s : jsstring) : regex :=
  Class (fun c => existsb (N.eqb c) s).

End Regex.

(* ================================================================== *)
(** * types.ts: the shared records *)
(* ================================================================== *)

Import JS.

Record LatLng : Type := mkLatLng { lat : float; lng : float }.

Record Place : Type := mkPlace {
  id : jsstring;
  name : jsstring;
  coordinate : LatLng;
  description : option jsstring
}.

Record GroundingSource : Type := mkSource { uri : jsstring; title : jsstring }.

(** What a call can do besides returning: throw, or (in the model only) use up
    the fuel that bounds a loop. *)
Inductive outcome (A : Type) : Type :=
| Returns (a : A)
| Throws
| OutOfFuel.
Arguments Returns {A} a.
Arguments Throws {A}.
Arguments OutOfFuel {A}.

(* ================================================================== *)
(** * services/geminiService.ts *)
(* ================================================================== *)

Module GeminiService.

Import Regex.

Definition ch (a : ascii) : N := N_of_ascii a.

Definition space : regex := Class isWhiteSpace.   (* \s *)
Definition digit : regex := Class isDigit.        (* \d *)

(** [(-?\d+(\.\d+)?)], as groups [g] and [g+1]. *)
Definition numberGroup (g : nat) : regex :=
  Group g (seqs [ opt (Char (ch "-"));
                  plus digit;
                  opt (Group (S g) (Seq (Char (ch ".")) (plus digit))) ]).

(** The pattern of line 8 as written in the source, flags [gi]. *)
Definition coordinateRegexSource : string :=
  "(?:^|\n|[\.\!\?]\s+)(?:\*\*)?(.*?)(?:\*\*)?.*?\((?:lat:|latitude:)\s*(-?\d+(\.\d+)?),\s*(?:lng:|longitude:)\s*(-?\d+(\.\d+)?)\)".

(** Its syntax tree, one line per term of the pattern. *)
Definition coordinateRegex : regex :=
  seqs [ Alt AssertStart (Alt (Char 10%N) (Seq (oneOf (js ".!?")) (plus space)));
         opt (lit (js "**"));
         Group 1 (lazyStar dot);
         opt (lit (js "**"));
         lazyStar dot;
         Char (ch "(");
         Alt (lit (js "lat:")) (lit (js "latitude:"));
         star space;
         numberGroup 2;
         Char (ch ",");
         star space;
         Alt (lit (js "lng:")) (lit (js "longitude:"));
         star space;
         numberGroup 4;
         Char (ch ")") ].

(** [.replace(/^[*-]\s*/, '')] *)
Definition stripBullet (s : jsstring) : jsstring :=
  match s with
  | c :: t =>
      if ((c =? ch "*") || (c =? ch "-"))%N then dropWhile isWhiteSpace t else s
  | [] => []
  end.

(** [.replace(/\*+/g, '')] *)
Definition removeStars (s : jsstring) : jsstring :=
  filter (fun c => negb (c =? ch "*")%N) s.

(** [.split(/[.!?]/)]; [cur] is the current piece, reversed. *)
Fixpoint splitAcc (s : jsstring) (cur : jsstring) : list jsstring :=
  match s with
  | [] => [rev cur]
  | c :: t =>
      if existsb (N.eqb c) (js ".!?")
      then rev cur :: splitAcc t []
      else splitAcc t (c :: cur)
  end.

Definition split (s : jsstring) : list jsstring := splitAcc s [].

(** [.pop()]: the last element, [None] for [undefined]. *)
Definition pop (l : list jsstring) : option jsstring :=
  match rev l with
  | [] => None
  | x :: _ => Some x
  end.

(** [x || d] on an optional string: [undefined] and the empty string are falsy. *)
Definition orDefault (x : option jsstring) (d : jsstring) : jsstring :=
  match x with
  | Some (c :: t) => c :: t
  | _ => d
  end.

Definition truthy (x : option jsstring) : bool :=
  match x with
  | Some (_ :: _) => true
  | _ => false
  end.

(** Line 13. *)
Definition cleanNameOf (rawName : jsstring) : jsstring :=
  orDefault (option_map trim (pop (split (removeStars (stripBullet rawName)))))
            (js "Unknown Location").

Section Extractor.

(** [Number.prototype.toString(36)] is implementation-approximated, and
    [Math.random] is the environment's: the n-th call of a run returns
    [mathRandom n]. *)
Variable toString36 : float -> jsstring.
Variable mathRandom : nat -> float.

(** [Math.random().toString(36).substr(2, 9)] at the n-th call. *)
Definition randomId (n : nat) : jsstring :=
  substr (toString36 (mathRandom n)) 2 9.

(** The [while] loop of lines 11-31. [lastIndex] is the pattern object's;
    [calls] counts the calls of [Math.random] so far. *)
Fixpoint parseLoop (fuel : nat) (text : jsstring) (lastIndex : nat)
    (calls : nat) (places : list Place) : outcome (list Place) :=
  match fuel with
  | 0 => OutOfFuel
  | S fuel' =>
      match exec coordinateRegex text lastIndex with
      | (None, _) => Returns places
      | (Some m, lastIndex') =>
          match getCapture 1 m with
          | None => Throws                      (* undefined.trim() *)
          | Some m1 =>
              let rawName := trim m1 in
              let cleanName := cleanNameOf rawName in
              if truthy (getCapture 2 m) && truthy (getCapture 4 m) then
                let lat := parseFloat (orDefault (getCapture 2 m) []) in
                let lng := parseFloat (orDefault (getCapture 4 m) []) in
                if negb (isNaN lat) && negb (isNaN lng) then
                  parseLoop fuel' text lastIndex' (S calls)
                    (places ++ [mkPlace (randomId calls) cleanName
                                        (mkLatLng lat lng) None])
                else parseLoop fuel' text lastIndex' calls places
              else parseLoop fuel' text lastIndex' calls places
          end
      end
  end.

(** Every match ends beyond the index the search started from, so the loop
    runs at most [length text + 1] times. *)
Definition parseCoordinatesFromText (text : jsstring) : outcome (list Place) :=
  parseLoop (S (List.length text)) text 0 0 [].

End Extractor.

(** ** sendMessageToGemini: what surrounds the transport call *)

Record GroundingChunk : Type := mkChunk { web : option GroundingSource }.

(** The fields of the transport's response that the code reads. *)
Record ApiResponse : Type := mkApiResponse {
  response_text : option jsstring;
  groundingChunks : option (list GroundingChunk)
}.

(** The fields of the request that depend on the arguments. *)
Record ApiRequest : Type := mkApiRequest {
  contents : jsstring;
  retrievalLatLng : option LatLng
}.

Record GeminiResult : Type := mkResult {
  text : jsstring;
  places : list Place;
  sources : list GroundingSource
}.

(** Lines 59-75. *)
Definition buildRequest (prompt : jsstring) (userLocation : option LatLng)
  : ApiRequest :=
  mkApiRequest prompt
    (match userLocation with
     | Some loc =>
         if negb (isNaN (lat loc)) && negb (isNaN (lng loc)) then Some loc else None
     | None => None
     end).

(** Lines 86-95. *)
Definition sourcesOf (chunks : option (list GroundingChunk)) : list GroundingSource :=
  match chunks with
  | Some cs =>
      flat_map (fun c => match web c with Some w => [w] | None => [] end) cs
  | None => []
  end.

(** Lines 84-99: after the transport call resolved. *)
Definition sendMessageToGemini_then (toString36 : float -> jsstring)
    (mathRandom : nat -> float) (response : ApiResponse) : outcome GeminiResult :=
  let text := orDefault (response_text response)
                        (js "No specific locations found.") in
  let sources := sourcesOf (groundingChunks response) in
  match parseCoordinatesFromText toString36 mathRandom text with
  | Returns places => Returns (mkResult text places sources)
  | Throws => Throws
  | OutOfFuel => OutOfFuel
  end.

End GeminiService.

(* ================================================================== *)
(** * components/MapComponent.tsx *)
(* ================================================================== *)

Module MapComponent.

Local Open Scope float_scope.

(** Line 33. Both arguments are numbers here, so the [typeof] tests hold. *)
Definition isValidLatLng (lat lng : float) : bool :=
  negb (isNaN lat) && negb (isNaN lng).

(** An array object: [ref] is its identity, compared by [!==]. *)
Record PlacesArray : Type := mkArray { ref : nat; elements : list Place }.

Definition sameObject (a b : PlacesArray) : bool := Nat.eqb (ref a) (ref b).

(** Leaflet's [L.latLngBounds(points)] is the rectangle extended by each of
    the points; it is kept as the points it was built from. [isValid] holds
    once a point was added. *)
Record LatLngBounds : Type := latLngBounds { extendedBy : list (float * float) }.

Definition boundsIsValid (b : LatLngBounds) : bool :=
  match extendedBy b with
  | [] => false
  | _ :: _ => true
  end.

(** What the effect asks of the map. *)
Inductive MapAction : Type :=
| NoOp
| FitBounds (bounds : LatLngBounds) (padding : float * float) (maxZoom : float)
| FlyTo (target : float * float) (zoom : float) (duration : float).

(** What the effect reads and keeps between runs: the map's own view and
    [prevPlacesRef.current]. *)
Record UpdaterState : Type := mkUpdater {
  getCenter : LatLng;
  getZoom : float;
  prevPlacesRef : PlacesArray
}.

(** The effect of [MapUpdater], lines 42-74: the action and the new
    [prevPlacesRef.current]. *)
Definition MapUpdater (st : UpdaterState) (center : LatLng) (zoom : float)
    (places : PlacesArray) : MapAction * PlacesArray :=
  if negb (isValidLatLng (lat center) (lng center)) then (NoOp, prevPlacesRef st)
  else if negb (sameObject places (prevPlacesRef st))
          && Nat.ltb 0 (List.length (elements places)) then
    let validPlaces :=
      filter (fun p => isValidLatLng (lat (coordinate p)) (lng (coordinate p)))
             (elements places) in
    (if Nat.ltb 0 (List.length validPlaces) then
       let bounds :=
         latLngBounds
           (map (fun p => (lat (coordinate p), lng (coordinate p))) validPlaces) in
       if boundsIsValid bounds then FitBounds bounds (50, 50) 16 else NoOp
     else NoOp,
     places)
  else
    let currentCenter := getCenter st in
    let currentZoom := getZoom st in
    if negb (isValidLatLng (lat currentCenter) (lng currentCenter))
    then (NoOp, prevPlacesRef st)
    else
      let dist :=
        sqrt (pow2 (lat currentCenter - lat center)
              + pow2 (lng currentCenter - lng center)) in
      let isZoomDifferent := negb (currentZoom =? zoom) in
      if (0.0001 <? dist) || isZoomDifferent
      then (FlyTo (lat center, lng center) zoom 1.5, prevPlacesRef st)
      else (NoOp, prevPlacesRef st).

Definition isFitBounds (a : MapAction) : bool :=
  match a with
  | FitBounds _ _ _ => true
  | _ => false
  end.

(** One run of the effect: the map's view when it runs, and the props. *)
Record Render : Type := mkRender {
  viewCenter : LatLng;
  viewZoom : float;
  center : LatLng;
  zoom : float;
  places : PlacesArray
}.

(** Successive runs of the effect, [prev] being [prevPlacesRef.current]
    before the first: the actions, in order, and the last
    [prevPlacesRef.current]. *)
Fixpoint runEffects (prev : PlacesArray) (renders : list Render)
  : list MapAction * PlacesArray :=
  match renders with
  | [] => ([], prev)
  | r :: rest =>
      let '(a, prev') :=
        MapUpdater (mkUpdater (viewCenter r) (viewZoom r) prev)
                   (center r) (zoom r) (places r) in
      let '(acts, last) := runEffects prev' rest in
      (a :: acts, last)
  end.

(** ** MapComponent: what it hands to MapUpdater, lines 248-270 *)

(** Lines 250-252. *)
Definition safeCenter (center : LatLng) : LatLng :=
  if isValidLatLng (lat center) (lng center) then center
  else mkLatLng 40.7128 (-74.0060).

(** Line 255. *)
Definition safePlaces (places : list Place) : list Place :=
  filter (fun p => isValidLatLng (lat (coordinate p)) (lng (coordinate p))) places.

(** One render: the map's view when the effect runs, and the props of
    MapComponent. *)
Record Frame : Type := mkFrame {
  mapCenterNow : LatLng;
  mapZoomNow : float;
  propCenter : LatLng;
  propZoom : float;
  propPlaces : list Place
}.

(** The effect after one render of MapComponent. [places.filter] returns a new
    array at each render; [fresh] is its identity. *)
Definition renderEffect (prev : PlacesArray) (fresh : nat) (f : Frame)
  : MapAction * PlacesArray :=
  MapUpdater (mkUpdater (mapCenterNow f) (mapZoomNow f) prev)
             (safeCenter (propCenter f)) (propZoom f)
             (mkArray fresh (safePlaces (propPlaces f))).

(** Successive renders: the arrays get successive identities. *)
Fixpoint runMapComponent (prev : PlacesArray) (nextRef : nat) (frames : list Frame)
  : list MapAction :=
  match frames with
  | [] => []
  | f :: rest =>
      let '(a, prev') := renderEffect prev nextRef f in
      a :: runMapComponent prev' (S nextRef) rest
  end.

(** [useRef<Place[]>([])] at mount, line 40: the first array. *)
Definition mountedRef : PlacesArray := mkArray 0 [].

(** MapEvents, lines 82-98: what [moveend] and [zoomend] report to
    [onMapMove], if anything. *)
Definition MapEvents_report (mapCenterNow : LatLng) (mapZoomNow : float)
  : option (LatLng * float) :=
  if isValidLatLng (lat mapCenterNow) (lng mapCenterNow)
  then Some (mkLatLng (lat mapCenterNow) (lng mapCenterNow), mapZoomNow)
  else None.

(** ** PlacePopup: the save toggle, lines 110-146 *)

(** The store [localStorage.saved_places] holds JSON text. A place read back
    by [JSON.parse]: a coordinate that was not a finite number when it was
    written is [null], here [None]. *)
Record StoredPlace : Type := mkStored {
  storedId : jsstring;
  storedName : jsstring;
  storedLat : option float;
  storedLng : option float;
  storedDescription : option jsstring
}.

(** [JSON.parse(JSON.stringify(x))] on a number: [JSON.stringify] writes
    [null] for NaN and the infinities and [0] for both zeros, and the digits
    of [Number::toString] otherwise, which read back as the same number. *)
Definition jsonNumber (x : float) : option float :=
  if is_finite x then Some (if x =? 0 then zero else x) else None.

(** [JSON.parse(JSON.stringify(place))] on a place of the application. *)
Definition jsonPlace (p : Place) : StoredPlace :=
  mkStored (id p) (name p)
           (jsonNumber (lat (coordinate p))) (jsonNumber (lng (coordinate p)))
           (description p).

(** [JSON.parse(JSON.stringify(p))] on a place that was itself read from the
    store. *)
Definition reparse (p : StoredPlace) : StoredPlace :=
  mkStored (storedId p) (storedName p)
           (match storedLat p with Some x => jsonNumber x | None => None end)
           (match storedLng p with Some x => jsonNumber x | None => None end)
           (storedDescription p).

Section PlacePopup.

Variable numberToString : float -> jsstring.

(** Line 111, on the [place] prop: its coordinates are numbers. *)
Definition getPlaceKey (p : Place) : jsstring :=
  name p ++ [45%N] ++ toFixed numberToString (lat (coordinate p)) 5
         ++ [45%N] ++ toFixed numberToString (lng (coordinate p)) 5.

(** Line 111, on a place read from the store: [null.toFixed] is a TypeError,
    here [None]. *)
Definition storedPlaceKey (p : StoredPlace) : option jsstring :=
  match storedLat p, storedLng p with
  | Some la, Some ln =>
      Some (storedName p ++ [45%N] ++ toFixed numberToString la 5
                         ++ [45%N] ++ toFixed numberToString ln 5)
  | _, _ => None
  end.

(** [saved.some(p => getPlaceKey(p) === currentKey)], line 117: it stops at
    the first place with the key, and throws at a place without a key that
    comes before. *)
Fixpoint someSameKey (currentKey : jsstring) (saved : list StoredPlace)
  : outcome bool :=
  match saved with
  | [] => Returns false
  | p :: others =>
      match storedPlaceKey p with
      | None => Throws
      | Some k =>
          if jsstring_eqb k currentKey then Returns true
          else someSameKey currentKey others
      end
  end.

(** [saved.filter(p => getPlaceKey(p) !== currentKey)], line 135: it visits
    every place, and throws at the first one without a key. *)
Fixpoint filterOtherKeys (currentKey : jsstring) (saved : list StoredPlace)
  : outcome (list StoredPlace) :=
  match saved with
  | [] => Returns []
  | p :: others =>
      match storedPlaceKey p with
      | None => Throws
      | Some k =>
          match filterOtherKeys currentKey others with
          | Returns kept =>
              Returns (if negb (jsstring_eqb k currentKey) then p :: kept else kept)
          | Throws => Throws
          | OutOfFuel => OutOfFuel
          end
      end
  end.

(** The effect of lines 113-122: the new [isSaved]. [saved] is the parsed
    store. When [some] throws, the [catch] of line 119 leaves [isSaved] as it
    was. *)
Definition savedEffect (isSaved : bool) (saved : list StoredPlace) (place : Place)
  : bool :=
  match someSameKey (getPlaceKey place) saved with
  | Returns found => found
  | _ => isSaved
  end.

(** [toggleSave], lines 124-146: the new [isSaved] and the parsed value of
    the store afterwards. When the filter throws, [setIsSaved] and [setItem]
    are not reached: the [catch] of line 143 leaves both as they were. What
    is written is read back through [JSON.parse] at the next use. *)
Definition toggleSave (isSaved : bool) (saved : list StoredPlace) (place : Place)
  : bool * list StoredPlace :=
  if isSaved then
    match filterOtherKeys (getPlaceKey place) saved with
    | Returns newSaved => (false, map reparse newSaved)
    | _ => (isSaved, saved)
    end
  else (true, map reparse saved ++ [jsonPlace place]).

End PlacePopup.

End MapComponent.

(* ================================================================== *)
(** * components/ChatInterface.tsx: the saved-places store *)
(* ================================================================== *)

Module ChatInterface.

Local Open Scope float_scope.

(** What the overlay keeps: the [savedPlaces] state, the parsed value of
    [localStorage.saved_places], and the notice. *)
Record OverlayState : Type := mkOverlay {
  savedPlaces : list Place;
  storage : list Place;
  dbMessage : option jsstring
}.

(** Lines 241-244: the predicate of [newSaved.some]. *)
Definition sameAs (place p : Place) : bool :=
  jsstring_eqb (name p) (name place)
  && (abs (lat (coordinate p) - lat (coordinate place)) <? 0.0001).

(** Lines 239-251: one step of [places.forEach] on [newSaved], [count],
    [lastSavedName]. *)
Definition saveOne (acc : list Place * nat * jsstring) (place : Place)
  : list Place * nat * jsstring :=
  let '(newSaved, count, lastSavedName) := acc in
  let exists_ := existsb (sameAs place) newSaved in
  if negb exists_
  then (newSaved ++ [place], S count, name place)
  else acc.

Definition saveAll (currentSaved places : list Place)
  : list Place * nat * jsstring :=
  fold_left saveOne places (currentSaved, 0%nat, []).

Definition decimal (n : nat) : jsstring :=
  js (DecimalString.NilEmpty.string_of_uint (Nat.to_uint n)).

(** Lines 255-259. *)
Definition savedMessage (count : nat) (lastSavedName : jsstring) : jsstring :=
  if Nat.ltb 0 count then
    if Nat.eqb count 1
    then js "Stored " ++ [34%N] ++ lastSavedName ++ [34%N] ++ js " to database"
    else js "Stored " ++ decimal count ++ js " locations to database"
  else js "Locations already in database".

(** Lines 231-262, on well-formed stored data: the store is written, the
    notice set and [savedPlaces] reloaded from the store. *)
Definition handleSaveAllToDatabase (st : OverlayState) (places : list Place)
  : OverlayState :=
  let '(newSaved, count, lastSavedName) := saveAll (storage st) places in
  mkOverlay newSaved newSaved (Some (savedMessage count lastSavedName)).

(** Lines 269-275: the new state and the arguments of [onDatabaseViewChange]. *)
Definition removeFromDatabase (st : OverlayState) (placeId placeName : jsstring)
  : OverlayState * (bool * list Place) :=
  let updated :=
    filter (fun p => negb (jsstring_eqb (id p) placeId)
                     && negb (jsstring_eqb (name p) placeName))
           (savedPlaces st) in
  (mkOverlay updated updated (dbMessage st), (true, updated)).

(** ** SimpleMarkdown, lines 27-47 *)

(** The patterns of lines 31 and 37, which are written without flags: they
    hold no letter, so matching them is the same with and without [i]. *)
Definition paragraphPattern : Regex.regex :=
  Regex.Seq (Regex.Char 10%N) (Regex.plus (Regex.Char 10%N)).

Definition boldPattern : Regex.regex :=
  Regex.Group 1
    (Regex.seqs [ Regex.lit (js "**"); Regex.lazyStar Regex.dot; Regex.lit (js "**") ]).

(** What a part of a paragraph is rendered as. *)
Inductive Inline : Type :=
| Strong (t : jsstring)
| Span (t : jsstring).

(** [part.slice(2, -2)] *)
Definition sliceInside (part : jsstring) : jsstring :=
  firstn (List.length part - 2 - 2) (skipn 2 part).

(** Lines 38-41; [undefined.startsWith] throws. *)
Definition renderPart (part : option jsstring) : outcome Inline :=
  match part with
  | None => Throws
  | Some t =>
      if isPrefix (js "**") t && isPrefix (js "**") (rev t)
      then Returns (Strong (sliceInside t))
      else Returns (Span t)
  end.

Fixpoint renderParts (parts : list (option jsstring)) : outcome (list Inline) :=
  match parts with
  | [] => Returns []
  | part :: rest =>
      match renderPart part, renderParts rest with
      | Returns i, Returns others => Returns (i :: others)
      | OutOfFuel, _ | _, OutOfFuel => OutOfFuel
      | _, _ => Throws
      end
  end.

Fixpoint renderParagraphs (paragraphs : list (option jsstring))
  : outcome (list (list Inline)) :=
  match paragraphs with
  | [] => Returns []
  | None :: _ => Throws
  | Some para :: rest =>
      match renderParts (Regex.splitBy boldPattern para), renderParagraphs rest with
      | Returns p, Returns ps => Returns (p :: ps)
      | OutOfFuel, _ | _, OutOfFuel => OutOfFuel
      | _, _ => Throws
      end
  end.

(** The paragraphs and their parts; [None] for [null]. *)
Definition SimpleMarkdown (content : jsstring) : outcome (option (list (list Inline))) :=
  match content with
  | [] => Returns None
  | _ :: _ =>
      match renderParagraphs (Regex.splitBy paragraphPattern content) with
      | Returns ps => Returns (Some ps)
      | Throws => Throws
      | OutOfFuel => OutOfFuel
      end
  end.

(** [handleSubmit], lines 180-187: the query handed to [onSearch], if any. *)
Definition handleSubmit (input : jsstring) (isLoading : bool) : option jsstring :=
  match trim input with
  | [] => None
  | _ :: _ => if isLoading then None else Some input
  end.

End ChatInterface.

(* ================================================================== *)
(** * The application component: session state and handlers *)
(* ================================================================== *)

Module App.

Import GeminiService.

(** The component's state hooks and the [searchResultsBackup] ref. *)
Record AppState : Type := mkApp {
  places : list Place;
  summary : jsstring;
  sources : list GroundingSource;
  isLoading : bool;
  userLocation : option LatLng;
  mapCenter : LatLng;
  mapZoom : float;
  selectedPlaceId : option jsstring;
  previousViewState : option (LatLng * float);
  searchResultsBackup : option (list Place * jsstring * list GroundingSource)
}.

(** [handleSearch] up to the [await], lines 46-59: the state it leaves and the
    request it sends. *)
Definition handleSearch_dispatch (s : AppState) (query : jsstring)
  : AppState * ApiRequest :=
  (mkApp [] [] [] true (userLocation s) (mapCenter s) (mapZoom s) None
         (Some (mapCenter s, mapZoom s)) None,
   buildRequest query (userLocation s)).

(** [handleSearch] after the call resolved, lines 61-63 and 69. *)
Definition handleSearch_resolved (s : AppState) (response : GeminiResult)
  : AppState :=
  mkApp (GeminiService.places response) (text response)
        (GeminiService.sources response) false
        (userLocation s) (mapCenter s) (mapZoom s) (selectedPlaceId s)
        (previousViewState s) (searchResultsBackup s).

(** [handleSearch] after the call failed, lines 65-69. *)
Definition handleSearch_rejected (s : AppState) : AppState :=
  mkApp (places s) (js "Sorry, I couldn't find that place. Please try again.")
        (sources s) false
        (userLocation s) (mapCenter s) (mapZoom s) (selectedPlaceId s)
        (previousViewState s) (searchResultsBackup s).

(** Lines 73-85. *)
Definition handleClear (s : AppState) : AppState :=
  match previousViewState s with
  | Some (center, zoom) =>
      mkApp [] [] [] (isLoading s) (userLocation s) center zoom None
            (previousViewState s) None
  | None =>
      mkApp [] [] [] (isLoading s) (userLocation s) (mapCenter s) (mapZoom s) None
            (previousViewState s) None
  end.

(** Lines 87-91. *)
Definition handlePlaceClick (s : AppState) (place : Place) : AppState :=
  mkApp (places s) (summary s) (sources s) (isLoading s) (userLocation s)
        (coordinate place) 16%float (Some (id place))
        (previousViewState s) (searchResultsBackup s).

(** Lines 94-98. *)
Definition handleManualLocate (s : AppState) (location : LatLng) : AppState :=
  mkApp (places s) (summary s) (sources s) (isLoading s) (Some location)
        location 16%float (selectedPlaceId s)
        (previousViewState s) (searchResultsBackup s).

(** Lines 101-113. *)
Definition handleAddPlace (s : AppState) (place : Place) : AppState :=
  mkApp [place]
        (js "**" ++ name place ++ js "**" ++ [10%N; 10%N] ++ js "Device location found.")
        [] (isLoading s) (Some (coordinate place))
        (coordinate place) 16%float (Some (id place))
        (Some (mapCenter s, mapZoom s)) None.

(** Lines 115-121. *)
Definition handleMapMove (s : AppState) (newCenter : LatLng) (newZoom : float)
  : AppState :=
  mkApp (places s) (summary s) (sources s) (isLoading s) (Some newCenter)
        newCenter newZoom (selectedPlaceId s)
        (previousViewState s) (searchResultsBackup s).

(** Lines 132-161. *)
Definition handleDatabaseViewChange (s : AppState) (isOpen : bool)
    (dbPlaces : list Place) : AppState :=
  if isOpen then
    mkApp dbPlaces (summary s) (sources s) (isLoading s) (userLocation s)
          (mapCenter s) (mapZoom s) (selectedPlaceId s) (previousViewState s)
          (match searchResultsBackup s with
           | Some b => Some b
           | None => Some (places s, summary s, sources s)
           end)
  else
    match searchResultsBackup s with
    | Some (ps, sm, srcs) =>
        mkApp ps sm srcs (isLoading s) (userLocation s)
              (mapCenter s) (mapZoom s) (selectedPlaceId s) (previousViewState s)
              None
    | None =>
        mkApp [] [] [] (isLoading s) (userLocation s)
              (mapCenter s) (mapZoom s) (selectedPlaceId s) (previousViewState s)
              None
    end.

(** What can happen to the session: a handler is called, or a pending
    transport call completes. *)
Inductive Event : Type :=
| Search (query : jsstring)
| Resolved (response : GeminiResult)
| Rejected
| Clear
| PlaceClick (place : Place)
| ManualLocate (location : LatLng)
| AddPlace (place : Place)
| MapMove (newCenter : LatLng) (newZoom : float)
| DatabaseViewChange (isOpen : bool) (dbPlaces : list Place).

Definition step (s : AppState) (e : Event) : AppState :=
  match e with
  | Search query => fst (handleSearch_dispatch s query)
  | Resolved response => handleSearch_resolved s response
  | Rejected => handleSearch_rejected s
  | Clear => handleClear s
  | PlaceClick place => handlePlaceClick s place
  | ManualLocate location => handleManualLocate s location
  | AddPlace place => handleAddPlace s place
  | MapMove newCenter newZoom => handleMapMove s newCenter newZoom
  | DatabaseViewChange isOpen dbPlaces => handleDatabaseViewChange s isOpen dbPlaces
  end.

Definition run (s : AppState) (events : list Event) : AppState :=
  fold_left step events s.

(** The published result: places, summary and sources. *)
Definition published (s : AppState)
  : list Place * jsstring * list GroundingSource :=
  (places s, summary s, sources s).

(** Lines 123-125. *)
Definition handleZoomIn (s : AppState) : AppState :=
  mkApp (places s) (summary s) (sources s) (isLoading s) (userLocation s)
        (mapCenter s) (mathMin (mapZoom s + 1)%float 18%float) (selectedPlaceId s)
        (previousViewState s) (searchResultsBackup s).

(** Lines 127-129. *)
Definition handleZoomOut (s : AppState) : AppState :=
  mkApp (places s) (summary s) (sources s) (isLoading s) (userLocation s)
        (mapCenter s) (mathMax (mapZoom s - 1)%float 3%float) (selectedPlaceId s)
        (previousViewState s) (searchResultsBackup s).

(** The form of the overlay submitted with [input]: [handleSubmit] of
    ChatInterface, then [handleSearch]. *)
Definition submitForm (s : AppState) (input : jsstring) : AppState :=
  match ChatInterface.handleSubmit input (isLoading s) with
  | Some query => step s (Search query)
  | None => s
  end.

(** The events that store the viewport in [previousViewState]. *)
Definition takesSnapshot (e : Event) : bool :=
  match e with
  | Search _ | AddPlace _ => true
  | _ => false
  end.

(** The events that leave the published result and its backup alone. *)
Definition keepsResult (e : Event) : bool :=
  match e with
  | PlaceClick _ | ManualLocate _ | MapMove _ _ => true
  | _ => false
  end.

(** The events that can happen while the database view stays open. *)
Definition staysInDatabaseView (e : Event) : bool :=
  match e with
  | DatabaseViewChange true _ => true
  | _ => keepsResult e
  end.

(** The events of a query's life and of the database view. *)
Definition isResultEvent (e : Event) : bool :=
  match e with
  | Search _ | Resolved _ | Rejected | DatabaseViewChange _ _ => true
  | _ => false
  end.

End App.

(* ================================================================== *)
(** * Definitions used by the statements and proofs *)
(* ================================================================== *)

Module MatcherFacts.

Import Regex.

(** A lower bound on the length of what a pattern matches. *)
Fixpoint minLen (r : regex) : nat :=
  match r with
  | Empty | AssertStart => 0
  | Char _ | Class _ => 1
  | Seq r1 r2 => minLen r1 + minLen r2
  | Alt r1 r2 => Nat.min (minLen r1) (minLen r2)
  | Quant _ _ _ _ => 0
  | Group _ r' => minLen r'
  end.

(** Groups that are set whenever the pattern matches. *)
Fixpoint sureGroups (r : regex) : list nat :=
  match r with
  | Seq r1 r2 =>
      filter (fun i => negb (existsb (Nat.eqb i) (groupsOf r2))) (sureGroups r1)
      ++ sureGroups r2
  | Group i _ => match i with 0 => [] | S _ => [i] end
  | _ => []
  end.

(** How the state [y] handed to the continuation relates to the state [x] the
    matcher of [r] started from. *)
Record Reach (r : regex) (x y : MatchState) : Prop := mkReach {
  reach_index : endIndex x + minLen r <= endIndex y;
  reach_length :
    endIndex y + List.length (rest y) = endIndex x + List.length (rest x);
  reach_kept : forall i, ~ In i (groupsOf r) ->
               getCapture i (captures y) = getCapture i (captures x);
  reach_set : forall i, In i (sureGroups r) -> getCapture i (captures y) <> None
}.

End MatcherFacts.

(** The strings a pattern matches, and the shape of a coordinate annotation. *)
Module MatcherSemantics.

Import Regex GeminiService.

(** How many iterations a quantifier [{min,max}] makes. *)
Definition repeats (min : nat) (max : option nat) (n : nat) : Prop :=
  match max with
  | Some k => n <= k /\ (min <= n \/ k < min)
  | None => min <= n
  end.

(** The strings of a pattern: what a match of it can consume. *)
Fixpoint matched (r : regex) (s : jsstring) : Prop :=
  match r with
  | Empty | AssertStart => s = []
  | Char c => exists ch, s = [ch] /\ canonicalize ch = canonicalize c
  | Class p => exists ch, s = [ch] /\ p ch = true
  | Seq r1 r2 => exists s1 s2, s = s1 ++ s2 /\ matched r1 s1 /\ matched r2 s2
  | Alt r1 r2 => matched r1 s \/ matched r2 s
  | Quant r' min max _ =>
      exists pieces : list jsstring,
        s = List.concat pieces /\ Forall (matched r') pieces
        /\ repeats min max (List.length pieces)
  | Group _ r' => matched r' s
  end.

(** The state [y] lies [pre] beyond [x] and keeps the captures outside [parens]. *)
Record Step (parens : list nat) (x y : MatchState) (pre : jsstring) : Prop := mkStep {
  step_rest : rest x = pre ++ rest y;
  step_index : endIndex y = endIndex x + List.length pre;
  step_kept : forall i, ~ In i parens ->
              getCapture i (captures y) = getCapture i (captures x)
}.

(** Two states at the same place of the input. *)
Definition samePlace (x x' : MatchState) : Prop :=
  endIndex x = endIndex x' /\ rest x = rest x'.

(** Whether a continuation succeeds depends on the place only. *)
Definition placeOnly (c c' : Continuation) : Prop :=
  forall y y', samePlace y y' -> c y <> None -> c' y' <> None.

Definition notLineTerminator (c : N) : Prop := isLineTerminator c = false.

Definition anchorRegex : regex :=
  Alt AssertStart (Alt (Char 10%N) (Seq (oneOf (js ".!?")) (plus space))).
Definition boldRegex : regex := opt (lit (js "**")).
Definition annotationRegex : regex :=
  seqs [ Char (ch "(");
         Alt (lit (js "lat:")) (lit (js "latitude:"));
         star space;
         numberGroup 2;
         Char (ch ",");
         star space;
         Alt (lit (js "lng:")) (lit (js "longitude:"));
         star space;
         numberGroup 4;
         Char (ch ")") ].
Definition afterNameRegex : regex :=
  Seq boldRegex (Seq (lazyStar dot) annotationRegex).

(** Equal up to the case of ASCII letters. *)
Definition foldsTo (l p : jsstring) : Prop := map canonicalize l = map canonicalize p.

Definition allWhiteSpace (w : jsstring) : Prop := Forall (fun c => isWhiteSpace c = true) w.
Definition allDigits (d : jsstring) : Prop := Forall (fun c => isDigit c = true) d.

(** [-?\d+(\.\d+)?] *)
Definition isNumberText (a : jsstring) : Prop :=
  exists sign int frac,
    a = sign ++ int ++ frac
    /\ (sign = [] \/ sign = js "-")
    /\ int <> [] /\ allDigits int
    /\ (frac = [] \/ exists f, frac = js "." ++ f /\ f <> [] /\ allDigits f).

(** [s] is a coordinate annotation with the number texts [a] and [b]. *)
Definition isAnnotation (s a b : jsstring) : Prop :=
  exists l1 w1 w2 l2 w3,
    s = js "(" ++ l1 ++ w1 ++ a ++ js "," ++ w2 ++ l2 ++ w3 ++ b ++ js ")"
    /\ (foldsTo l1 (js "lat:") \/ foldsTo l1 (js "latitude:"))
    /\ (foldsTo l2 (js "lng:") \/ foldsTo l2 (js "longitude:"))
    /\ allWhiteSpace w1 /\ allWhiteSpace w2 /\ allWhiteSpace w3
    /\ isNumberText a /\ isNumberText b.

(** A character of the text before an annotation on the first line: no line
    terminator and no opening parenthesis. *)
Definition nameCharacter (c : N) : Prop :=
  isLineTerminator c = false /\ c <> 40%N.

(** The place's coordinate is the value of the two number texts of an
    annotation that occurs in the text. *)
Definition fromAnnotation (text : jsstring) (p : Place) : Prop :=
  exists before s after a b,
    text = before ++ s ++ after
    /\ isAnnotation s a b
    /\ lat (coordinate p) = parseFloat a
    /\ lng (coordinate p) = parseFloat b.

End MatcherSemantics.

(** Neither coordinate of the place is NaN. *)
Definition notNaN (p : Place) : Prop :=
  isNaN (lat (coordinate p)) = false /\ isNaN (lng (coordinate p)) = false.

(** A place without its id. *)
Definition forgetId (p : Place) : jsstring * LatLng * option jsstring :=
  (name p, coordinate p, description p).

Definition outcome_map {A B : Type} (f : A -> B) (o : outcome A) : outcome B :=
  match o with
  | Returns a => Returns (f a)
  | Throws => Throws
  | OutOfFuel => OutOfFuel
  end.

Definition hasValidCoordinate (p : Place) : bool :=
  MapComponent.isValidLatLng (lat (coordinate p)) (lng (coordinate p)).

Definition coordinatePair (p : Place) : float * float :=
  (lat (coordinate p), lng (coordinate p)).

(** Emphasis markup and sentence punctuation: what the name clean-up removes
    or cuts at. *)
Definition isMarkup (c : N) : bool := existsb (N.eqb c) (js "*.!?").

Definition finiteLatitude (p : Place) : Prop :=
  is_finite (lat (coordinate p)) = true.

(** Both coordinates of the place are finite numbers. *)
Definition finiteCoordinate (p : Place) : Prop :=
  is_finite (lat (coordinate p)) = true /\ is_finite (lng (coordinate p)) = true.

(** Both coordinates of the stored place are finite numbers, none is [null]. *)
Definition storedFinite (p : MapComponent.StoredPlace) : Prop :=
  exists la ln,
    MapComponent.storedLat p = Some la /\ MapComponent.storedLng p = Some ln
    /\ is_finite la = true /\ is_finite ln = true.

(** The stored place is as [JSON.stringify] writes a place with finite
    coordinates: reading it and writing it again does not change it. *)
Definition storedAsWritten (p : MapComponent.StoredPlace) : Prop :=
  storedFinite p /\ MapComponent.reparse p = p.

(** Lines 168-176 of the application component: the props it hands to
    MapComponent, with the map's own view at the time the effect runs. *)
Definition mapFrame (s : App.AppState) (viewCenter : LatLng) (viewZoom : float)
  : MapComponent.Frame :=
  MapComponent.mkFrame viewCenter viewZoom
                       (App.mapCenter s) (App.mapZoom s) (App.places s).

(** The fit-to-bounds of lines 47-52 over the places of [shown] that have a
    valid coordinate. *)
Definition fitOf (shown : list Place) : MapComponent.MapAction :=
  MapComponent.FitBounds
    (MapComponent.latLngBounds (map coordinatePair (MapComponent.safePlaces shown)))
    (50, 50)%float 16%float.

(** Line 66, between the map's center and the center MapUpdater is given. *)
Definition distanceToCenter (f : MapComponent.Frame) : float :=
  let c := MapComponent.safeCenter (MapComponent.propCenter f) in
  sqrt (pow2 (lat (MapComponent.mapCenterNow f) - lat c)
        + pow2 (lng (MapComponent.mapCenterNow f) - lng c))%float.

(** What a run of the effect emits for a frame rendered by MapComponent. *)
Definition expectedAction (f : MapComponent.Frame) (a : MapComponent.MapAction)
  : Prop :=
  if existsb hasValidCoordinate (MapComponent.propPlaces f)
  then a = MapComponent.FitBounds
             (MapComponent.latLngBounds
                (map coordinatePair (MapComponent.safePlaces (MapComponent.propPlaces f))))
             (50, 50)%float 16%float
  else MapComponent.isFitBounds a = false.

(** The text of the parts of a split, in order. *)
Definition partsText (parts : list (option jsstring)) : jsstring :=
  flat_map (fun part => match part with Some t => t | None => [] end) parts.

(** What stays of a text when asterisks and line feeds are left out. *)
Definition plainText (s : jsstring) : jsstring :=
  filter (fun c => negb (c =? 42)%N && negb (c =? 10)%N) s.

Definition visibleText (i : ChatInterface.Inline) : jsstring :=
  match i with
  | ChatInterface.Strong t => t
  | ChatInterface.Span t => t
  end.

(** Concrete values for the closed examples. *)
Module Samples.

Definition digit36 (d : Z) : N :=
  if (d <? 10)%Z then Z.to_N (48 + d) else Z.to_N (87 + d).

Fixpoint fractionDigits36 (n : nat) (num den : Z) : jsstring :=
  match n with
  | 0 => []
  | S n' =>
      if (num =? 0)%Z then []
      else digit36 (num * 36 / den) :: fractionDigits36 n' ((num * 36) mod den) den
  end.

(** One [toString(36)] for the values [Math.random] returns, those of
    [0, 1): the digits of the exact value, at most twelve. *)
Definition toString36 (x : float) : jsstring :=
  match Prim2SF x with
  | S754_finite false m (Zneg e) =>
      js "0." ++ fractionDigits36 12 (Zpos m) (2 ^ Zpos e)
  | _ => js "0"
  end.

(** Two runs of [Math.random]. *)
Definition randomA (n : nat) : float := 0.5%float.
Definition randomB (n : nat) : float := 0.25%float.

Definition centralParkText : jsstring :=
  js "**Central Park** is great (lat: 40.7829, lng: -73.9654) - a big green space.".

Definition outOfRangeText : jsstring := js "Summit (lat: 999, lng: 0)".

(** An annotation with both numbers out of range. *)
Definition farAnnotation : jsstring := js "(lat: -91.5, lng: 181)".

Definition cafe : Place :=
  mkPlace (js "a1") (js "Cafe") (mkLatLng 10 20) None.

(** Same name and latitude as [cafe], 80 degrees of longitude away. *)
Definition farCafe : Place :=
  mkPlace (js "b2") (js "Cafe") (mkLatLng 10 100) None.

Definition nowhere : Place :=
  mkPlace (js "c3") (js "Nowhere") (mkLatLng nan nan) None.

(** A place whose longitude is beyond the largest number. *)
Definition edge : Place :=
  mkPlace (js "d4") (js "Edge") (mkLatLng 10 infinity) None.

Definition oldSource : GroundingSource := mkSource (js "https://a.example") (js "A").

Definition resultA : GeminiService.GeminiResult :=
  GeminiService.mkResult (js "A") [cafe] [oldSource].

Definition resultB : GeminiService.GeminiResult :=
  GeminiService.mkResult (js "B") [farCafe] [].

(** A session that shows [resultA]. *)
Definition session : App.AppState :=
  App.mkApp [cafe] (js "A") [oldSource] false None (mkLatLng 48 2) 13 None None None.

(** A session that shows two places, the map at zoom 13 over them. *)
Definition twoCafes : App.AppState :=
  App.mkApp [cafe; farCafe] (js "A") [oldSource] false None (mkLatLng 10 60) 13
            None None None.

Definition newPlaces : MapComponent.PlacesArray :=
  MapComponent.mkArray 1 [cafe; nowhere; farCafe].

End Samples.

(* ================================================================== *)
(** * Properties *)
(* ================================================================== *)

(** ** Strings *)

Lemma jsstring_eqb_eq (a b : jsstring) : jsstring_eqb a b = true <-> a = b.
Proof.
  unfold jsstring_eqb. destruct (list_eq_dec N.eq_dec a b); split; congruence.
Qed.

Lemma jsstring_eqb_neq (a b : jsstring) : jsstring_eqb a b = false <-> a <> b.
Proof.
  unfold jsstring_eqb. destruct (list_eq_dec N.eq_dec a b); split; congruence.
Qed.

(** ** The matcher: where a successful match ends and which groups it sets *)

Section MatcherProperties.

Import Regex MatcherFacts.

Lemma nth_setNth_same k v caps : nth k (setNth k v caps) None = v.
Proof.
  revert caps; induction k as [|k IH]; intros [|c t]; cbn; auto.
Qed.

Lemma nth_setNth_other k j v caps :
  k <> j -> nth j (setNth k v caps) None = nth j caps None.
Proof.
  revert j caps; induction k as [|k IH]; intros [|j] [|c t] H; cbn; try congruence.
  - destruct j; reflexivity.
  - rewrite IH by congruence. destruct j; reflexivity.
  - apply IH; congruence.
Qed.

Lemma getCapture_set_same i v caps :
  i <> 0 -> getCapture i (setCapture i v caps) = v.
Proof.
  destruct i as [|i]; [congruence|intros _]. apply nth_setNth_same.
Qed.

Lemma getCapture_set_other i j v caps :
  i <> j -> getCapture j (setCapture i v caps) = getCapture j caps.
Proof.
  destruct j as [|j]; [reflexivity|].
  destruct i as [|i]; [reflexivity|].
  intros H. apply nth_setNth_other. congruence.
Qed.

Lemma clearCaptures_kept parens x i :
  ~ In i parens ->
  getCapture i (captures (clearCaptures parens x)) = getCapture i (captures x).
Proof.
  unfold clearCaptures; cbn [captures].
  generalize (captures x) as caps.
  induction parens as [|p ps IH]; intros caps H; cbn [fold_left]; [reflexivity|].
  rewrite IH by (intros Hi; apply H; right; exact Hi).
  apply getCapture_set_other. intros ->. apply H. left. reflexivity.
Qed.

Lemma orElse_Some a b z :
  orElse a b = Some z -> a = Some z \/ b tt = Some z.
Proof. destruct a; cbn; auto. Qed.

Section Repeat.
Variable m : MatchState -> Continuation -> option MatchState.
Variable parens : list nat.
Hypothesis m_reach : forall x c z, m x c = Some z ->
  exists y, c y = Some z
    /\ endIndex x <= endIndex y
    /\ endIndex y + List.length (rest y) = endIndex x + List.length (rest x)
    /\ forall i, ~ In i parens -> getCapture i (captures y) = getCapture i (captures x).

Lemma repeatMatcher_reach fuel : forall min max greedy x c z,
  repeatMatcher m parens fuel min max greedy x c = Some z ->
  exists y, c y = Some z
    /\ endIndex x <= endIndex y
    /\ endIndex y + List.length (rest y) = endIndex x + List.length (rest x)
    /\ forall i, ~ In i parens -> getCapture i (captures y) = getCapture i (captures x).
Proof.
  induction fuel as [|fuel IH]; intros min max greedy x c z H.
  - destruct max as [[|n]|]; cbn in H; try discriminate.
    exists x; repeat split; auto.
  - assert (Hstop : c x = Some z -> exists y, c y = Some z
      /\ endIndex x <= endIndex y
      /\ endIndex y + List.length (rest y) = endIndex x + List.length (rest x)
      /\ forall i, ~ In i parens -> getCapture i (captures y) = getCapture i (captures x))
      by (intros Hc; exists x; repeat split; auto).
    assert (Hiter : m (clearCaptures parens x)
        (fun y => if (min =? 0) && (endIndex y =? endIndex x) then None
                  else repeatMatcher m parens fuel (pred min) (option_map pred max) greedy y c)
        = Some z -> exists y, c y = Some z
      /\ endIndex x <= endIndex y
      /\ endIndex y + List.length (rest y) = endIndex x + List.length (rest x)
      /\ forall i, ~ In i parens -> getCapture i (captures y) = getCapture i (captures x)).
    { intros Hm. apply m_reach in Hm. destruct Hm as (y & Hd & Hi & Hl & Hk).
      destruct ((min =? 0) && (endIndex y =? endIndex x)); [discriminate|].
      apply IH in Hd. destruct Hd as (y' & Hc & Hi' & Hl' & Hk').
      cbn [clearCaptures endIndex rest] in Hi, Hl.
      exists y'; repeat split; [exact Hc | lia | lia |].
      intros i Hin. rewrite Hk', Hk by exact Hin. apply clearCaptures_kept; exact Hin. }
    cbn [repeatMatcher] in H.
    destruct max as [[|n]|]; [apply Hstop; exact H| |];
      (destruct (negb (min =? 0)); [apply Hiter; exact H|];
       destruct (negb greedy); apply orElse_Some in H; destruct H as [H|H]; auto).
Qed.
End Repeat.

Lemma not_in_existsb i l : existsb (Nat.eqb i) l = false -> ~ In i l.
Proof.
  intros H Hin. assert (existsb (Nat.eqb i) l = true); [|congruence].
  apply existsb_exists. exists i. split; [exact Hin | apply Nat.eqb_refl].
Qed.

Lemma matcher_reach r : forall x c z,
  matcher r x c = Some z -> exists y, c y = Some z /\ Reach r x y.
Proof.
  induction r as [ | pc | p | | r1 IH1 r2 IH2 | r1 IH1 r2 IH2 | r' IH min max greedy | g r' IH ];
    intros x c z H; cbn [matcher] in H.
  - exists x; split; [exact H|]. split; cbn; auto; try lia; try (intros i []).
  - destruct (rest x) as [|ch t] eqn:Hr; [discriminate|].
    destruct (canonicalize ch =? canonicalize pc)%N; [|discriminate].
    eexists; split; [exact H|]. split; cbn; rewrite ?Hr; cbn; auto; try lia; try (intros i []).
  - destruct (rest x) as [|ch t] eqn:Hr; [discriminate|].
    destruct (p ch); [|discriminate].
    eexists; split; [exact H|]. split; cbn; rewrite ?Hr; cbn; auto; try lia; try (intros i []).
  - destruct (endIndex x =? 0); [|discriminate].
    exists x; split; [exact H|]. split; cbn; auto; try lia; try (intros i []).
  - apply IH1 in H. destruct H as (y & H & [Hi Hl Hk Hs]).
    apply IH2 in H. destruct H as (y' & H & [Hi' Hl' Hk' Hs']).
    exists y'; split; [exact H|]. split; cbn [minLen groupsOf sureGroups]; try lia.
    + intros i Hin. rewrite Hk', Hk; auto; intros Hx; apply Hin, in_or_app; auto.
    + intros i Hin. apply in_app_or in Hin. destruct Hin as [Hin|Hin]; [|auto].
      apply filter_In in Hin. destruct Hin as [Hin Hnot].
      apply negb_true_iff, not_in_existsb in Hnot. rewrite Hk' by exact Hnot. auto.
  - apply orElse_Some in H. destruct H as [H|H].
    + apply IH1 in H. destruct H as (y & H & [Hi Hl Hk Hs]).
      exists y; split; [exact H|]. split; cbn [minLen groupsOf sureGroups]; try lia.
      * intros i Hin. apply Hk. intros Hx; apply Hin, in_or_app; auto.
      * intros i [].
    + apply IH2 in H. destruct H as (y & H & [Hi Hl Hk Hs]).
      exists y; split; [exact H|]. split; cbn [minLen groupsOf sureGroups]; try lia.
      * intros i Hin. apply Hk. intros Hx; apply Hin, in_or_app; auto.
      * intros i [].
  - apply repeatMatcher_reach in H.
    + destruct H as (y & H & Hi & Hl & Hk).
      exists y; split; [exact H|]. split; cbn [minLen groupsOf sureGroups]; auto; try lia;
        try (intros i []).
    + intros x0 c0 z0 H0. apply IH in H0. destruct H0 as (y & H0 & [Hi Hl Hk Hs]).
      exists y; repeat split; auto; lia.
  - apply IH in H. destruct H as (y & H & [Hi Hl Hk Hs]).
    eexists; split; [exact H|]. split; cbn [minLen groupsOf sureGroups endIndex rest captures]; try lia.
    + intros i Hin. rewrite getCapture_set_other; [apply Hk|]; intros Hx; apply Hin; cbn; auto.
    + intros i Hin. destruct g as [|g]; [destruct Hin|].
      destruct Hin as [<-|[]]. rewrite getCapture_set_same; congruence.
Qed.

Lemma search_reach r : forall s i y,
  search r s i = Some y ->
  i + minLen r <= endIndex y
  /\ endIndex y <= i + List.length s
  /\ forall g, In g (sureGroups r) -> getCapture g (captures y) <> None.
Proof.
  induction s as [|a s IH]; intros i y H; cbn [search] in H.
  - destruct (matcher r (mkState i [] (noCaptures r)) Some) as [y'|] eqn:Hm;
      [|discriminate].
    injection H as ->. apply matcher_reach in Hm.
    destruct Hm as (y' & Hy & [Hi Hl _ Hs]). injection Hy as ->.
    cbn [endIndex rest] in Hi, Hl. repeat split; auto; lia.
  - destruct (matcher r (mkState i (a :: s) (noCaptures r)) Some) as [y'|] eqn:Hm.
    + injection H as ->. apply matcher_reach in Hm.
      destruct Hm as (y' & Hy & [Hi Hl _ Hs]). injection Hy as ->.
      cbn [endIndex rest] in Hi, Hl. repeat split; auto; lia.
    + apply IH in H. destruct H as (Hi & Hl & Hs). cbn [List.length].
      repeat split; auto; lia.
Qed.

Lemma exec_reach r text lastIndex m lastIndex' :
  exec r text lastIndex = (Some m, lastIndex') ->
  lastIndex + minLen r <= lastIndex'
  /\ lastIndex' <= List.length text
  /\ forall g, In g (sureGroups r) -> getCapture g m <> None.
Proof.
  unfold exec. destruct (List.length text <? lastIndex) eqn:Hlt; [discriminate|].
  apply Nat.ltb_ge in Hlt.
  destruct (search r (skipn lastIndex text) lastIndex) as [y|] eqn:Hs; [|discriminate].
  intros H. injection H as <- <-. apply search_reach in Hs.
  rewrite length_skipn in Hs. destruct Hs as (Hi & Hl & Hg).
  repeat split; auto; lia.
Qed.

End MatcherProperties.

(** ** The extractor *)

Section ExtractorProperties.

Import Regex MatcherFacts GeminiService.

Lemma coordinateRegex_minLen : 1 <= minLen coordinateRegex.
Proof. vm_compute. lia. Qed.

Lemma coordinateRegex_group1 : In 1 (sureGroups coordinateRegex).
Proof. vm_compute. auto. Qed.

(** With more fuel than input left, the loop returns, and it only ever adds
    places whose coordinates are not NaN. *)
Lemma parseLoop_returns toString36 mathRandom text :
  forall fuel lastIndex calls places,
    lastIndex <= List.length text ->
    List.length text - lastIndex < fuel ->
    Forall notNaN places ->
    exists ps,
      parseLoop toString36 mathRandom fuel text lastIndex calls places = Returns ps
      /\ Forall notNaN ps.
Proof.
  induction fuel as [|fuel IH]; intros lastIndex calls places Hle Hfuel Hinv;
    [lia|].
  cbn [parseLoop].
    destruct (exec coordinateRegex text lastIndex) as [[m|] lastIndex'] eqn:He.
  - apply exec_reach in He. destruct He as (Hi & Hl & Hg).
    pose proof coordinateRegex_minLen as Hmin.
    specialize (Hg 1 coordinateRegex_group1).
    destruct (getCapture 1 m) as [m1|]; [clear Hg|congruence].
    destruct (truthy (getCapture 2 m) && truthy (getCapture 4 m));
      [|apply IH; [lia|lia|exact Hinv]].
    destruct (isNaN (parseFloat (orDefault (getCapture 2 m) []))) eqn:Hlat;
      [apply IH; [lia|lia|exact Hinv]|].
    destruct (isNaN (parseFloat (orDefault (getCapture 4 m) []))) eqn:Hlng;
      [apply IH; [lia|lia|exact Hinv]|].
    cbn [negb andb]. apply IH; [lia|lia|].
    apply Forall_app. split; [exact Hinv|].
    constructor; [|constructor]. split; cbn; assumption.
  - exists places. split; [reflexivity|exact Hinv].
Qed.

(** Two runs over the same text differ in the ids at most. *)
Lemma parseLoop_forgetId toString36 randomA randomB text :
  forall fuel lastIndex callsA callsB placesA placesB,
    map forgetId placesA = map forgetId placesB ->
    outcome_map (map forgetId)
      (parseLoop toString36 randomA fuel text lastIndex callsA placesA)
    = outcome_map (map forgetId)
      (parseLoop toString36 randomB fuel text lastIndex callsB placesB).
Proof.
  induction fuel as [|fuel IH]; intros lastIndex callsA callsB placesA placesB Hsame;
    cbn [parseLoop]; [reflexivity|].
  destruct (exec coordinateRegex text lastIndex) as [[m|] lastIndex'].
  - destruct (getCapture 1 m) as [m1|]; [|reflexivity].
    destruct (truthy (getCapture 2 m) && truthy (getCapture 4 m)); [|apply IH; exact Hsame].
    destruct (negb (isNaN (parseFloat (orDefault (getCapture 2 m) [])))
              && negb (isNaN (parseFloat (orDefault (getCapture 4 m) []))));
      [|apply IH; exact Hsame].
    apply IH. rewrite !map_app, Hsame. reflexivity.
  - cbn [outcome_map]. rewrite Hsame. reflexivity.
Qed.

(** The extractor returns on every text. *)
Lemma parseCoordinatesFromText_returns toString36 mathRandom text :
  exists ps,
    parseCoordinatesFromText toString36 mathRandom text = Returns ps
    /\ Forall notNaN ps.
Proof.
  unfold parseCoordinatesFromText. apply parseLoop_returns; [lia|lia|constructor].
Qed.

End ExtractorProperties.

(** C4, at its input: the extractor returns one place with the coordinate
    40.7829, -73.9654, and its name is the placeholder: group 1 of the
    pattern matched the empty string. *)
Theorem central_park_is_named_unknown_location :
  forall (toString36 : float -> jsstring) (mathRandom : nat -> float),
    GeminiService.parseCoordinatesFromText toString36 mathRandom
      (js "**Central Park** is great (lat: 40.7829, lng: -73.9654) - a big green space.")
    = Returns [mkPlace (GeminiService.randomId toString36 mathRandom 0)
                       (js "Unknown Location")
                       (mkLatLng 40.7829 (-73.9654)) None].
Proof. intros toString36 mathRandom. vm_compute. reflexivity. Qed.

(** C8, as the code has it: two runs of the extractor on the same text, with
    whatever [Math.random] returns in each, both return, and the places they
    return agree in order, name, coordinate and description; the ids are
    drawn from [Math.random] and are not part of the agreement. *)
Theorem extraction_repeats_up_to_ids :
  forall (toString36 : float -> jsstring) (randomA randomB : nat -> float)
         (text : jsstring),
  exists psA psB,
    GeminiService.parseCoordinatesFromText toString36 randomA text = Returns psA
    /\ GeminiService.parseCoordinatesFromText toString36 randomB text = Returns psB
    /\ map forgetId psA = map forgetId psB.
Proof.
  intros toString36 randomA randomB text.
  destruct (parseCoordinatesFromText_returns toString36 randomA text) as (psA & HA & _).
  destruct (parseCoordinatesFromText_returns toString36 randomB text) as (psB & HB & _).
  exists psA, psB. split; [exact HA|]. split; [exact HB|].
  pose proof (parseLoop_forgetId toString36 randomA randomB text
                (S (List.length text)) 0 0 0 [] [] eq_refl) as H.
  unfold GeminiService.parseCoordinatesFromText in HA, HB.
  rewrite HA, HB in H. cbn [outcome_map] in H. congruence.
Qed.

(** C8 fails as stated: on a text with one well-formed annotation, a run in
    which [Math.random] returns 0.5 and a run in which it returns 0.25 yield
    different records (ids "i" and "9"). *)
Lemma two_runs_yield_different_records :
  GeminiService.parseCoordinatesFromText Samples.toString36 Samples.randomA
    Samples.centralParkText
  <> GeminiService.parseCoordinatesFromText Samples.toString36 Samples.randomB
       Samples.centralParkText.
Proof. vm_compute. discriminate. Qed.

(** ** Numbers *)

Section FloatProperties.

Local Open Scope float_scope.

Lemma SFeqb_cases x y :
  SFeqb x y = true ->
  (exists s s', x = S754_zero s /\ y = S754_zero s')
  \/ (exists s, x = S754_infinity s /\ y = S754_infinity s)
  \/ (exists s m e, x = S754_finite s m e /\ y = S754_finite s m e).
Proof.
  unfold SFeqb, SFcompare.
  destruct x as [s| s| |s m e], y as [s'| s'| |s' m' e']; try discriminate;
    try (destruct s; discriminate); try (destruct s'; discriminate).
  - intros _. left. eauto.
  - intros H. right; left. destruct s, s'; try discriminate; eauto.
  - intros H. right; right.
    destruct s, s'; try discriminate;
      destruct (Z.compare_spec e e') as [He|He|He]; try discriminate; subst e';
      destruct (Pos.compare_cont Eq m m') eqn:Hm; try discriminate;
      apply Pos.compare_eq in Hm; subst m'; eauto.
Qed.

Lemma SF64sub_eqb x y :
  SFeqb x y = true ->
  SF64sub x y = S754_zero false \/ SF64sub x y = S754_zero true \/ SF64sub x y = S754_nan.
Proof.
  intros H. apply SFeqb_cases in H.
  destruct H as [(s & s' & -> & ->)|[(s & -> & ->)|(s & m & e & -> & ->)]].
  - destruct s, s'; cbn; auto.
  - destruct s; cbn; auto.
  - left. unfold SF64sub, SFsub.
    rewrite Z.sub_diag. reflexivity.
Qed.

(** The difference of two numbers that are [===] is a zero or NaN. *)
Lemma sub_eqb_cases (a b : float) :
  (a =? b) = true -> a - b = zero \/ a - b = neg_zero \/ a - b = nan.
Proof.
  intros H. rewrite eqb_spec in H. apply SF64sub_eqb in H.
  rewrite <- sub_spec in H.
  rewrite <- (SF2Prim_Prim2SF (a - b)).
  destruct H as [-> | [-> | ->]]; auto.
Qed.

(** Line 66 on coordinates that are [===]: the distance is not above the
    threshold. *)
Lemma dist_of_equal (a b a' b' : float) :
  (a =? b) = true -> (a' =? b') = true ->
  (0.0001 <? sqrt (pow2 (a - b) + pow2 (a' - b'))) = false.
Proof.
  intros H H'. apply sub_eqb_cases in H, H'.
  destruct H as [-> | [-> | ->]], H' as [-> | [-> | ->]]; reflexivity.
Qed.

End FloatProperties.

(** ** The view reconciler *)

Section ReconcilerProperties.

Import MapComponent.
Local Open Scope float_scope.

Lemma sameObject_trans a b c :
  sameObject a b = true -> sameObject b c = true -> sameObject a c = true.
Proof.
  unfold sameObject. rewrite !Nat.eqb_eq. congruence.
Qed.

Lemma sameObject_sym a b : sameObject a b = true -> sameObject b a = true.
Proof.
  unfold sameObject. rewrite !Nat.eqb_eq. congruence.
Qed.

(** A run with the array the previous run remembered fits no bounds and
    remembers the same array. *)
Lemma MapUpdater_same_object st center zoom places :
  sameObject places (prevPlacesRef st) = true ->
  isFitBounds (fst (MapUpdater st center zoom places)) = false
  /\ snd (MapUpdater st center zoom places) = prevPlacesRef st.
Proof.
  intros Hsame. unfold MapUpdater. rewrite Hsame. cbn [negb andb].
  destruct (negb (isValidLatLng (lat center) (lng center))); [split; reflexivity|].
  destruct (negb (isValidLatLng (lat (getCenter st)) (lng (getCenter st))));
    [split; reflexivity|].
  match goal with |- context [if ?b then _ else _] => destruct b end;
    split; reflexivity.
Qed.

(** A run remembers the array it was given or the one it remembered before;
    the former when it fits bounds. *)
Lemma MapUpdater_remembers st center zoom places :
  (snd (MapUpdater st center zoom places) = places
   \/ snd (MapUpdater st center zoom places) = prevPlacesRef st)
  /\ (isFitBounds (fst (MapUpdater st center zoom places)) = true ->
      snd (MapUpdater st center zoom places) = places).
Proof.
  unfold MapUpdater.
  destruct (negb (isValidLatLng (lat center) (lng center)));
    [split; [right; reflexivity|discriminate]|].
  destruct (negb (sameObject places (prevPlacesRef st))
            && Nat.ltb 0 (List.length (elements places)));
    [split; [left; reflexivity|reflexivity]|].
  destruct (negb (isValidLatLng (lat (getCenter st)) (lng (getCenter st))));
    [split; [right; reflexivity|discriminate]|].
  match goal with |- context [if ?b then _ else _] => destruct b end;
    (split; [right; reflexivity|discriminate]).
Qed.

(** Re-renders with the remembered array never fit bounds. *)
Lemma runEffects_same_object_no_fit renders :
  forall prev P,
    sameObject prev P = true ->
    Forall (fun r => sameObject (places r) P = true) renders ->
    filter isFitBounds (fst (runEffects prev renders)) = [].
Proof.
  induction renders as [|r rest IH]; intros prev P Hprev Hall; [reflexivity|].
  inversion Hall as [|r' l Hhead Htail]; subst.
  assert (Hsame : sameObject (places r) prev = true)
    by (eapply sameObject_trans; [exact Hhead|apply sameObject_sym; exact Hprev]).
  destruct (MapUpdater_same_object (mkUpdater (viewCenter r) (viewZoom r) prev)
              (center r) (zoom r) _ Hsame) as [Hfit Hsnd].
  cbn [runEffects].
  destruct (MapUpdater _ (center r) (zoom r) (places r)) as [a prev'] eqn:Hm.
  cbn [fst snd prevPlacesRef] in Hfit, Hsnd. subst prev'.
  specialize (IH prev P Hprev Htail).
  destruct (runEffects prev rest) as [acts last]. cbn [fst] in *.
  cbn [filter]. rewrite Hfit. exact IH.
Qed.

(** However often one array is rendered, bounds are fitted at most once. *)
Lemma runEffects_fits_at_most_once renders :
  forall prev P,
    Forall (fun r => sameObject (places r) P = true) renders ->
    List.length (filter isFitBounds (fst (runEffects prev renders))) <= 1.
Proof.
  induction renders as [|r rest IH]; intros prev P Hall; [cbn; lia|].
  inversion Hall as [|r' l Hhead Htail]; subst.
  destruct (MapUpdater_remembers (mkUpdater (viewCenter r) (viewZoom r) prev)
              (center r) (zoom r) (places r)) as [_ Hrem].
  cbn [runEffects].
  destruct (MapUpdater _ (center r) (zoom r) (places r)) as [a prev'] eqn:Hm.
  cbn [fst snd] in Hrem.
  destruct (isFitBounds a) eqn:Hfit.
  - specialize (Hrem eq_refl). subst prev'.
    pose proof (runEffects_same_object_no_fit rest (places r) P Hhead Htail) as Hno.
    destruct (runEffects (places r) rest) as [acts last]. cbn [fst] in *.
    cbn [filter]. rewrite Hfit, Hno. cbn. lia.
  - specialize (IH prev' P Htail).
    destruct (runEffects prev' rest) as [acts last]. cbn [fst] in *.
    cbn [filter]. rewrite Hfit. exact IH.
Qed.

End ReconcilerProperties.

(** ** The saved-places store *)

(** C7, at an input on which the code departs from it: a result place with
    the name and latitude of a stored place, 80 degrees of longitude away, is
    taken for a duplicate: nothing is added and the count is 0. The test of
    lines 241-244 compares the name and the latitude only. *)
Theorem same_latitude_counts_as_duplicate :
  ChatInterface.saveAll [Samples.cafe] [Samples.farCafe] = ([Samples.cafe], 0, [])
  /\ (abs (lng (coordinate Samples.cafe) - lng (coordinate Samples.farCafe))
      <? 0.0001)%float = false
  /\ ChatInterface.handleSaveAllToDatabase
       (ChatInterface.mkOverlay [] [Samples.cafe] None) [Samples.farCafe]
     = ChatInterface.mkOverlay [Samples.cafe] [Samples.cafe]
         (Some (js "Locations already in database")).
Proof. repeat split. Qed.

(** C10: [removeFromDatabase] keeps, in order, exactly the saved places whose
    id differs from the given id and whose name differs from the given name;
    so no saved place with the given name stays, whatever its id and
    coordinate. The same list is written to the store and handed to
    [onDatabaseViewChange]. *)
Theorem removeFromDatabase_drops_id_or_name :
  forall (st : ChatInterface.OverlayState) (placeId placeName : jsstring),
    let updated :=
      ChatInterface.savedPlaces
        (fst (ChatInterface.removeFromDatabase st placeId placeName)) in
    (forall p, In p updated
               <-> In p (ChatInterface.savedPlaces st)
                   /\ id p <> placeId /\ name p <> placeName)
    /\ updated
       = filter (fun p => negb (jsstring_eqb (id p) placeId)
                          && negb (jsstring_eqb (name p) placeName))
                (ChatInterface.savedPlaces st)
    /\ (forall p, In p (ChatInterface.savedPlaces st) ->
                  name p = placeName -> ~ In p updated)
    /\ ChatInterface.storage
         (fst (ChatInterface.removeFromDatabase st placeId placeName)) = updated
    /\ snd (ChatInterface.removeFromDatabase st placeId placeName) = (true, updated).
Proof.
  intros st placeId placeName updated. subst updated.
  cbn [ChatInterface.removeFromDatabase fst snd ChatInterface.savedPlaces
       ChatInterface.storage].
  assert (Hiff : forall p,
    In p (filter (fun p => negb (jsstring_eqb (id p) placeId)
                           && negb (jsstring_eqb (name p) placeName))
                 (ChatInterface.savedPlaces st))
    <-> In p (ChatInterface.savedPlaces st) /\ id p <> placeId /\ name p <> placeName).
  { intros p. rewrite filter_In, andb_true_iff, !negb_true_iff, !jsstring_eqb_neq.
    tauto. }
  split; [exact Hiff|]. split; [reflexivity|]. split; [|split; reflexivity].
  intros p Hin Hname Hkept. apply Hiff in Hkept. tauto.
Qed.

(** ** The session *)

(** C2, as the code has it: after a query whose transport call fails, the
    summary is the fixed message, the session is no longer busy and the
    viewport is the one before the query; the places and sources are empty,
    as the dispatch of the query left them, not those published before. *)
Theorem failed_search_shows_message_and_no_places :
  forall (s : App.AppState) (query : jsstring),
    let s' := App.run s [App.Search query; App.Rejected] in
    App.summary s' = js "Sorry, I couldn't find that place. Please try again."
    /\ App.isLoading s' = false
    /\ App.mapCenter s' = App.mapCenter s
    /\ App.mapZoom s' = App.mapZoom s
    /\ App.places s' = []
    /\ App.sources s' = [].
Proof. intros s query. repeat split. Qed.

(** C2 fails as stated: a session that shows one place and one source shows
    none after a failed query. *)
Lemma failed_search_wipes_previous_result :
  App.places (App.run Samples.session [App.Search (js "cafes"); App.Rejected])
  <> App.places Samples.session
  /\ App.sources (App.run Samples.session [App.Search (js "cafes"); App.Rejected])
     <> App.sources Samples.session.
Proof. split; discriminate. Qed.

(** C3, as the code has it: every completion publishes its result, whatever
    was submitted or completed before; of two queries in flight, the one whose
    transport call resolves last is the one published. No generation counter
    is kept. *)
Theorem last_completion_is_published :
  forall (s : App.AppState) (events : list App.Event)
         (response : GeminiService.GeminiResult),
    App.published (App.run s (events ++ [App.Resolved response]))
    = (GeminiService.places response, GeminiService.text response,
       GeminiService.sources response).
Proof.
  intros s events response. unfold App.run. rewrite fold_left_app. reflexivity.
Qed.

(** C3 fails as stated: query B is submitted before query A resolves, B
    resolves, then A: the published result is A's, not B's. *)
Lemma stale_completion_is_published :
  App.published
    (App.run Samples.session
       [App.Search (js "A"); App.Search (js "B");
        App.Resolved Samples.resultB; App.Resolved Samples.resultA])
  = (GeminiService.places Samples.resultA, GeminiService.text Samples.resultA,
     GeminiService.sources Samples.resultA)
  /\ GeminiService.places Samples.resultA <> GeminiService.places Samples.resultB.
Proof. split; [reflexivity|discriminate]. Qed.

(** C9: [handleMapMove] sets the map center and zoom to the reported ones and
    also stores the reported center as the user location, leaving the rest of
    the state as it was; the next query is sent with that center as its
    location. *)
Theorem handleMapMove_overwrites_userLocation :
  forall (s : App.AppState) (newCenter : LatLng) (newZoom : float),
    let s' := App.handleMapMove s newCenter newZoom in
    App.mapCenter s' = newCenter
    /\ App.mapZoom s' = newZoom
    /\ App.userLocation s' = Some newCenter
    /\ (App.places s', App.summary s', App.sources s', App.isLoading s')
       = (App.places s, App.summary s, App.sources s, App.isLoading s)
    /\ (App.selectedPlaceId s', App.previousViewState s', App.searchResultsBackup s')
       = (App.selectedPlaceId s, App.previousViewState s, App.searchResultsBackup s)
    /\ forall query,
         snd (App.handleSearch_dispatch s' query)
         = GeminiService.buildRequest query (Some newCenter).
Proof. intros s newCenter newZoom. repeat split. Qed.

(* ================================================================== *)
(** * Further properties of the code *)
(* ================================================================== *)

(** ** The pattern: what a match consumes *)

Section PatternProperties.

Import Regex MatcherFacts MatcherSemantics GeminiService.

Lemma Step_refl parens x : Step parens x x [].
Proof. split; cbn; auto. Qed.

Lemma Step_trans p1 p2 parens x y z pre1 pre2 :
  (forall i, In i p1 -> In i parens) -> (forall i, In i p2 -> In i parens) ->
  Step p1 x y pre1 -> Step p2 y z pre2 -> Step parens x z (pre1 ++ pre2).
Proof.
  intros H1 H2 [Hr Hi Hk] [Hr' Hi' Hk']. split.
  - rewrite Hr, Hr', app_assoc. reflexivity.
  - rewrite Hi', Hi, length_app. lia.
  - intros i Hin. rewrite Hk', Hk; auto.
Qed.

Lemma Step_clear parens x y pre :
  Step parens (clearCaptures parens x) y pre -> Step parens x y pre.
Proof.
  intros [Hr Hi Hk]. split; auto.
  intros i Hin. rewrite Hk by exact Hin. apply clearCaptures_kept; exact Hin.
Qed.

Section RepeatSound.
Variable m : MatchState -> Continuation -> option MatchState.
Variable parens : list nat.
Variable lang : jsstring -> Prop.
Hypothesis m_sound : forall x c z, m x c = Some z ->
  exists y pre, c y = Some z /\ Step parens x y pre /\ lang pre.

Lemma repeatMatcher_sound fuel : forall min max greedy x c z,
  repeatMatcher m parens fuel min max greedy x c = Some z ->
  exists y pieces, c y = Some z /\ Step parens x y (List.concat pieces)
                   /\ Forall lang pieces /\ repeats min max (List.length pieces).
Proof.
  induction fuel as [|fuel IH]; intros min max greedy x c z H.
  - destruct max as [[|n]|]; cbn in H; try discriminate.
    exists x, []. split; [exact H|]. split; [apply Step_refl|]. split; [constructor|].
    cbn. lia.
  - assert (Hstop : c x = Some z -> repeats min max 0 ->
        exists y pieces, c y = Some z /\ Step parens x y (List.concat pieces)
                         /\ Forall lang pieces /\ repeats min max (List.length pieces)).
    { intros Hc Hn. exists x, []. split; [exact Hc|]. split; [apply Step_refl|].
      split; [constructor|exact Hn]. }
    assert (Hiter : max <> Some 0 ->
        m (clearCaptures parens x)
          (fun y => if (min =? 0) && (endIndex y =? endIndex x) then None
                    else repeatMatcher m parens fuel (pred min) (option_map pred max) greedy y c)
          = Some z ->
        exists y pieces, c y = Some z /\ Step parens x y (List.concat pieces)
                         /\ Forall lang pieces /\ repeats min max (List.length pieces)).
    { intros Hmax Hm. apply m_sound in Hm. destruct Hm as (y & pre & Hd & Hs & Hl).
      destruct ((min =? 0) && (endIndex y =? endIndex x)); [discriminate|].
      apply IH in Hd. destruct Hd as (y' & pieces & Hc & Hs' & Hall & Hn).
      exists y', (pre :: pieces). split; [exact Hc|]. split; [|split; [constructor; assumption|]].
      - cbn [List.concat]. apply Step_clear in Hs.
        eapply Step_trans; [| |exact Hs|exact Hs']; auto.
      - cbn [List.length]. unfold repeats in *.
        destruct max as [[|k]|]; cbn [option_map pred] in Hn; [congruence| |];
          destruct min; cbn [pred] in Hn; lia. }
    cbn [repeatMatcher] in H.
    destruct max as [[|n]|].
    + apply Hstop; [exact H|]. cbn. lia.
    + destruct (min =? 0) eqn:Hmin; cbn [negb] in H; [|apply Hiter; [discriminate|exact H]].
      apply Nat.eqb_eq in Hmin. subst min.
      destruct (negb greedy); apply orElse_Some in H; destruct H as [H|H];
        first [apply Hiter; [discriminate|exact H] | apply Hstop; [exact H|cbn; lia]].
    + destruct (min =? 0) eqn:Hmin; cbn [negb] in H; [|apply Hiter; [discriminate|exact H]].
      apply Nat.eqb_eq in Hmin. subst min.
      destruct (negb greedy); apply orElse_Some in H; destruct H as [H|H];
        first [apply Hiter; [discriminate|exact H] | apply Hstop; [exact H|cbn; lia]].
Qed.
End RepeatSound.

Lemma matcher_sound r : forall x c z,
  matcher r x c = Some z ->
  exists y pre, c y = Some z /\ Step (groupsOf r) x y pre /\ matched r pre.
Proof.
  induction r as [ | pc | p | | r1 IH1 r2 IH2 | r1 IH1 r2 IH2 | r' IH min max greedy | g r' IH ];
    intros x c z H; cbn [matcher] in H.
  - exists x, []. split; [exact H|]. split; [apply Step_refl|reflexivity].
  - destruct (rest x) as [|ch t] eqn:Hr; [discriminate|].
    destruct (canonicalize ch =? canonicalize pc)%N eqn:Hc; [|discriminate].
    apply N.eqb_eq in Hc.
    eexists _, [ch]. split; [exact H|]. split; [split; cbn; auto; lia|].
    exists ch. auto.
  - destruct (rest x) as [|ch t] eqn:Hr; [discriminate|].
    destruct (p ch) eqn:Hp; [|discriminate].
    eexists _, [ch]. split; [exact H|]. split; [split; cbn; auto; lia|].
    exists ch. auto.
  - destruct (endIndex x =? 0); [|discriminate].
    exists x, []. split; [exact H|]. split; [apply Step_refl|reflexivity].
  - apply IH1 in H. destruct H as (y & pre & H & Hs & Hm).
    apply IH2 in H. destruct H as (y' & pre' & H & Hs' & Hm').
    exists y', (pre ++ pre'). split; [exact H|]. split.
    + eapply Step_trans; [| |exact Hs|exact Hs']; cbn [groupsOf];
        intros i Hi; apply in_or_app; auto.
    + cbn [matched]. eauto.
  - apply orElse_Some in H. destruct H as [H|H].
    + apply IH1 in H. destruct H as (y & pre & H & [Hr Hi Hk] & Hm).
      exists y, pre. split; [exact H|]. split; [|left; exact Hm].
      split; auto. intros i Hin. apply Hk. intros Hx. apply Hin. cbn. apply in_or_app; auto.
    + apply IH2 in H. destruct H as (y & pre & H & [Hr Hi Hk] & Hm).
      exists y, pre. split; [exact H|]. split; [|right; exact Hm].
      split; auto. intros i Hin. apply Hk. intros Hx. apply Hin. cbn. apply in_or_app; auto.
  - apply (repeatMatcher_sound _ _ (matched r') IH) in H.
    destruct H as (y & pieces & H & Hs & Hall & Hn).
    exists y, (List.concat pieces). split; [exact H|]. split; [exact Hs|].
    cbn [matched]. eauto.
  - apply IH in H. destruct H as (y & pre & H & [Hr Hi Hk] & Hm).
    eexists _, pre. split; [exact H|]. split; [|exact Hm].
    split; cbn [rest endIndex captures]; auto.
    intros i Hin. cbn [groupsOf] in Hin.
    rewrite getCapture_set_other; [apply Hk|]; intros Hx; apply Hin; cbn; auto.
Qed.

(** What a capturing group hands on: the state with the group set to what
    the group consumed. *)
Lemma matcher_group_sound g r x c z :
  g <> 0 ->
  matcher (Group g r) x c = Some z ->
  exists y pre, c y = Some z /\ Step (g :: groupsOf r) x y pre /\ matched r pre
                /\ getCapture g (captures y) = Some pre.
Proof.
  intros Hg H. cbn [matcher] in H. apply matcher_sound in H.
  destruct H as (y & pre & H & [Hr Hi Hk] & Hm).
  eexists _, pre. split; [exact H|]. split; [|split; [exact Hm|]].
  - split; cbn [rest endIndex captures]; auto.
    intros i Hin. rewrite getCapture_set_other; [apply Hk|]; intros Hx; apply Hin; cbn; auto.
  - cbn [captures]. rewrite getCapture_set_same by exact Hg.
    rewrite Hi, Hr. replace (endIndex x + List.length pre - endIndex x) with (List.length pre) by lia.
    rewrite firstn_app, Nat.sub_diag, firstn_all. cbn. rewrite app_nil_r. reflexivity.
Qed.

Lemma orElse_not_None a b : orElse a b <> None <-> (a <> None \/ b tt <> None).
Proof.
  destruct a; cbn; split; intros H.
  - left. discriminate.
  - discriminate.
  - right. exact H.
  - destruct H as [H|H]; [congruence|exact H].
Qed.

Lemma samePlace_clear parens x x' :
  samePlace x x' -> samePlace (clearCaptures parens x) (clearCaptures parens x').
Proof. intros [Hi Hr]. split; cbn; assumption. Qed.

Section RepeatPlace.
Variable m : MatchState -> Continuation -> option MatchState.
Variable parens : list nat.
Hypothesis m_place : forall x x' c c',
  samePlace x x' -> placeOnly c c' -> m x c <> None -> m x' c' <> None.

Lemma repeatMatcher_place fuel : forall min max greedy x x' c c',
  samePlace x x' -> placeOnly c c' ->
  repeatMatcher m parens fuel min max greedy x c <> None ->
  repeatMatcher m parens fuel min max greedy x' c' <> None.
Proof.
  induction fuel as [|fuel IH]; intros min max greedy x x' c c' Hx Hc H.
  - destruct max as [[|n]|]; cbn in *; try congruence. exact (Hc _ _ Hx H).
  - assert (Hd : placeOnly
        (fun y => if (min =? 0) && (endIndex y =? endIndex x) then None
                  else repeatMatcher m parens fuel (pred min) (option_map pred max) greedy y c)
        (fun y => if (min =? 0) && (endIndex y =? endIndex x') then None
                  else repeatMatcher m parens fuel (pred min) (option_map pred max) greedy y c')).
    { intros y y' Hy. destruct Hx as [Hxi _]. destruct Hy as [Hyi Hyr].
      rewrite <- Hxi, <- Hyi.
      destruct ((min =? 0) && (endIndex y =? endIndex x)); [congruence|].
      apply IH; [split; assumption|exact Hc]. }
    pose proof (samePlace_clear parens _ _ Hx) as Hxr.
    cbn [repeatMatcher] in *.
    destruct max as [[|n]|]; [exact (Hc _ _ Hx H)| |];
      (destruct (negb (min =? 0)); [exact (m_place _ _ _ _ Hxr Hd H)|];
       destruct (negb greedy); rewrite orElse_not_None in *;
       (destruct H as [H|H]; [left|right];
        first [exact (Hc _ _ Hx H) | exact (m_place _ _ _ _ Hxr Hd H)])).
Qed.
End RepeatPlace.

Lemma matcher_place r : forall x x' c c',
  samePlace x x' -> placeOnly c c' -> matcher r x c <> None -> matcher r x' c' <> None.
Proof.
  induction r as [ | pc | p | | r1 IH1 r2 IH2 | r1 IH1 r2 IH2 | r' IH min max greedy | g r' IH ];
    intros x x' c c' Hx Hc H; cbn [matcher] in *.
  - eapply Hc; eauto.
  - destruct Hx as [Hi Hr]. rewrite <- Hr, <- Hi.
    destruct (rest x) as [|ch t]; [congruence|].
    destruct (canonicalize ch =? canonicalize pc)%N; [|congruence].
    eapply Hc; [|exact H]. split; reflexivity.
  - destruct Hx as [Hi Hr]. rewrite <- Hr, <- Hi.
    destruct (rest x) as [|ch t]; [congruence|].
    destruct (p ch); [|congruence].
    eapply Hc; [|exact H]. split; reflexivity.
  - destruct Hx as [Hi Hr]. rewrite <- Hi.
    destruct (endIndex x =? 0); [|congruence]. eapply Hc; [|exact H]. split; assumption.
  - eapply IH1; [exact Hx| |exact H].
    intros y y' Hy Hm. eapply IH2; eauto.
  - rewrite orElse_not_None in *. destruct H as [H|H]; [left|right]; eauto.
  - destruct Hx as [Hi Hr]. rewrite <- Hr.
    exact (repeatMatcher_place _ _ IH _ _ _ _ x x' c c' (conj Hi Hr) Hc H).
  - eapply IH; [exact Hx| |exact H].
    intros y y' [Hyi Hyr] Hm. destruct Hx as [Hi Hr].
    eapply Hc; [|exact Hm]. split; cbn; assumption.
Qed.

(** [.*?] reaches every place that lies a run of non-terminators ahead: if
    the continuation succeeds there, the lazy star succeeds. *)
Lemma lazyStar_dot_complete pre : forall fuel x c rv,
  List.length pre < fuel ->
  rest x = pre ++ rv -> Forall notLineTerminator pre ->
  c (mkState (endIndex x + List.length pre) rv (captures x)) <> None ->
  repeatMatcher (matcher dot) [] fuel 0 None false x c <> None.
Proof.
  induction pre as [|ch pre IH]; intros fuel x c rv Hfuel Hr Hall Hc;
    (destruct fuel as [|fuel]; [cbn in Hfuel; lia|]);
    cbn [repeatMatcher Nat.eqb negb]; rewrite orElse_not_None.
  - left. cbn in Hr, Hc. rewrite Nat.add_0_r, <- Hr in Hc. destruct x; exact Hc.
  - right. inversion Hall as [|? ? Hch Hpre]; subst.
    unfold dot at 1. cbn [matcher clearCaptures rest fold_left endIndex captures].
    rewrite Hr. cbn [app]. unfold notLineTerminator in Hch. rewrite Hch. cbn [negb andb].
    replace (S (endIndex x) =? endIndex x) with false by (symmetry; apply Nat.eqb_neq; lia).
    cbn [pred option_map].
    apply (IH fuel _ c rv); cbn [rest endIndex captures List.length] in *; auto; try lia.
    replace (S (endIndex x) + List.length pre) with (endIndex x + S (List.length pre)) by lia.
    exact Hc.
Qed.

Lemma coordinateRegex_parts :
  coordinateRegex
  = Seq anchorRegex (Seq boldRegex (Seq (Group 1 (lazyStar dot)) afterNameRegex)).
Proof. reflexivity. Qed.

Lemma canonical_star_notLineTerminator c0 :
  canonicalize c0 = canonicalize (ch "*") -> notLineTerminator c0.
Proof.
  unfold notLineTerminator, isLineTerminator. intros H.
  destruct (N.eqb_spec c0 10) as [->|_]; [discriminate H|].
  destruct (N.eqb_spec c0 13) as [->|_]; [discriminate H|].
  destruct (N.eqb_spec c0 8232) as [->|_]; [discriminate H|].
  destruct (N.eqb_spec c0 8233) as [->|_]; [discriminate H|].
  reflexivity.
Qed.

Lemma matched_bold_notLineTerminator s :
  matched boldRegex s -> Forall notLineTerminator s.
Proof.
  intros (pieces & -> & Hall & _). induction Hall as [|p ps Hp _ IH]; [constructor|].
  cbn [List.concat]. apply Forall_app. split; [|exact IH].
  destruct Hp as (s1 & s2 & -> & (c1 & -> & H1) & (c2 & -> & H2)).
  repeat constructor; apply canonical_star_notLineTerminator; assumption.
Qed.

Lemma matched_dots_notLineTerminator s :
  matched (lazyStar dot) s -> Forall notLineTerminator s.
Proof.
  intros (pieces & -> & Hall & _). induction Hall as [|p ps Hp _ IH]; [constructor|].
  cbn [List.concat]. apply Forall_app. split; [|exact IH].
  destruct Hp as (c1 & -> & H1). repeat constructor.
  unfold notLineTerminator. apply negb_true_iff. exact H1.
Qed.

(** Group 1 of the coordinate pattern matches the empty string in every
    match: what follows it reaches as far as the group could. *)
Lemma coordinateRegex_group1_empty x z :
  matcher coordinateRegex x Some = Some z -> getCapture 1 (captures z) = Some [].
Proof.
  rewrite coordinateRegex_parts. cbn [matcher]. intros H.
  apply matcher_sound in H. destruct H as (y1 & pre1 & H & _ & _).
  apply matcher_sound in H. destruct H as (y2 & pre2 & H & _ & _).
  remember (fun y : MatchState =>
              matcher afterNameRegex
                (mkState (endIndex y) (rest y)
                   (setCapture 1 (Some (firstn (endIndex y - endIndex y2) (rest y2)))
                               (captures y))) Some) as K eqn:HK.
  change (repeatMatcher (matcher dot) [] (S (List.length (rest y2))) 0 None false y2 K
          = Some z) in H.
  assert (Hfirst : K y2 <> None).
  { pose proof H as H'.
    apply (repeatMatcher_sound _ _ (matched dot) (matcher_sound dot)) in H'.
    destruct H' as (y & pieces & Hy & [Hr Hi _] & Hall & Hn).
    rewrite HK in Hy. unfold afterNameRegex in Hy. cbn [matcher] in Hy.
    apply matcher_sound in Hy. destruct Hy as (u & pO & Hu & [HrO HiO _] & HmO).
    apply matcher_sound in Hu. destruct Hu as (v & pL & Hv & [HrL HiL _] & HmL).
    cbn [rest endIndex] in HrO, HiO.
    rewrite HK. unfold afterNameRegex. cbn [matcher].
    unfold boldRegex at 1, opt. cbn [matcher repeatMatcher Nat.eqb negb].
    rewrite orElse_not_None. right.
    unfold lazyStar at 1. cbn [matcher].
    apply (lazyStar_dot_complete (List.concat pieces ++ pO ++ pL) _ _ _ (rest v)).
    - cbn [rest]. rewrite Hr, HrO, HrL, !length_app. cbn. lia.
    - cbn [rest]. rewrite Hr, HrO, HrL, <- !app_assoc. reflexivity.
    - apply Forall_app. split; [|apply Forall_app; split].
      + assert (Hd : matched (lazyStar dot) (List.concat pieces))
          by (exists pieces; auto).
        apply matched_dots_notLineTerminator; exact Hd.
      + apply matched_bold_notLineTerminator; exact HmO.
      + apply matched_dots_notLineTerminator; exact HmL.
    - apply (matcher_place annotationRegex v _ Some Some).
      + split; cbn [endIndex rest]; [|reflexivity].
        rewrite HiL, HiO, Hi, !length_app. lia.
      + intros a b _ _. discriminate.
      + rewrite Hv. discriminate. }
  cbn [repeatMatcher Nat.eqb negb] in H.
  destruct (K y2) as [z0|] eqn:Hz0; [|congruence]. cbn [orElse] in H.
  injection H as ->. rewrite HK in Hz0.
  apply matcher_sound in Hz0. destruct Hz0 as (z' & pre & Hz' & [_ _ Hk] & _).
  injection Hz' as ->. rewrite Hk.
  - cbn [captures]. rewrite getCapture_set_same by discriminate.
    rewrite Nat.sub_diag. reflexivity.
  - vm_compute. intuition discriminate.
Qed.

Lemma matcher_Seq r1 r2 x c :
  matcher (Seq r1 r2) x c = matcher r1 x (fun y => matcher r2 y c).
Proof. reflexivity. Qed.

Lemma canonicalize_below_letters c0 p :
  (p < 65)%N -> canonicalize c0 = canonicalize p -> c0 = p.
Proof.
  unfold canonicalize. intros Hp.
  destruct ((97 <=? p) && (p <=? 122))%N eqn:Hpc.
  - apply andb_true_iff in Hpc. destruct Hpc as [H1 _]. apply N.leb_le in H1. lia.
  - destruct ((97 <=? c0) && (c0 <=? 122))%N eqn:Hc; [|auto].
    apply andb_true_iff in Hc. destruct Hc as [H1 H2].
    apply N.leb_le in H1, H2. lia.
Qed.

Lemma matched_punct p s :
  (p < 65)%N -> matched (Char p) s -> s = [p].
Proof.
  intros Hp (c0 & -> & Hc). apply canonicalize_below_letters in Hc; [|exact Hp].
  subst. reflexivity.
Qed.

Lemma matched_lit p : forall s, matched (lit p) s -> foldsTo s p.
Proof.
  unfold foldsTo. induction p as [|c [|c' t] IH]; intros s H.
  - cbn in H. subst. reflexivity.
  - destruct H as (c0 & -> & Hc). cbn. congruence.
  - destruct H as (s1 & s2 & -> & (c0 & -> & Hc) & H2).
    apply IH in H2. cbn [app map] in *. congruence.
Qed.

Lemma matched_class_star p min max greedy s :
  matched (Quant (Class p) min max greedy) s ->
  Forall (fun c => p c = true) s /\ repeats min max (List.length s).
Proof.
  intros (pieces & -> & Hall & Hn).
  assert (H : Forall (fun c => p c = true) (List.concat pieces)
              /\ List.length (List.concat pieces) = List.length pieces).
  { clear Hn. induction Hall as [|q qs (c0 & -> & Hc) _ [IH1 IH2]]; [split; [constructor|reflexivity]|].
    cbn. split; [constructor; assumption|congruence]. }
  destruct H as [H1 H2]. rewrite H2. split; assumption.
Qed.

Lemma matched_opt r s :
  matched (opt r) s -> s = [] \/ matched r s.
Proof.
  intros (pieces & -> & Hall & Hn). cbn in Hn. destruct Hn as [Hn _].
  destruct pieces as [|q [|q' qs]]; cbn in Hn; try lia.
  - left. reflexivity.
  - right. cbn. rewrite app_nil_r. inversion Hall; assumption.
Qed.

Lemma matched_digits s : matched (plus digit) s -> s <> [] /\ allDigits s.
Proof.
  intros H. apply matched_class_star in H. destruct H as [Hd Hn]. cbn in Hn.
  split; [|exact Hd]. intros ->. cbn in Hn. lia.
Qed.

Lemma matched_spaces s : matched (star space) s -> allWhiteSpace s.
Proof. intros H. apply matched_class_star in H. apply H. Qed.

Lemma matched_number g s : matched (numberGroup g) s -> isNumberText s.
Proof.
  intros (sign & s' & -> & Hsign & (int & frac & -> & Hint & Hfrac)).
  exists sign, int, frac. split; [reflexivity|].
  apply matched_digits in Hint. destruct Hint as [Hne Hd].
  split; [|split; [exact Hne|split; [exact Hd|]]].
  - apply matched_opt in Hsign. destruct Hsign as [->|Hs]; [left; reflexivity|right].
    apply matched_punct in Hs; [exact Hs|reflexivity].
  - apply matched_opt in Hfrac. destruct Hfrac as [->|Hf]; [left; reflexivity|right].
    destruct Hf as (d & f & -> & Hd' & Hf).
    apply matched_punct in Hd'; [|reflexivity]. subst d.
    apply matched_digits in Hf. destruct Hf as [Hfne Hfd]. exists f. auto.
Qed.

Lemma matched_label a b s :
  matched (Alt (lit a) (lit b)) s -> foldsTo s a \/ foldsTo s b.
Proof. intros [H|H]; [left|right]; apply matched_lit; exact H. Qed.

(** A match of the annotation part consumes an annotation and leaves its two
    number texts in groups 2 and 4. *)
Lemma annotation_sound x z :
  matcher annotationRegex x Some = Some z ->
  exists s a b,
    rest x = s ++ rest z /\ endIndex z = endIndex x + List.length s
    /\ isAnnotation s a b
    /\ getCapture 2 (captures z) = Some a /\ getCapture 4 (captures z) = Some b
    /\ getCapture 1 (captures z) = getCapture 1 (captures x).
Proof.
  unfold annotationRegex. cbn [seqs]. intros H.
  rewrite matcher_Seq in H. apply matcher_sound in H.
  destruct H as (y1 & p1 & H & [R1 I1 K1] & M1).
  rewrite matcher_Seq in H. apply matcher_sound in H.
  destruct H as (y2 & l1 & H & [R2 I2 K2] & M2).
  rewrite matcher_Seq in H. apply matcher_sound in H.
  destruct H as (y3 & w1 & H & [R3 I3 K3] & M3).
  rewrite matcher_Seq in H. unfold numberGroup at 1 in H.
  apply matcher_group_sound in H; [|discriminate].
  destruct H as (y4 & a & H & [R4 I4 K4] & M4 & C4).
  rewrite matcher_Seq in H. apply matcher_sound in H.
  destruct H as (y5 & p5 & H & [R5 I5 K5] & M5).
  rewrite matcher_Seq in H. apply matcher_sound in H.
  destruct H as (y6 & w2 & H & [R6 I6 K6] & M6).
  rewrite matcher_Seq in H. apply matcher_sound in H.
  destruct H as (y7 & l2 & H & [R7 I7 K7] & M7).
  rewrite matcher_Seq in H. apply matcher_sound in H.
  destruct H as (y8 & w3 & H & [R8 I8 K8] & M8).
  rewrite matcher_Seq in H. unfold numberGroup at 1 in H.
  apply matcher_group_sound in H; [|discriminate].
  destruct H as (y9 & b & H & [R9 I9 K9] & M9 & C9).
  apply matcher_sound in H.
  destruct H as (y10 & p10 & H & [R10 I10 K10] & M10).
  injection H as ->.
  apply matched_punct in M1; [|reflexivity].
  apply matched_punct in M5; [|reflexivity].
  apply matched_punct in M10; [|reflexivity].
  subst p1 p5 p10.
  exists (js "(" ++ l1 ++ w1 ++ a ++ js "," ++ w2 ++ l2 ++ w3 ++ b ++ js ")"), a, b.
  split; [|split; [|split; [|split; [|split]]]].
  - rewrite R1, R2, R3, R4, R5, R6, R7, R8, R9, R10.
    rewrite <- !app_assoc. reflexivity.
  - rewrite I10, I9, I8, I7, I6, I5, I4, I3, I2, I1, !length_app. cbn [List.length js map
      list_ascii_of_string]. lia.
  - exists l1, w1, w2, l2, w3. split; [reflexivity|].
    split; [apply matched_label; exact M2|].
    split; [apply matched_label; exact M7|].
    split; [apply matched_spaces; exact M3|].
    split; [apply matched_spaces; exact M6|].
    split; [apply matched_spaces; exact M8|].
    split; [apply (matched_number 2); exact M4|apply (matched_number 4); exact M9].
  - rewrite K10, K9, K8, K7, K6, K5; [exact C4| | | | | |];
      cbn; intuition discriminate.
  - rewrite K10; [exact C9|]. cbn; intuition discriminate.
  - rewrite K10, K9, K8, K7, K6, K5, K4, K3, K2, K1; [reflexivity| | | | | | | | | |];
      cbn; intuition discriminate.
Qed.

(** Every match of the coordinate pattern ends with an annotation; groups 2
    and 4 hold its number texts and group 1 is empty. *)
Lemma coordinateRegex_sound x z :
  matcher coordinateRegex x Some = Some z ->
  exists before s a b,
    rest x = before ++ s ++ rest z
    /\ endIndex z = endIndex x + List.length (before ++ s)
    /\ isAnnotation s a b
    /\ getCapture 1 (captures z) = Some []
    /\ getCapture 2 (captures z) = Some a /\ getCapture 4 (captures z) = Some b.
Proof.
  intros H. pose proof (coordinateRegex_group1_empty _ _ H) as H1.
  rewrite coordinateRegex_parts in H. unfold afterNameRegex in H.
  rewrite matcher_Seq in H. apply matcher_sound in H.
  destruct H as (y1 & p1 & H & [R1 I1 _] & _).
  rewrite matcher_Seq in H. apply matcher_sound in H.
  destruct H as (y2 & p2 & H & [R2 I2 _] & _).
  rewrite matcher_Seq in H. apply matcher_sound in H.
  destruct H as (y3 & p3 & H & [R3 I3 _] & _).
  rewrite matcher_Seq in H. apply matcher_sound in H.
  destruct H as (y4 & p4 & H & [R4 I4 _] & _).
  rewrite matcher_Seq in H. apply matcher_sound in H.
  destruct H as (y5 & p5 & H & [R5 I5 _] & _).
  apply annotation_sound in H.
  destruct H as (s & a & b & R & I & Hs & C2 & C4 & _).
  exists (p1 ++ p2 ++ p3 ++ p4 ++ p5), s, a, b.
  split; [|split; [|auto]].
  - rewrite R1, R2, R3, R4, R5, R, <- !app_assoc. reflexivity.
  - rewrite I, I5, I4, I3, I2, I1, !length_app. lia.
Qed.

Lemma skipn_length_app (A : Type) (l r : list A) :
  skipn (List.length l) (l ++ r) = r.
Proof. induction l as [|a l IH]; [reflexivity|exact IH]. Qed.

Lemma search_from r : forall s i y,
  search r s i = Some y ->
  exists k, k <= List.length s
            /\ matcher r (mkState (i + k) (skipn k s) (noCaptures r)) Some = Some y.
Proof.
  induction s as [|c0 s IH]; intros i y H; cbn [search] in H.
  - destruct (matcher r (mkState i [] (noCaptures r)) Some) eqn:Hm; [|discriminate].
    injection H as ->. exists 0. rewrite Nat.add_0_r. split; [cbn; lia|exact Hm].
  - destruct (matcher r (mkState i (c0 :: s) (noCaptures r)) Some) eqn:Hm.
    + injection H as ->. exists 0. rewrite Nat.add_0_r. split; [cbn; lia|exact Hm].
    + apply IH in H. destruct H as (k & Hk & H). exists (S k).
      replace (i + S k) with (S i + k) by lia. split; [cbn; lia|exact H].
Qed.

(** What [exec] finds: an annotation of the text that ends at the new
    [lastIndex] and starts at or after the old one. *)
Lemma exec_sound text lastIndex m lastIndex' :
  exec coordinateRegex text lastIndex = (Some m, lastIndex') ->
  exists before s a b,
    text = before ++ s ++ skipn lastIndex' text
    /\ lastIndex <= List.length before
    /\ lastIndex' = List.length (before ++ s)
    /\ isAnnotation s a b
    /\ getCapture 1 m = Some []
    /\ getCapture 2 m = Some a /\ getCapture 4 m = Some b.
Proof.
  unfold exec. destruct (List.length text <? lastIndex) eqn:Hlt; [discriminate|].
  apply Nat.ltb_ge in Hlt.
  destruct (search coordinateRegex (skipn lastIndex text) lastIndex) as [y|] eqn:Hs;
    [|discriminate].
  intros H. injection H as <- <-. apply search_from in Hs.
  destruct Hs as (k & Hk & Hm). apply coordinateRegex_sound in Hm.
  destruct Hm as (before & s & a & b & R & I & Ha & C1 & C2 & C4).
  cbn [rest endIndex] in R, I. rewrite length_skipn in Hk.
  assert (Htext : text = (firstn (lastIndex + k) text ++ before) ++ s ++ rest y).
  { rewrite <- app_assoc, <- R, skipn_skipn, (Nat.add_comm k lastIndex).
    symmetry. apply firstn_skipn. }
  assert (Hlen : List.length (firstn (lastIndex + k) text) = lastIndex + k)
    by (apply firstn_length_le; lia).
  assert (Hend : endIndex y = List.length ((firstn (lastIndex + k) text ++ before) ++ s))
    by (rewrite I, !length_app, Hlen; lia).
  exists (firstn (lastIndex + k) text ++ before), s, a, b.
  split; [|split; [|split; [exact Hend|auto]]].
  - assert (Hskip : skipn (endIndex y) text = rest y).
    { rewrite Hend. transitivity
        (skipn (List.length ((firstn (lastIndex + k) text ++ before) ++ s))
               (((firstn (lastIndex + k) text ++ before) ++ s) ++ rest y)).
      - f_equal. rewrite <- app_assoc. exact Htext.
      - apply skipn_length_app. }
    rewrite Hskip. exact Htext.
  - rewrite length_app, Hlen. lia.
Qed.

End PatternProperties.

(** ** The extractor: what it returns *)

Section ExtractedPlaces.

Import Regex MatcherFacts MatcherSemantics GeminiService.

Lemma orDefault_nil a : orDefault (Some a) [] = a.
Proof. destruct a; reflexivity. Qed.

Lemma count_occ_annotation s a b :
  isAnnotation s a b -> 1 <= count_occ N.eq_dec s 40%N.
Proof.
  intros (l1 & w1 & w2 & l2 & w3 & -> & _). cbn. lia.
Qed.

(** What one more match adds to the text's count of ["("]. *)
Lemma count_occ_after_match text lastIndex lastIndex' before s a b :
  text = before ++ s ++ skipn lastIndex' text ->
  lastIndex <= List.length before ->
  isAnnotation s a b ->
  S (count_occ N.eq_dec (skipn lastIndex' text) 40%N)
  <= count_occ N.eq_dec (skipn lastIndex text) 40%N.
Proof.
  intros Htext Hle Ha. rewrite Htext at 2.
  rewrite skipn_app. replace (lastIndex - List.length before) with 0 by lia.
  cbn [skipn]. rewrite !count_occ_app.
  pose proof (count_occ_annotation _ _ _ Ha). lia.
Qed.

(** The places the loop adds: named by the placeholder, without description,
    each from an annotation of the text, with the successive random ids, and
    no more of them than the text from [lastIndex] on has ["("]. *)
Lemma parseLoop_adds toString36 mathRandom text :
  forall fuel lastIndex calls places ps,
    parseLoop toString36 mathRandom fuel text lastIndex calls places = Returns ps ->
    exists added,
      ps = places ++ added
      /\ Forall (fun p => name p = js "Unknown Location" /\ description p = None
                          /\ fromAnnotation text p) added
      /\ map id added
         = map (randomId toString36 mathRandom) (seq calls (List.length added))
      /\ List.length added <= count_occ N.eq_dec (skipn lastIndex text) 40%N.
Proof.
  induction fuel as [|fuel IH]; intros lastIndex calls places ps H;
    cbn [parseLoop] in H; [discriminate|].
  destruct (exec coordinateRegex text lastIndex) as [[m|] lastIndex'] eqn:He.
  - apply exec_sound in He.
    destruct He as (before & s & a & b & Htext & Hle & Hend & Ha & C1 & C2 & C4).
    pose proof (count_occ_after_match _ _ _ _ _ _ _ Htext Hle Ha) as Hcount.
    rewrite C1, C2, C4 in H. rewrite !orDefault_nil in H.
    assert (Hskip : forall calls' places',
      parseLoop toString36 mathRandom fuel text lastIndex' calls' places' = Returns ps ->
      calls' = calls -> places' = places ->
      exists added,
        ps = places ++ added
        /\ Forall (fun p => name p = js "Unknown Location" /\ description p = None
                            /\ fromAnnotation text p) added
        /\ map id added
           = map (randomId toString36 mathRandom) (seq calls (List.length added))
        /\ List.length added <= count_occ N.eq_dec (skipn lastIndex text) 40%N).
    { intros calls' places' H' -> ->. apply IH in H'.
      destruct H' as (added & Hps & Hall & Hid & Hn).
      exists added. repeat split; auto. lia. }
    destruct (truthy (Some a) && truthy (Some b)); [|eapply Hskip; eauto].
    destruct (negb (isNaN (parseFloat a)) && negb (isNaN (parseFloat b)));
      [|eapply Hskip; eauto].
    apply IH in H. destruct H as (added & Hps & Hall & Hid & Hn).
    exists (mkPlace (randomId toString36 mathRandom calls)
                    (cleanNameOf (trim [])) (mkLatLng (parseFloat a) (parseFloat b)) None
            :: added).
    split; [rewrite Hps, <- app_assoc; reflexivity|].
    split; [|split].
    + constructor; [|exact Hall]. cbn [name description coordinate lat lng].
      split; [reflexivity|]. split; [reflexivity|].
      exists before, s, (skipn lastIndex' text), a, b. auto.
    + cbn [List.length seq map id]. rewrite Hid. reflexivity.
    + cbn [List.length]. lia.
  - injection H as <-. exists []. rewrite app_nil_r. repeat split; auto.
    cbn. lia.
Qed.

End ExtractedPlaces.

Section ExtractorExtras.

Import GeminiService MatcherSemantics.

(** X1: on every text, every place the extractor returns is named
    "Unknown Location": group 1 of the pattern never captures anything. *)
Theorem every_place_is_named_unknown_location :
  forall (toString36 : float -> jsstring) (mathRandom : nat -> float)
         (text : jsstring),
  exists ps,
    parseCoordinatesFromText toString36 mathRandom text = Returns ps
    /\ Forall (fun p => name p = js "Unknown Location") ps.
Proof.
  intros toString36 mathRandom text.
  destruct (parseCoordinatesFromText_returns toString36 mathRandom text) as (ps & H & _).
  exists ps. split; [exact H|].
  apply parseLoop_adds in H. destruct H as (added & -> & Hall & _).
  cbn [app]. eapply Forall_impl; [|exact Hall]. intros p Hp. apply Hp.
Qed.

(** X2: on every text, the coordinate of every place the extractor returns
    is the value of the two number texts of an annotation
    [(lat: a, lng: b)] (labels [lat] or [latitude], [lng] or [longitude], in
    any case) that occurs in the text. *)
Theorem every_place_comes_from_an_annotation :
  forall (toString36 : float -> jsstring) (mathRandom : nat -> float)
         (text : jsstring),
  exists ps,
    parseCoordinatesFromText toString36 mathRandom text = Returns ps
    /\ Forall (fromAnnotation text) ps.
Proof.
  intros toString36 mathRandom text.
  destruct (parseCoordinatesFromText_returns toString36 mathRandom text) as (ps & H & _).
  exists ps. split; [exact H|].
  apply parseLoop_adds in H. destruct H as (added & -> & Hall & _).
  cbn [app]. eapply Forall_impl; [|exact Hall]. intros p Hp. apply Hp.
Qed.

(** X3: the extractor returns at most as many places as the text has opening
    parentheses; a text without one yields no place. *)
Theorem no_more_places_than_opening_parentheses :
  forall (toString36 : float -> jsstring) (mathRandom : nat -> float)
         (text : jsstring),
  exists ps,
    parseCoordinatesFromText toString36 mathRandom text = Returns ps
    /\ List.length ps <= count_occ N.eq_dec text 40%N
    /\ (~ In 40%N text -> ps = []).
Proof.
  intros toString36 mathRandom text.
  destruct (parseCoordinatesFromText_returns toString36 mathRandom text) as (ps & H & _).
  exists ps. split; [exact H|].
  apply parseLoop_adds in H. destruct H as (added & -> & _ & _ & Hn).
  cbn [app skipn] in *. split; [exact Hn|].
  intros Hno. apply (count_occ_not_In N.eq_dec) in Hno. rewrite Hno in Hn.
  destruct added; [reflexivity|cbn in Hn; lia].
Qed.

(** X4: the ids of the places returned are, in order, the ids made from the
    successive calls of [Math.random], and no place has a description. *)
Theorem ids_are_the_successive_random_draws :
  forall (toString36 : float -> jsstring) (mathRandom : nat -> float)
         (text : jsstring),
  exists ps,
    parseCoordinatesFromText toString36 mathRandom text = Returns ps
    /\ map id ps = map (randomId toString36 mathRandom) (seq 0 (List.length ps))
    /\ Forall (fun p => description p = None) ps.
Proof.
  intros toString36 mathRandom text.
  destruct (parseCoordinatesFromText_returns toString36 mathRandom text) as (ps & H & _).
  exists ps. split; [exact H|].
  apply parseLoop_adds in H. destruct H as (added & -> & Hall & Hid & _).
  cbn [app]. split; [exact Hid|].
  eapply Forall_impl; [|exact Hall]. intros p Hp. apply Hp.
Qed.

End ExtractorExtras.

(** ** The pattern: what it accepts *)

Section PatternCompleteness.

Import Regex MatcherFacts MatcherSemantics GeminiService.

(** A literal consumes a text that folds to it. *)
Lemma matcher_lit_folds p : forall l i r caps c,
  foldsTo l p ->
  matcher (lit p) (mkState i (l ++ r) caps) c = c (mkState (i + List.length l) r caps).
Proof.
  unfold foldsTo.
  induction p as [|pc p IH]; intros l i r caps c H.
  - destruct l; [|discriminate]. cbn. rewrite Nat.add_0_r. reflexivity.
  - destruct l as [|a l]; [discriminate|]. cbn [map] in H. injection H as Ha Hl.
    assert (Hstep : forall k : Continuation,
      matcher (Char pc) (mkState i ((a :: l) ++ r) caps) k
      = k (mkState (S i) (l ++ r) caps)).
    { intros k. cbn [matcher rest app endIndex captures]. rewrite Ha, N.eqb_refl.
      reflexivity. }
    destruct p as [|pc' p'].
    + destruct l; [|discriminate]. change (lit [pc]) with (Char pc). rewrite Hstep. cbn [app List.length].
      rewrite Nat.add_1_r. reflexivity.
    + change (lit (pc :: pc' :: p')) with (Seq (Char pc) (lit (pc' :: p'))).
      rewrite matcher_Seq, Hstep.
      rewrite (IH l (S i) r caps c Hl). cbn [List.length].
      rewrite Nat.add_succ_r. reflexivity.
Qed.

(** The equations of the matcher that the proofs below unfold. *)
Lemma matcher_Char_cons pc a t i caps (k : Continuation) :
  matcher (Char pc) (mkState i (a :: t) caps) k
  = if (canonicalize a =? canonicalize pc)%N then k (mkState (S i) t caps) else None.
Proof. reflexivity. Qed.

Lemma matcher_Class_cons p a t i caps (k : Continuation) :
  matcher (Class p) (mkState i (a :: t) caps) k
  = if p a then k (mkState (S i) t caps) else None.
Proof. reflexivity. Qed.

Lemma matcher_Class_nil p i caps (k : Continuation) :
  matcher (Class p) (mkState i [] caps) k = None.
Proof. reflexivity. Qed.

Lemma matcher_Quant r min max greedy x (c : Continuation) :
  matcher (Quant r min max greedy) x c
  = repeatMatcher (matcher r) (groupsOf r) (S (min + List.length (rest x)))
                  min max greedy x c.
Proof. reflexivity. Qed.

Lemma repeatMatcher_greedy m parens fuel max x (c : Continuation) :
  max <> Some 0 ->
  repeatMatcher m parens (S fuel) 0 max true x c
  = orElse (m (clearCaptures parens x)
              (fun y => if endIndex y =? endIndex x then None
                        else repeatMatcher m parens fuel 0 (option_map pred max)
                                           true y c))
           (fun _ => c x).
Proof. destruct max as [[|k]|]; [congruence| |]; reflexivity. Qed.

Lemma repeatMatcher_lazy m parens fuel x (c : Continuation) :
  repeatMatcher m parens (S fuel) 0 None false x c
  = orElse (c x)
           (fun _ => m (clearCaptures parens x)
              (fun y => if endIndex y =? endIndex x then None
                        else repeatMatcher m parens fuel 0 None false y c)).
Proof. reflexivity. Qed.

Lemma repeatMatcher_first m parens fuel x (c : Continuation) :
  repeatMatcher m parens (S fuel) 1 None true x c
  = m (clearCaptures parens x)
      (fun y => repeatMatcher m parens fuel 0 None true y c).
Proof. reflexivity. Qed.

Lemma repeatMatcher_done m parens fuel min greedy x (c : Continuation) :
  repeatMatcher m parens fuel min (Some 0) greedy x c = c x.
Proof. destruct fuel; reflexivity. Qed.

Lemma clearCaptures_nil i t caps :
  clearCaptures [] (mkState i t caps) = mkState i t caps.
Proof. reflexivity. Qed.

Lemma clearCaptures_one k i t caps :
  clearCaptures [k] (mkState i t caps) = mkState i t (setCapture k None caps).
Proof. reflexivity. Qed.

Lemma succ_eqb i : (S i =? i) = false.
Proof. apply Nat.eqb_neq. lia. Qed.

(** A greedy star of a class consumes a whole run of the class, when what
    follows is not of the class. *)
Lemma repeatMatcher_class_run (p : N -> bool) (w : jsstring) :
  Forall (fun ch => p ch = true) w ->
  forall r fuel i caps (c : Continuation) y,
    match r with [] => True | h :: _ => p h = false end ->
    List.length w < fuel ->
    c (mkState (i + List.length w) r caps) = Some y ->
    repeatMatcher (matcher (Class p)) [] fuel 0 None true
                  (mkState i (w ++ r) caps) c = Some y.
Proof.
  induction 1 as [|a w Ha _ IH]; intros r fuel i caps c y Hr Hfuel Hc;
    (destruct fuel as [|fuel]; [cbn in Hfuel; lia|]);
    rewrite repeatMatcher_greedy by discriminate; rewrite clearCaptures_nil.
  - cbn [app]. rewrite Nat.add_0_r in Hc.
    destruct r as [|h r].
    + rewrite matcher_Class_nil. exact Hc.
    + rewrite matcher_Class_cons, Hr. exact Hc.
  - cbn [app]. rewrite matcher_Class_cons, Ha. cbn [endIndex]. rewrite succ_eqb.
    cbn [option_map].
    rewrite (IH r fuel (S i) caps c y Hr); [reflexivity|cbn in Hfuel; lia|].
    cbn [List.length] in Hc. rewrite Nat.add_succ_r in Hc. exact Hc.
Qed.

Lemma matcher_star_class (p : N -> bool) (w r : jsstring) i caps (c : Continuation) y :
  Forall (fun ch => p ch = true) w ->
  match r with [] => True | h :: _ => p h = false end ->
  c (mkState (i + List.length w) r caps) = Some y ->
  matcher (star (Class p)) (mkState i (w ++ r) caps) c = Some y.
Proof.
  intros Hw Hr Hc. unfold star. rewrite matcher_Quant. cbn [groupsOf rest].
  apply repeatMatcher_class_run; auto. rewrite length_app. lia.
Qed.

Lemma matcher_plus_class (p : N -> bool) (w r : jsstring) i caps (c : Continuation) y :
  w <> [] ->
  Forall (fun ch => p ch = true) w ->
  match r with [] => True | h :: _ => p h = false end ->
  c (mkState (i + List.length w) r caps) = Some y ->
  matcher (plus (Class p)) (mkState i (w ++ r) caps) c = Some y.
Proof.
  intros Hne Hw Hr Hc. destruct w as [|a w]; [congruence|].
  inversion Hw as [|a' w' Ha Hw']; subst.
  unfold plus. rewrite matcher_Quant. cbn [groupsOf rest].
  rewrite repeatMatcher_first, clearCaptures_nil. cbn [app].
  rewrite matcher_Class_cons, Ha.
  apply repeatMatcher_class_run; auto.
  - cbn [List.length]. rewrite length_app. lia.
  - cbn [List.length] in Hc. rewrite Nat.add_succ_r in Hc. exact Hc.
Qed.

Lemma digit_facts h :
  isDigit h = true ->
  isWhiteSpace h = false /\ canonicalize h = h /\ h <> 45%N /\ h <> 46%N.
Proof.
  unfold isDigit. intros H. apply andb_true_iff in H. destruct H as [H1 H2].
  apply N.leb_le in H1, H2. split; [|split; [|split; lia]].
  - destruct (isWhiteSpace h) eqn:E; [exfalso|reflexivity].
    unfold isWhiteSpace in E.
    rewrite ?orb_true_iff, ?andb_true_iff, ?N.leb_le, ?N.eqb_eq in E. lia.
  - unfold canonicalize.
    destruct ((97 <=? h) && (h <=? 122))%N eqn:E; [|reflexivity].
    apply andb_true_iff in E. destruct E as [E _]. apply N.leb_le in E. lia.
Qed.

(** The label alternatives, on a text that folds to one of them. *)
Lemma matcher_lat_label l r i caps (c : Continuation) y :
  foldsTo l (js "lat:") \/ foldsTo l (js "latitude:") ->
  c (mkState (i + List.length l) r caps) = Some y ->
  matcher (Alt (lit (js "lat:")) (lit (js "latitude:"))) (mkState i (l ++ r) caps) c
  = Some y.
Proof.
  intros [H|H] Hc; cbn [matcher].
  - rewrite (matcher_lit_folds _ _ _ _ _ _ H), Hc. reflexivity.
  - assert (Hshort : matcher (lit (js "lat:")) (mkState i (l ++ r) caps) c = None).
    { unfold foldsTo in H.
      change (js "latitude:") with [108; 97; 116; 105; 116; 117; 100; 101; 58]%N in H.
      do 4 (destruct l as [|? l]; [discriminate H|]).
      cbn [map] in H. injection H as H1 H2 H3 H4 _.
      change (js "lat:") with [108; 97; 116; 58]%N.
      change (lit [108; 97; 116; 58]%N)
        with (Seq (Char 108) (Seq (Char 97) (Seq (Char 116) (Char 58)))).
      cbn [app]. rewrite matcher_Seq, matcher_Char_cons, H1, N.eqb_refl.
      rewrite matcher_Seq, matcher_Char_cons, H2, N.eqb_refl.
      rewrite matcher_Seq, matcher_Char_cons, H3, N.eqb_refl.
      rewrite matcher_Char_cons, H4. reflexivity. }
    rewrite Hshort. cbn [orElse].
    rewrite (matcher_lit_folds _ _ _ _ _ _ H). exact Hc.
Qed.

Lemma matcher_lng_label l r i caps (c : Continuation) y :
  foldsTo l (js "lng:") \/ foldsTo l (js "longitude:") ->
  c (mkState (i + List.length l) r caps) = Some y ->
  matcher (Alt (lit (js "lng:")) (lit (js "longitude:"))) (mkState i (l ++ r) caps) c
  = Some y.
Proof.
  intros [H|H] Hc; cbn [matcher].
  - rewrite (matcher_lit_folds _ _ _ _ _ _ H), Hc. reflexivity.
  - assert (Hshort : matcher (lit (js "lng:")) (mkState i (l ++ r) caps) c = None).
    { unfold foldsTo in H.
      change (js "longitude:") with [108; 111; 110; 103; 105; 116; 117; 100; 101; 58]%N in H.
      do 2 (destruct l as [|? l]; [discriminate H|]).
      cbn [map] in H. injection H as H1 H2 _.
      change (js "lng:") with [108; 110; 103; 58]%N.
      change (lit [108; 110; 103; 58]%N)
        with (Seq (Char 108) (Seq (Char 110) (Seq (Char 103) (Char 58)))).
      cbn [app]. rewrite matcher_Seq, matcher_Char_cons, H1, N.eqb_refl.
      rewrite matcher_Seq, matcher_Char_cons, H2. reflexivity. }
    rewrite Hshort. cbn [orElse].
    rewrite (matcher_lit_folds _ _ _ _ _ _ H). exact Hc.
Qed.

(** A label starts with a letter, which is no white space. *)
Lemma label_head l long :
  foldsTo l (108%N :: long) ->
  exists h t, l = h :: t /\ isWhiteSpace h = false.
Proof.
  unfold foldsTo. destruct l as [|h t]; [discriminate|]. cbn [map].
  intros H. injection H as H _. exists h, t. split; [reflexivity|].
  assert (Hh : h = 76%N \/ h = 108%N).
  { revert H. unfold canonicalize.
    destruct ((97 <=? h) && (h <=? 122))%N eqn:E; cbn; intros H; [right|left; exact H].
    apply andb_true_iff in E. destruct E as [E1 E2]. apply N.leb_le in E1, E2. lia. }
  destruct Hh as [-> | ->]; reflexivity.
Qed.

(** The optional sign before the digits. *)
Lemma matcher_opt_sign sign h r i caps (c : Continuation) y :
  sign = [] \/ sign = js "-" ->
  isDigit h = true ->
  c (mkState (i + List.length sign) (h :: r) caps) = Some y ->
  matcher (opt (Char (ch "-"))) (mkState i (sign ++ h :: r) caps) c = Some y.
Proof.
  intros Hsign Hh Hc. destruct (digit_facts h Hh) as (_ & Hcan & Hminus & _).
  unfold opt. rewrite matcher_Quant. cbn [groupsOf rest Nat.add].
  rewrite repeatMatcher_greedy by discriminate. rewrite clearCaptures_nil.
  destruct Hsign as [-> | ->].
  - cbn [app]. rewrite matcher_Char_cons, Hcan.
    change (canonicalize (ch "-")) with 45%N.
    destruct (N.eqb_spec h 45) as [E|_]; [congruence|]. cbn [orElse].
    cbn [app List.length] in Hc. rewrite Nat.add_0_r in Hc. exact Hc.
  - change (js "-") with [45%N] in *. cbn [app].
    rewrite matcher_Char_cons.
    change (canonicalize 45 =? canonicalize (ch "-"))%N with true. cbv iota.
    cbn [endIndex]. rewrite succ_eqb. cbn [option_map pred].
    rewrite repeatMatcher_done.
    cbn [List.length] in Hc. rewrite Nat.add_1_r in Hc. rewrite Hc. reflexivity.
Qed.


Lemma matcher_Group g r x (c : Continuation) :
  matcher (Group g r) x c
  = matcher r x (fun y =>
      c (mkState (endIndex y) (rest y)
           (setCapture g (Some (firstn (endIndex y - endIndex x) (rest x)))
                       (captures y)))).
Proof. reflexivity. Qed.

Lemma firstn_length_app (A : Type) (l l' : list A) :
  firstn (List.length l) (l ++ l') = l.
Proof. induction l as [|a l IH]; [reflexivity|]. cbn. rewrite IH. reflexivity. Qed.

(** The optional fraction, group [S g]: it takes a fraction that is there,
    and nothing before a character that is no point. *)
Lemma matcher_opt_fraction g frac h r caps :
  frac = [] \/ (exists f, frac = js "." ++ f /\ f <> [] /\ allDigits f) ->
  isDigit h = false -> h <> 46%N ->
  exists caps',
    (forall k, k <> S g -> getCapture k caps' = getCapture k caps)
    /\ forall i (c : Continuation) y,
         c (mkState (i + List.length frac) (h :: r) caps') = Some y ->
         matcher (opt (Group (S g) (Seq (Char (ch ".")) (plus digit))))
                 (mkState i (frac ++ h :: r) caps) c = Some y.
Proof.
  intros Hfrac Hh Hpoint.
  assert (Hparens :
    groupsOf (Group (S g) (Seq (Char (ch ".")) (plus digit))) = [S g])
    by reflexivity.
  destruct Hfrac as [-> | (f & -> & Hne & Hf)].
  - exists caps. split; [reflexivity|]. intros i c y Hc.
    unfold opt. rewrite matcher_Quant, Hparens.
    rewrite repeatMatcher_greedy by discriminate. rewrite matcher_Group.
    cbn [app endIndex rest captures]. rewrite clearCaptures_one.
    rewrite matcher_Seq, matcher_Char_cons.
    destruct (N.eqb_spec (canonicalize h) (canonicalize (ch "."))) as [E|_].
    + apply canonicalize_below_letters in E; [|reflexivity].
      change (ch ".") with 46%N in E. congruence.
    + cbn [orElse]. cbn [List.length] in Hc. rewrite Nat.add_0_r in Hc. exact Hc.
  - change (js ".") with [46%N] in *. cbn [app List.length].
    exists (setCapture (S g) (Some (46%N :: f)) (setCapture (S g) None caps)).
    split.
    + intros k Hk. rewrite !getCapture_set_other by congruence. reflexivity.
    + intros i c y Hc.
      unfold opt. rewrite matcher_Quant, Hparens.
      rewrite repeatMatcher_greedy by discriminate. rewrite matcher_Group.
      cbn [endIndex rest captures]. rewrite clearCaptures_one.
      rewrite matcher_Seq, matcher_Char_cons.
      change (canonicalize 46 =? canonicalize (ch "."))%N with true. cbv iota.
      unfold digit.
      rewrite (matcher_plus_class isDigit f (h :: r) (S i) _ _ y Hne Hf Hh);
        [reflexivity|].
      cbn [endIndex rest captures].
      replace (S i + List.length f =? i) with false
        by (symmetry; apply Nat.eqb_neq; lia).
      cbn [option_map pred]. rewrite repeatMatcher_done.
      replace (S i + List.length f - i) with (S (List.length f)) by lia.
      cbn [firstn]. rewrite firstn_length_app.
      rewrite <- Hc. f_equal. f_equal. lia.
Qed.

(** A number group captures a whole number text, before a character that is
    neither a digit nor a point. *)
Lemma matcher_numberGroup g a h r caps :
  g <> 0 ->
  isNumberText a ->
  isDigit h = false -> h <> 46%N ->
  exists caps',
    getCapture g caps' = Some a
    /\ (forall k, k <> g -> k <> S g -> getCapture k caps' = getCapture k caps)
    /\ forall i (c : Continuation) y,
         c (mkState (i + List.length a) (h :: r) caps') = Some y ->
         matcher (numberGroup g) (mkState i (a ++ h :: r) caps) c = Some y.
Proof.
  intros Hg (sign & int & frac & -> & Hsign & Hne & Hint & Hfrac) Hh Hpoint.
  destruct int as [|d int]; [congruence|].
  inversion Hint as [|d' int' Hd Hint']; subst.
  destruct (matcher_opt_fraction g frac h r caps Hfrac Hh Hpoint)
    as (capsF & Hkept & Hfraction).
  exists (setCapture g (Some (sign ++ (d :: int) ++ frac)) capsF).
  split; [apply getCapture_set_same; exact Hg|]. split.
  - intros k Hk Hk'. rewrite getCapture_set_other by congruence. apply Hkept.
    exact Hk'.
  - intros i c y Hc. unfold numberGroup.
    change (seqs [opt (Char (ch "-")); plus digit;
                  opt (Group (S g) (Seq (Char (ch ".")) (plus digit)))])
      with (Seq (opt (Char (ch "-")))
                (Seq (plus digit)
                     (opt (Group (S g) (Seq (Char (ch ".")) (plus digit)))))).
    rewrite matcher_Group, matcher_Seq.
    replace ((sign ++ (d :: int) ++ frac) ++ h :: r)
      with (sign ++ d :: (int ++ frac ++ h :: r))
      by (rewrite <- !app_assoc; reflexivity).
    apply (matcher_opt_sign sign d (int ++ frac ++ h :: r)); [exact Hsign|exact Hd|].
    rewrite matcher_Seq. unfold digit.
    change (d :: int ++ frac ++ h :: r) with ((d :: int) ++ frac ++ h :: r).
    apply matcher_plus_class; [discriminate|exact Hint| |].
    + destruct Hfrac as [-> | (f & -> & _)]; [exact Hh|reflexivity].
    + apply Hfraction. cbn [endIndex rest captures].
      rewrite <- Hc. f_equal. f_equal; [rewrite !length_app; lia|].
      f_equal. f_equal.
      replace (i + List.length sign + List.length (d :: int) + List.length frac - i)
        with (List.length (sign ++ (d :: int) ++ frac))
        by (rewrite !length_app; lia).
      transitivity (firstn (List.length (sign ++ (d :: int) ++ frac))
                           ((sign ++ (d :: int) ++ frac) ++ h :: r));
        [|apply firstn_length_app].
      f_equal. rewrite <- !app_assoc. reflexivity.
Qed.


(** A number text starts with a character that is no white space. *)
Lemma number_head a :
  isNumberText a ->
  forall r, match a ++ r with [] => True | x :: _ => isWhiteSpace x = false end.
Proof.
  intros (sign & int & frac & -> & Hsign & Hne & Hint & _) r.
  destruct int as [|d int]; [congruence|].
  inversion Hint as [|d' int' Hd _]; subst.
  destruct Hsign as [-> | ->]; [|reflexivity].
  cbn [app]. apply digit_facts. exact Hd.
Qed.

Lemma label_head_app l short long r :
  foldsTo l (108%N :: short) \/ foldsTo l (108%N :: long) ->
  match l ++ r with [] => True | x :: _ => isWhiteSpace x = false end.
Proof.
  intros [H|H]; destruct (label_head _ _ H) as (h & t & -> & Hh); exact Hh.
Qed.

(** The annotation part of the pattern matches every annotation, and
    captures its two number texts. *)
Lemma annotation_complete s a b after caps :
  isAnnotation s a b ->
  exists caps',
    getCapture 2 caps' = Some a /\ getCapture 4 caps' = Some b
    /\ forall i (c : Continuation) y,
         c (mkState (i + List.length s) after caps') = Some y ->
         matcher annotationRegex (mkState i (s ++ after) caps) c = Some y.
Proof.
  intros (l1 & w1 & w2 & l2 & w3 & -> & Hl1 & Hl2 & Hw1 & Hw2 & Hw3 & Ha & Hb).
  change (js "(") with [40%N]. change (js ",") with [44%N].
  change (js ")") with [41%N].
  destruct (matcher_numberGroup 2 a 44%N (w2 ++ l2 ++ w3 ++ b ++ 41%N :: after) caps
              ltac:(discriminate) Ha eq_refl ltac:(discriminate))
    as (caps2 & Ha2 & Hkept2 & Hgroup2).
  destruct (matcher_numberGroup 4 b 41%N after caps2
              ltac:(discriminate) Hb eq_refl ltac:(discriminate))
    as (caps4 & Hb4 & Hkept4 & Hgroup4).
  exists caps4. split; [rewrite Hkept4 by discriminate; exact Ha2|].
  split; [exact Hb4|].
  intros i c y Hc.
  change annotationRegex
    with (Seq (Char 40)
         (Seq (Alt (lit (js "lat:")) (lit (js "latitude:")))
         (Seq (star space)
         (Seq (numberGroup 2)
         (Seq (Char 44)
         (Seq (star space)
         (Seq (Alt (lit (js "lng:")) (lit (js "longitude:")))
         (Seq (star space)
         (Seq (numberGroup 4) (Char 41)))))))))).
  rewrite <- !app_assoc. cbn [app].
  rewrite matcher_Seq, matcher_Char_cons.
  change (canonicalize 40 =? canonicalize 40)%N with true. cbv iota.
  rewrite matcher_Seq. apply matcher_lat_label; [exact Hl1|].
  rewrite matcher_Seq. unfold space.
  apply matcher_star_class; [exact Hw1|apply number_head; exact Ha|].
  rewrite matcher_Seq. apply Hgroup2.
  rewrite matcher_Seq, matcher_Char_cons.
  change (canonicalize 44 =? canonicalize 44)%N with true. cbv iota.
  rewrite matcher_Seq.
  apply matcher_star_class;
    [exact Hw2|exact (label_head_app l2 _ _ _ Hl2)|].
  rewrite matcher_Seq. apply matcher_lng_label; [exact Hl2|].
  rewrite matcher_Seq.
  apply matcher_star_class; [exact Hw3|apply number_head; exact Hb|].
  rewrite matcher_Seq. apply Hgroup4.
  rewrite matcher_Char_cons.
  change (canonicalize 41 =? canonicalize 41)%N with true. cbv iota.
  rewrite <- Hc. f_equal. f_equal.
  cbn [List.length]. rewrite !length_app. cbn [List.length]. lia.
Qed.


(** The annotation part fails where no parenthesis opens. *)
Lemma annotation_needs_parenthesis j h t caps (c : Continuation) :
  h <> 40%N -> matcher annotationRegex (mkState j (h :: t) caps) c = None.
Proof.
  intros Hh.
  change annotationRegex
    with (Seq (Char 40)
            (seqs [ Alt (lit (js "lat:")) (lit (js "latitude:")); star space;
                    numberGroup 2; Char (ch ","); star space;
                    Alt (lit (js "lng:")) (lit (js "longitude:")); star space;
                    numberGroup 4; Char (ch ")") ])).
  rewrite matcher_Seq, matcher_Char_cons.
  destruct (N.eqb_spec (canonicalize h) (canonicalize 40)) as [E|_]; [|reflexivity].
  apply canonicalize_below_letters in E; [congruence|reflexivity].
Qed.

(** The lazy [.*?] before the annotation runs up to the parenthesis. *)
Lemma repeatMatcher_lazy_dots u :
  Forall nameCharacter u ->
  forall r fuel i caps (c : Continuation) y,
    List.length u < fuel ->
    matcher annotationRegex (mkState (i + List.length u) (40%N :: r) caps) c = Some y ->
    repeatMatcher (matcher dot) [] fuel 0 None false
                  (mkState i (u ++ 40%N :: r) caps)
                  (fun z => matcher annotationRegex z c) = Some y.
Proof.
  induction 1 as [|h u [Hline Hparen] _ IH]; intros r fuel i caps c y Hfuel Hc;
    (destruct fuel as [|fuel]; [cbn in Hfuel; lia|]);
    rewrite repeatMatcher_lazy, clearCaptures_nil.
  - cbn [app]. rewrite Nat.add_0_r in Hc. rewrite Hc. reflexivity.
  - cbn [app]. rewrite (annotation_needs_parenthesis _ _ _ _ _ Hparen). cbn [orElse].
    unfold dot. rewrite matcher_Class_cons, Hline. cbn [negb endIndex].
    rewrite succ_eqb.
    apply IH; [cbn in Hfuel; lia|].
    cbn [List.length] in Hc. rewrite Nat.add_succ_r in Hc. exact Hc.
Qed.

(** The optional [**]: whether it takes two asterisks or not, the match goes
    on from a place of the text before the annotation. *)
Lemma matcher_bold_either (P : MatchState -> Prop) u r i caps (c : Continuation) :
  (forall u1 u2, u = u1 ++ u2 ->
     exists y, c (mkState (i + List.length u1) (u2 ++ 40%N :: r) caps) = Some y /\ P y) ->
  exists y, matcher boldRegex (mkState i (u ++ 40%N :: r) caps) c = Some y /\ P y.
Proof.
  intros H. unfold boldRegex, opt. rewrite matcher_Quant.
  change (groupsOf (lit (js "**"))) with (@nil nat).
  rewrite repeatMatcher_greedy by discriminate. rewrite clearCaptures_nil.
  change (lit (js "**")) with (Seq (Char 42) (Char 42)).
  rewrite matcher_Seq.
  destruct (H [] u eq_refl) as (y0 & Hy0 & Py0).
  cbn [List.length app] in Hy0. rewrite Nat.add_0_r in Hy0.
  destruct u as [|h1 [|h2 u2]]; cbn [app]; rewrite matcher_Char_cons.
  - change (canonicalize 40 =? canonicalize 42)%N with false. cbv iota.
    exists y0. split; [exact Hy0|exact Py0].
  - destruct (canonicalize h1 =? canonicalize 42)%N;
      [rewrite matcher_Char_cons;
       change (canonicalize 40 =? canonicalize 42)%N with false; cbv iota|];
      exists y0; (split; [exact Hy0|exact Py0]).
  - destruct (canonicalize h1 =? canonicalize 42)%N;
      [rewrite matcher_Char_cons; destruct (canonicalize h2 =? canonicalize 42)%N|];
      try (exists y0; split; [exact Hy0|exact Py0]).
    cbn [endIndex]. replace (S (S i) =? i) with false
      by (symmetry; apply Nat.eqb_neq; lia).
    cbn [option_map pred]. rewrite repeatMatcher_done.
    destruct (H [h1; h2] u2 eq_refl) as (y & Hy & Py).
    cbn [List.length] in Hy. replace (i + 2) with (S (S i)) in Hy by lia.
    rewrite Hy. exists y. split; [reflexivity|exact Py].
Qed.

Lemma matcher_group1_empty t i caps (c : Continuation) y :
  c (mkState i t (setCapture 1 (Some []) caps)) = Some y ->
  matcher (Group 1 (lazyStar dot)) (mkState i t caps) c = Some y.
Proof.
  intros Hc. rewrite matcher_Group. unfold lazyStar. rewrite matcher_Quant.
  cbn [Nat.add]. rewrite repeatMatcher_lazy. cbn [endIndex rest captures].
  rewrite Nat.sub_diag. cbn [firstn]. rewrite Hc. reflexivity.
Qed.

Lemma Forall_app_suffix (A : Type) (P : A -> Prop) (u u1 u2 : list A) :
  Forall P u -> u = u1 ++ u2 -> Forall P u2.
Proof. intros H ->. apply Forall_app in H. apply H. Qed.

(** The pattern matches at index 0 a text that is an annotation after
    characters without line terminator and parenthesis, up to the end of the
    annotation, and captures the two number texts. *)
Lemma coordinateRegex_complete before s a b after :
  isAnnotation s a b ->
  Forall nameCharacter before ->
  exists y,
    matcher coordinateRegex
            (mkState 0 (before ++ s ++ after) (noCaptures coordinateRegex)) Some
    = Some y
    /\ endIndex y = List.length (before ++ s)
    /\ getCapture 2 (captures y) = Some a
    /\ getCapture 4 (captures y) = Some b.
Proof.
  intros Hs Hbefore.
  assert (Hparen : exists s', s = 40%N :: s').
  { destruct Hs as (l1 & w1 & w2 & l2 & w3 & -> & _). eexists. reflexivity. }
  destruct Hparen as (s' & Es).
  set (Good := fun y : MatchState =>
         endIndex y = List.length (before ++ s)
         /\ getCapture 2 (captures y) = Some a
         /\ getCapture 4 (captures y) = Some b).
  (* from the lazy dots on *)
  assert (Hdots : forall u j caps,
    Forall nameCharacter u -> j + List.length u = List.length before ->
    exists y,
      matcher (Seq (lazyStar dot) annotationRegex)
              (mkState j (u ++ 40%N :: s' ++ after) caps) Some = Some y /\ Good y).
  { intros u j caps Hu Hj.
    destruct (annotation_complete s a b after caps Hs) as (caps' & C2 & C4 & Hmatch).
    exists (mkState (j + List.length u + List.length s) after caps').
    split.
    - rewrite matcher_Seq. unfold lazyStar. rewrite matcher_Quant. cbn [Nat.add rest].
      apply repeatMatcher_lazy_dots; [exact Hu|rewrite length_app; lia|].
      change (40%N :: s' ++ after) with ((40%N :: s') ++ after). rewrite <- Es.
      apply Hmatch. reflexivity.
    - unfold Good. cbn [endIndex captures]. rewrite length_app. repeat split; auto; lia. }
  (* from the second optional bold on *)
  assert (Hafter : forall u j caps,
    Forall nameCharacter u -> j + List.length u = List.length before ->
    exists y,
      matcher afterNameRegex (mkState j (u ++ 40%N :: s' ++ after) caps) Some = Some y
      /\ Good y).
  { intros u j caps Hu Hj. unfold afterNameRegex. rewrite matcher_Seq.
    apply matcher_bold_either. intros u1 u2 E.
    apply Hdots; [exact (Forall_app_suffix _ _ _ _ _ Hu E)|].
    rewrite E, length_app in Hj. lia. }
  set (caps0 := noCaptures coordinateRegex).
  rewrite coordinateRegex_parts, Es.
  change ((40%N :: s') ++ after) with (40%N :: s' ++ after).
  assert (Hall : exists y,
    matcher (Seq boldRegex (Seq (Group 1 (lazyStar dot)) afterNameRegex))
            (mkState 0 (before ++ 40%N :: s' ++ after) caps0)
            Some = Some y /\ Good y).
  { rewrite matcher_Seq. apply matcher_bold_either. intros u1 u2 E.
    destruct (Hafter u2 (0 + List.length u1) (setCapture 1 (Some []) caps0))
      as (y & Hy & Gy).
    - exact (Forall_app_suffix _ _ _ _ _ Hbefore E).
    - rewrite E, length_app. lia.
    - exists y. split; [|exact Gy]. rewrite matcher_Seq.
      apply matcher_group1_empty. exact Hy. }
  destruct Hall as (y & Hy & Gy). exists y. split; [|rewrite <- Es; exact Gy].
  rewrite matcher_Seq. unfold anchorRegex.
  change (matcher (Alt AssertStart ?r) ?x ?c)
    with (orElse (matcher AssertStart x c) (fun _ => matcher r x c)).
  change (matcher AssertStart (mkState 0 ?t ?caps) ?c) with (c (mkState 0 t caps)).
  cbv beta. rewrite Hy. reflexivity.
Qed.


Lemma search_at_once r t i y :
  matcher r (mkState i t (noCaptures r)) Some = Some y -> search r t i = Some y.
Proof. intros H. destruct t; cbn [search]; rewrite H; reflexivity. Qed.

(** [exec] from index 0 on a text with one annotation on its first line. *)
Lemma exec_complete before s a b after :
  isAnnotation s a b ->
  Forall nameCharacter before ->
  exists m,
    exec coordinateRegex (before ++ s ++ after) 0
    = (Some m, List.length (before ++ s))
    /\ getCapture 1 m = Some []
    /\ getCapture 2 m = Some a /\ getCapture 4 m = Some b.
Proof.
  intros Hs Hbefore.
  destruct (coordinateRegex_complete before s a b after Hs Hbefore)
    as (y & Hy & Hend & C2 & C4).
  assert (He : exec coordinateRegex (before ++ s ++ after) 0
               = (Some (captures y), List.length (before ++ s))).
  { unfold exec. cbn [Nat.ltb Nat.leb skipn].
    rewrite (search_at_once _ _ _ _ Hy), Hend. reflexivity. }
  exists (captures y). split; [exact He|]. split; [|split; assumption].
  apply exec_sound in He.
  destruct He as (before' & s' & a' & b' & _ & _ & _ & _ & C1 & _). exact C1.
Qed.

Lemma number_nonempty a : isNumberText a -> truthy (Some a) = true.
Proof.
  intros (sign & int & frac & -> & Hsign & Hne & _).
  destruct Hsign as [-> | ->]; [|reflexivity].
  destruct int; [congruence|reflexivity].
Qed.

(** After the one annotation of the text the loop finds nothing more. *)
Lemma parseLoop_done toString36 mathRandom before s after calls places :
  s <> [] ->
  ~ In 40%N after ->
  Forall notNaN places ->
  parseLoop toString36 mathRandom (List.length (before ++ s ++ after))
            (before ++ s ++ after) (List.length (before ++ s)) calls places
  = Returns places.
Proof.
  intros Hs Hafter Hplaces.
  destruct (parseLoop_returns toString36 mathRandom (before ++ s ++ after)
              (List.length (before ++ s ++ after)) (List.length (before ++ s))
              calls places) as (ps & Hps & _).
  - rewrite !length_app. lia.
  - destruct s; [congruence|]. rewrite !length_app. cbn [List.length]. lia.
  - exact Hplaces.
  - rewrite Hps. f_equal.
    apply parseLoop_adds in Hps. destruct Hps as (added & -> & _ & _ & Hn).
    rewrite app_assoc, skipn_length_app in Hn.
    rewrite (proj1 (count_occ_not_In N.eq_dec after 40%N) Hafter) in Hn.
    destruct added; [apply app_nil_r|cbn in Hn; lia].
Qed.

(** A text with one annotation, on its first line: a place is returned
    exactly when neither number text parses to NaN, with the parsed values. *)
Lemma single_mention toString36 mathRandom before s after a b :
  isAnnotation s a b ->
  Forall nameCharacter before ->
  ~ In 40%N after ->
  parseCoordinatesFromText toString36 mathRandom (before ++ s ++ after)
  = Returns
      (if negb (isNaN (parseFloat a)) && negb (isNaN (parseFloat b))
       then [mkPlace (randomId toString36 mathRandom 0) (js "Unknown Location")
                     (mkLatLng (parseFloat a) (parseFloat b)) None]
       else []).
Proof.
  intros Hs Hbefore Hafter.
  destruct (exec_complete before s a b after Hs Hbefore) as (m & He & C1 & C2 & C4).
  assert (Hne : s <> []).
  { destruct Hs as (l1 & w1 & w2 & l2 & w3 & -> & _). discriminate. }
  assert (Ha : isNumberText a /\ isNumberText b).
  { destruct Hs as (l1 & w1 & w2 & l2 & w3 & _ & _ & _ & _ & _ & _ & Ha & Hb).
    split; assumption. }
  unfold parseCoordinatesFromText. cbn [parseLoop]. rewrite He, C1, C2, C4.
  rewrite (number_nonempty a (proj1 Ha)), (number_nonempty b (proj2 Ha)).
  cbn [andb]. rewrite !orDefault_nil.
  destruct (negb (isNaN (parseFloat a)) && negb (isNaN (parseFloat b))) eqn:Hnan.
  - apply parseLoop_done; [exact Hne|exact Hafter|].
    apply andb_true_iff in Hnan. destruct Hnan as [H1 H2].
    apply negb_true_iff in H1, H2. repeat constructor; assumption.
  - apply parseLoop_done; [exact Hne|exact Hafter|constructor].
Qed.

End PatternCompleteness.

(** C1, as the code has it: on every input text the extractor returns, and no
    place it returns has a NaN latitude or longitude. NaN is the only value
    the guard of line 20 rejects: for a text with one annotation, on its
    first line, the extractor returns a place if and only if neither number
    text parses to NaN, and the place carries the two parsed values as they
    are, whatever their size. The ranges [-90,90] and [-180,180] are not
    tested, and nothing is clamped. *)
Theorem extractor_rejects_only_NaN :
  forall (toString36 : float -> jsstring) (mathRandom : nat -> float),
    (forall text : jsstring,
       exists ps,
         GeminiService.parseCoordinatesFromText toString36 mathRandom text = Returns ps
         /\ Forall (fun p => isNaN (lat (coordinate p)) = false
                             /\ isNaN (lng (coordinate p)) = false) ps)
    /\ (forall before s after a b : jsstring,
          MatcherSemantics.isAnnotation s a b ->
          Forall MatcherSemantics.nameCharacter before ->
          ~ In 40%N after ->
          GeminiService.parseCoordinatesFromText toString36 mathRandom
            (before ++ s ++ after)
          = Returns
              (if negb (isNaN (parseFloat a)) && negb (isNaN (parseFloat b))
               then [mkPlace (GeminiService.randomId toString36 mathRandom 0)
                             (js "Unknown Location")
                             (mkLatLng (parseFloat a) (parseFloat b)) None]
               else [])).
Proof.
  intros toString36 mathRandom. split.
  - intros text.
    destruct (parseCoordinatesFromText_returns toString36 mathRandom text)
      as (ps & Hret & Hinv).
    exists ps. split; [exact Hret|exact Hinv].
  - intros before s after a b Hs Hbefore Hafter.
    exact (single_mention toString36 mathRandom before s after a b Hs Hbefore Hafter).
Qed.

Lemma extractor_rejects_only_NaN_witness :
  MatcherSemantics.isAnnotation Samples.farAnnotation (js "-91.5") (js "181")
  /\ GeminiService.parseCoordinatesFromText Samples.toString36 Samples.randomA
       (js "**Far** " ++ Samples.farAnnotation ++ js " - beyond the poles.")
     = Returns [mkPlace (js "i") (js "Unknown Location") (mkLatLng (-91.5) 181) None].
Proof.
  assert (Hs : MatcherSemantics.isAnnotation Samples.farAnnotation
                 (js "-91.5") (js "181")).
  { exists (js "lat:"), (js " "), (js " "), (js "lng:"), (js " ").
    split; [reflexivity|]. split; [left; reflexivity|]. split; [left; reflexivity|].
    split; [repeat constructor|]. split; [repeat constructor|].
    split; [repeat constructor|]. split.
    - exists (js "-"), (js "91"), (js ".5").
      split; [reflexivity|]. split; [right; reflexivity|].
      split; [discriminate|]. split; [repeat constructor|].
      right. exists (js "5"). split; [reflexivity|].
      split; [discriminate|repeat constructor].
    - exists [], (js "181"), [].
      split; [reflexivity|]. split; [left; reflexivity|].
      split; [discriminate|]. split; [repeat constructor|left; reflexivity]. }
  split; [exact Hs|].
  refine (eq_trans
            (proj2 (extractor_rejects_only_NaN Samples.toString36 Samples.randomA)
                   (js "**Far** ") Samples.farAnnotation (js " - beyond the poles.")
                   (js "-91.5") (js "181") Hs _ _) _).
  - repeat constructor; discriminate.
  - intros Hin. cbv in Hin. repeat (destruct Hin as [Hin|Hin]; [discriminate Hin|]).
    exact Hin.
  - vm_compute. reflexivity.
Defined.

(** C1 fails as stated: the annotation [(lat: 999, lng: 0)] has a latitude
    above 90, and the extractor publishes a place with that latitude. *)
Lemma out_of_range_latitude_is_published :
  GeminiService.parseCoordinatesFromText Samples.toString36 Samples.randomA
    Samples.outOfRangeText
  = Returns [mkPlace (js "i") (js "Unknown Location") (mkLatLng 999 0) None]
  /\ (90 <? 999)%float = true.
Proof. split; vm_compute; reflexivity. Qed.

(** ** The name clean-up *)

Section NameProperties.

Import GeminiService.

Lemma Forall_dropWhile (A : Type) (P : A -> Prop) (p : A -> bool) (l : list A) :
  Forall P l -> Forall P (dropWhile p l).
Proof.
  induction 1 as [|a l Ha Hl IH]; cbn; [constructor|].
  destruct (p a); [exact IH|constructor; assumption].
Qed.

Lemma dropWhile_head (A : Type) (p : A -> bool) (l : list A) :
  match dropWhile p l with
  | [] => True
  | a :: _ => p a = false
  end.
Proof.
  induction l as [|a l IH]; cbn; [exact I|].
  destruct (p a) eqn:Ha; [exact IH|exact Ha].
Qed.

Lemma dropWhile_keeps_last (A : Type) (p : A -> bool) (l : list A) (a : A) :
  p a = false -> dropWhile p (l ++ [a]) = dropWhile p l ++ [a].
Proof.
  intros Ha. induction l as [|b l IH]; cbn; [rewrite Ha; reflexivity|].
  destruct (p b); [exact IH|reflexivity].
Qed.

Lemma Forall_trim (P : N -> Prop) (s : jsstring) : Forall P s -> Forall P (trim s).
Proof.
  intros H. unfold trim, trimEnd, trimStart.
  apply Forall_rev, Forall_dropWhile, Forall_rev, Forall_dropWhile. exact H.
Qed.

(** A trimmed string is empty, or starts and ends with something that is
    not white space. *)
Lemma trim_ends (s : jsstring) :
  trim s = []
  \/ (exists h t, trim s = h :: t /\ isWhiteSpace h = false)
     /\ (exists t l, trim s = t ++ [l] /\ isWhiteSpace l = false).
Proof.
  unfold trim, trimEnd, trimStart.
  pose proof (dropWhile_head _ isWhiteSpace s) as Hhead.
  destruct (dropWhile isWhiteSpace s) as [|h t]; [left; reflexivity|right].
  cbn [rev]. rewrite (dropWhile_keeps_last _ _ _ _ Hhead), rev_app_distr. cbn [rev app].
  split; [eauto|].
  pose proof (dropWhile_head _ isWhiteSpace (rev t)) as Hlast.
  destruct (dropWhile isWhiteSpace (rev t)) as [|l u]; cbn [rev app].
  - exists [], h. split; [reflexivity|exact Hhead].
  - exists (h :: rev u), l. split; [reflexivity|exact Hlast].
Qed.

Lemma splitAcc_last (P : N -> Prop) : forall s cur,
  Forall P s -> Forall P cur ->
  Forall (fun c => existsb (N.eqb c) (js ".!?") = false) cur ->
  exists init lastp,
    splitAcc s cur = init ++ [lastp]
    /\ Forall P lastp
    /\ Forall (fun c => existsb (N.eqb c) (js ".!?") = false) lastp.
Proof.
  induction s as [|c s IH]; intros cur Hs Hcur Hsep; cbn [splitAcc].
  - exists [], (rev cur). split; [reflexivity|]. split; apply Forall_rev; assumption.
  - inversion Hs as [|? ? Hc Hs']; subst.
    destruct (existsb (N.eqb c) (js ".!?")) eqn:Hcsep.
    + destruct (IH [] Hs' (Forall_nil _) (Forall_nil _)) as (init & lastp & -> & H1 & H2).
      exists (rev cur :: init), lastp. auto.
    + apply IH; auto.
Qed.

Lemma pop_last init (x : jsstring) : pop (init ++ [x]) = Some x.
Proof. unfold pop. rewrite rev_app_distr. reflexivity. Qed.

Lemma Forall_stripBullet (P : N -> Prop) s : Forall P s -> Forall P (stripBullet s).
Proof.
  intros H. unfold stripBullet. destruct s as [|c t]; [constructor|].
  destruct ((c =? ch "*") || (c =? ch "-"))%N; [|exact H].
  apply Forall_dropWhile. inversion H; assumption.
Qed.

(** X5: the name line 13 makes is never empty; it is the placeholder, or it holds
    none of [*], [.], [!], [?] and neither starts nor ends with white
    space. *)
Theorem cleanNameOf_is_clean (rawName : jsstring) :
  cleanNameOf rawName <> []
  /\ (cleanNameOf rawName = js "Unknown Location"
      \/ (Forall (fun c => isMarkup c = false) (cleanNameOf rawName)
          /\ (exists h t, cleanNameOf rawName = h :: t /\ isWhiteSpace h = false)
          /\ (exists t l, cleanNameOf rawName = t ++ [l] /\ isWhiteSpace l = false))).
Proof.
  unfold cleanNameOf.
  assert (Hstars : Forall (fun c => (c =? ch "*")%N = false)
                          (removeStars (stripBullet rawName))).
  { unfold removeStars. apply Forall_forall. intros c Hc.
    apply filter_In in Hc. apply negb_true_iff. apply Hc. }
  destruct (splitAcc_last _ _ [] Hstars (Forall_nil _) (Forall_nil _))
    as (init & lastp & Hsplit & Hnostar & Hnosep).
  unfold split. rewrite Hsplit, pop_last. cbn [option_map].
  assert (Hclean : Forall (fun c => isMarkup c = false) (trim lastp)).
  { apply Forall_trim. apply Forall_forall. intros c Hc.
    rewrite Forall_forall in Hnostar, Hnosep.
    specialize (Hnostar c Hc). specialize (Hnosep c Hc).
    unfold isMarkup. cbn [existsb js map list_ascii_of_string] in *.
    rewrite orb_false_r in *. fold (ch "*"). rewrite Hnostar. exact Hnosep. }
  destruct (trim_ends lastp) as [Hnil|[Hh Hl]].
  - rewrite Hnil. cbn [orDefault]. split; [discriminate|left; reflexivity].
  - destruct (trim lastp) as [|c t] eqn:Ht.
    + destruct Hh as (h & t & Hx & _). discriminate.
    + cbn [orDefault]. split; [discriminate|right]. auto.
Qed.

End NameProperties.

(** ** The stores of saved places *)

Section FiniteNumbers.

Local Open Scope float_scope.

Lemma jsstring_eqb_refl (a : jsstring) : jsstring_eqb a a = true.
Proof. apply jsstring_eqb_eq. reflexivity. Qed.

(** A finite number minus itself is a zero. *)
Lemma sub_self_finite (x : float) :
  is_finite x = true -> x - x = zero \/ x - x = neg_zero.
Proof.
  unfold is_finite, is_nan, is_infinity. intros H.
  apply negb_true_iff, orb_false_iff in H. destruct H as [Hnan Hinf].
  apply negb_false_iff in Hnan.
  rewrite eqb_spec in Hnan, Hinf. rewrite abs_spec in Hinf.
  rewrite <- (SF2Prim_Prim2SF (x - x)), sub_spec.
  destruct (Prim2SF x) as [s|s| |s m e]; cbn in Hnan, Hinf; try discriminate.
  - destruct s; cbn; auto.
  - left. unfold SF64sub, SFsub. rewrite Z.sub_diag. reflexivity.
Qed.

Lemma abs_sub_self_finite (x : float) :
  is_finite x = true -> (abs (x - x) <? 0.0001) = true.
Proof.
  intros H. destruct (sub_self_finite x H) as [-> | ->]; reflexivity.
Qed.

End FiniteNumbers.

Section StoreProperties.

Import ChatInterface.

Lemma sameAs_refl (p : Place) : finiteLatitude p -> sameAs p p = true.
Proof.
  intros H. unfold sameAs. rewrite jsstring_eqb_refl, (abs_sub_self_finite _ H).
  reflexivity.
Qed.

(** [newSaved] only grows at its end; [count] counts what was added; a place
    is added only when no place before it in [newSaved] has its name and a
    latitude within 0.0001. *)
Lemma fold_saveOne places : forall newSaved count lastSavedName,
  exists added,
    fst (fst (fold_left saveOne places (newSaved, count, lastSavedName)))
    = newSaved ++ added
    /\ snd (fst (fold_left saveOne places (newSaved, count, lastSavedName)))
       = count + List.length added
    /\ incl added places
    /\ List.length added <= List.length places
    /\ (forall l1 q l2, added = l1 ++ q :: l2 ->
          existsb (sameAs q) (newSaved ++ l1) = false)
    /\ (forall p, In p places -> finiteLatitude p ->
          existsb (sameAs p) (newSaved ++ added) = true).
Proof.
  induction places as [|place places IH]; intros newSaved count lastSavedName.
  - exists []. cbn. rewrite app_nil_r, Nat.add_0_r.
    split; [reflexivity|]. split; [reflexivity|].
    split; [intros q []|]. split; [lia|].
    split; [intros l1 q l2 H; destruct l1; discriminate|intros p []].
  - cbn [fold_left saveOne].
    destruct (existsb (sameAs place) newSaved) eqn:Hex; cbn [negb].
    + destruct (IH newSaved count lastSavedName) as (added & H1 & H2 & H3 & H4 & H5 & H6).
      exists added. split; [exact H1|]. split; [exact H2|].
      split; [intros q Hq; right; apply H3; exact Hq|].
      split; [cbn; lia|]. split; [exact H5|].
      intros p [<-|Hp] Hfin; [|apply H6; assumption].
      rewrite existsb_app, Hex. reflexivity.
    + destruct (IH (newSaved ++ [place]) (S count) (name place))
        as (added & H1 & H2 & H3 & H4 & H5 & H6).
      exists (place :: added). rewrite H1, H2, <- app_assoc. cbn [app List.length].
      split; [reflexivity|]. split; [lia|].
      split; [intros q [<-|Hq]; [left; reflexivity|right; apply H3; exact Hq]|].
      split; [lia|]. split.
      * intros l1 q l2 Heq. destruct l1 as [|x l1]; cbn [app] in Heq.
        -- injection Heq as <- _. rewrite app_nil_r. exact Hex.
        -- injection Heq as <- Heq. specialize (H5 _ _ _ Heq).
           rewrite <- app_assoc in H5. exact H5.
      * intros p [<-|Hp] Hfin.
        -- rewrite existsb_app. cbn [existsb]. rewrite (sameAs_refl _ Hfin).
           rewrite orb_true_r. reflexivity.
        -- specialize (H6 p Hp Hfin). rewrite <- app_assoc in H6. exact H6.
Qed.

(** Saving again what is all in the store adds nothing. *)
Lemma fold_saveOne_nothing places : forall newSaved count lastSavedName,
  (forall p, In p places -> existsb (sameAs p) newSaved = true) ->
  fold_left saveOne places (newSaved, count, lastSavedName)
  = (newSaved, count, lastSavedName).
Proof.
  induction places as [|place places IH]; intros newSaved count lastSavedName H;
    [reflexivity|].
  cbn [fold_left saveOne]. rewrite (H place (or_introl eq_refl)). cbn [negb].
  apply IH. intros p Hp. apply H. right. exact Hp.
Qed.

Lemma saveAll_spec (currentSaved places : list Place) :
  exists added,
    fst (fst (saveAll currentSaved places)) = currentSaved ++ added
    /\ snd (fst (saveAll currentSaved places)) = List.length added
    /\ incl added places
    /\ List.length added <= List.length places
    /\ (forall l1 q l2, added = l1 ++ q :: l2 ->
          existsb (sameAs q) (currentSaved ++ l1) = false)
    /\ (forall p, In p places -> finiteLatitude p ->
          existsb (sameAs p) (currentSaved ++ added) = true).
Proof. exact (fold_saveOne places currentSaved 0 []). Qed.

(** X6: [saveAll] never removes or reorders what is stored: the new store is
    the old one followed by the added places, [count] is their number, each
    of them is one of the result places, and a place is added only when no
    place before it in the store has its name and a latitude within 0.0001. *)
Theorem saveAll_only_appends_new_places :
  forall (currentSaved places : list Place),
    let '(newSaved, count, _) := saveAll currentSaved places in
    exists added,
      newSaved = currentSaved ++ added
      /\ count = List.length added
      /\ incl added places
      /\ List.length added <= List.length places
      /\ (forall l1 q l2, added = l1 ++ q :: l2 ->
            existsb (sameAs q) (currentSaved ++ l1) = false).
Proof.
  intros currentSaved places.
  destruct (saveAll_spec currentSaved places) as (added & H1 & H2 & H3 & H4 & H5 & _).
  destruct (saveAll currentSaved places) as [[newSaved count] lastName].
  cbn [fst snd] in H1, H2. exists added.
  split; [exact H1|]. split; [exact H2|]. split; [exact H3|]. split; [exact H4|exact H5].
Qed.

(** X7: when the latitudes of the result places are finite, saving them a
    second time adds nothing, and the notice says so. *)
Theorem saveAll_twice_adds_nothing :
  forall (currentSaved places : list Place),
    Forall finiteLatitude places ->
    let newSaved := fst (fst (saveAll currentSaved places)) in
    saveAll newSaved places = (newSaved, 0, [])
    /\ handleSaveAllToDatabase
         (handleSaveAllToDatabase (mkOverlay [] currentSaved None) places) places
       = mkOverlay newSaved newSaved (Some (js "Locations already in database")).
Proof.
  intros currentSaved places Hfin newSaved.
  assert (Hagain : saveAll newSaved places = (newSaved, 0, [])).
  { subst newSaved.
    destruct (saveAll_spec currentSaved places) as (added & H1 & _ & _ & _ & _ & H6).
    rewrite H1. apply fold_saveOne_nothing.
    intros p Hp. apply H6; [exact Hp|]. rewrite Forall_forall in Hfin. apply Hfin, Hp. }
  split; [exact Hagain|].
  unfold handleSaveAllToDatabase at 2. cbn [storage].
  destruct (saveAll currentSaved places) as [[ns count] lastName] eqn:Hs.
  cbn [fst] in newSaved. subst newSaved.
  unfold handleSaveAllToDatabase. cbn [storage]. rewrite Hagain. reflexivity.
Qed.

Lemma saveAll_twice_adds_nothing_witness :
  Forall finiteLatitude [Samples.cafe; Samples.farCafe]
  /\ saveAll (fst (fst (saveAll [] [Samples.cafe; Samples.farCafe])))
             [Samples.cafe; Samples.farCafe]
     = (fst (fst (saveAll [] [Samples.cafe; Samples.farCafe])), 0, []).
Proof.
  assert (H : Forall finiteLatitude [Samples.cafe; Samples.farCafe])
    by (repeat constructor).
  split; [exact H|].
  exact (proj1 (saveAll_twice_adds_nothing [] [Samples.cafe; Samples.farCafe] H)).
Defined.

End StoreProperties.

Section PopupProperties.

Import MapComponent.
Local Open Scope float_scope.
Variable numberToString : float -> jsstring.

(** A number that compares equal to 0 is one of the two zeros. *)
Lemma eqb_zero_cases (x : float) : (x =? 0) = true -> x = zero \/ x = neg_zero.
Proof.
  intros H. rewrite eqb_spec in H. rewrite <- (SF2Prim_Prim2SF x).
  destruct (Prim2SF x) as [[|]| [|] | |[|] m e]; cbn in H; try discriminate; auto.
Qed.

(** Both zeros have the same digits. *)
Lemma toFixed_jsonNumber (x y : float) (f : nat) :
  jsonNumber x = Some y -> toFixed numberToString y f = toFixed numberToString x f.
Proof.
  unfold jsonNumber. destruct (is_finite x); [|discriminate].
  destruct (x =? 0) eqn:Hz; intros H; injection H as <-; [|reflexivity].
  destruct (eqb_zero_cases x Hz) as [-> | ->]; reflexivity.
Qed.

Lemma jsonNumber_finite (x : float) :
  is_finite x = true -> exists y, jsonNumber x = Some y /\ is_finite y = true.
Proof.
  intros H. unfold jsonNumber. rewrite H.
  destruct (x =? 0); eexists; split; try reflexivity. exact H.
Qed.

Lemma jsonNumber_not_finite (x : float) : is_finite x = false -> jsonNumber x = None.
Proof. intros H. unfold jsonNumber. rewrite H. reflexivity. Qed.

(** A place with finite coordinates is stored with the key it has. *)
Lemma storedPlaceKey_jsonPlace (place : Place) :
  finiteCoordinate place ->
  storedPlaceKey numberToString (jsonPlace place)
  = Some (getPlaceKey numberToString place).
Proof.
  intros [Hlat Hlng]. unfold storedPlaceKey, jsonPlace, getPlaceKey.
  cbn [storedLat storedLng storedName].
  destruct (jsonNumber_finite _ Hlat) as (la & Ela & _).
  destruct (jsonNumber_finite _ Hlng) as (ln & Eln & _).
  rewrite Ela, Eln, (toFixed_jsonNumber _ _ 5 Ela), (toFixed_jsonNumber _ _ 5 Eln).
  reflexivity.
Qed.

(** Writing a stored place with finite coordinates again keeps its key and
    its finite coordinates. *)
Lemma storedPlaceKey_reparse (p : StoredPlace) :
  storedFinite p ->
  storedFinite (reparse p)
  /\ storedPlaceKey numberToString (reparse p) = storedPlaceKey numberToString p
  /\ exists k, storedPlaceKey numberToString p = Some k.
Proof.
  intros (la & ln & Ela & Eln & Hla & Hln).
  destruct (jsonNumber_finite _ Hla) as (la' & Ela' & Hla').
  destruct (jsonNumber_finite _ Hln) as (ln' & Eln' & Hln').
  unfold storedFinite, storedPlaceKey, reparse. cbn [storedLat storedLng storedName].
  rewrite Ela, Eln, Ela', Eln'.
  split; [exists la', ln'; auto|].
  rewrite (toFixed_jsonNumber _ _ 5 Ela'), (toFixed_jsonNumber _ _ 5 Eln').
  split; [reflexivity|eexists; reflexivity].
Qed.

(** On a store without [null] the filter does not throw. *)
Lemma filterOtherKeys_finite key (saved : list StoredPlace) :
  Forall storedFinite saved ->
  exists kept,
    filterOtherKeys numberToString key saved = Returns kept
    /\ Forall storedFinite kept
    /\ someSameKey numberToString key (map reparse kept) = Returns false
    /\ (someSameKey numberToString key saved = Returns false -> kept = saved).
Proof.
  induction 1 as [|p saved Hp _ (kept & IH1 & IH2 & IH3 & IH4)].
  - exists []. repeat split; auto.
  - destruct (storedPlaceKey_reparse p Hp) as (Hfin & Hkey & k & Hk).
    cbn [filterOtherKeys someSameKey]. rewrite Hk, IH1.
    destruct (jsstring_eqb k key) eqn:Hsame; cbn [negb].
    + exists kept. repeat split; auto. discriminate.
    + exists (p :: kept). split; [reflexivity|]. split; [constructor; assumption|].
      split.
      * cbn [map someSameKey]. rewrite Hkey, Hk, Hsame. exact IH3.
      * intros Hno. rewrite (IH4 Hno). reflexivity.
Qed.

(** The added place is found, whatever comes before it. *)
Lemma someSameKey_added (place : Place) (saved : list StoredPlace) :
  Forall storedFinite saved ->
  finiteCoordinate place ->
  someSameKey numberToString (getPlaceKey numberToString place)
              (map reparse saved ++ [jsonPlace place]) = Returns true.
Proof.
  intros Hsaved Hplace.
  induction Hsaved as [|p saved Hp _ IH].
  - cbn [map app someSameKey]. rewrite (storedPlaceKey_jsonPlace _ Hplace).
    rewrite jsstring_eqb_refl. reflexivity.
  - destruct (storedPlaceKey_reparse p Hp) as (_ & Hkey & k & Hk).
    cbn [map app someSameKey]. rewrite Hkey, Hk.
    destruct (jsstring_eqb k _); [reflexivity|exact IH].
Qed.

(** X8: on a store without [null] and for a place with finite coordinates,
    after [toggleSave] the flag is what the effect of lines 113-122 computes
    from the new store, whatever the flag was before the effect: the added
    place is found, and after a removal no stored place has the key. *)
Theorem toggleSave_agrees_with_store :
  forall (isSaved before : bool) (saved : list StoredPlace) (place : Place),
    Forall storedFinite saved ->
    finiteCoordinate place ->
    savedEffect numberToString before
      (snd (toggleSave numberToString isSaved saved place)) place
    = fst (toggleSave numberToString isSaved saved place).
Proof.
  intros [|] before saved place Hsaved Hplace; unfold toggleSave, savedEffect.
  - destruct (filterOtherKeys_finite (getPlaceKey numberToString place) saved Hsaved)
      as (kept & -> & _ & Hnone & _).
    cbn [fst snd]. rewrite Hnone. reflexivity.
  - cbn [fst snd]. rewrite (someSameKey_added place saved Hsaved Hplace). reflexivity.
Qed.

Lemma map_reparse_written (saved : list StoredPlace) :
  Forall storedAsWritten saved -> map reparse saved = saved /\ Forall storedFinite saved.
Proof.
  induction 1 as [|p saved [Hfin Hp] _ [IH1 IH2]]; [split; auto|].
  cbn [map]. rewrite Hp, IH1. split; [reflexivity|constructor; assumption].
Qed.

Lemma filterOtherKeys_app key (l1 l2 : list StoredPlace) kept1 kept2 :
  filterOtherKeys numberToString key l1 = Returns kept1 ->
  filterOtherKeys numberToString key l2 = Returns kept2 ->
  filterOtherKeys numberToString key (l1 ++ l2) = Returns (kept1 ++ kept2).
Proof.
  revert kept1. induction l1 as [|p l1 IH]; intros kept1 H1 H2.
  - injection H1 as <-. exact H2.
  - cbn [app filterOtherKeys] in *.
    destruct (storedPlaceKey numberToString p) as [k|]; [|discriminate].
    destruct (filterOtherKeys numberToString key l1) as [kept| |]; try discriminate.
    rewrite (IH kept eq_refl H2). injection H1 as <-.
    destruct (negb (jsstring_eqb k key)); reflexivity.
Qed.

(** X9: on a store as [JSON.stringify] writes places with finite
    coordinates, and for a place with finite coordinates that the effect does
    not find, saving the place and then removing it leaves the store as it
    was. *)
Theorem toggleSave_twice_restores_store :
  forall (saved : list StoredPlace) (place : Place),
    Forall storedAsWritten saved ->
    finiteCoordinate place ->
    savedEffect numberToString true saved place = false ->
    let '(isSaved', saved') := toggleSave numberToString false saved place in
    toggleSave numberToString isSaved' saved' place = (false, saved).
Proof.
  intros saved place Hwritten Hplace Hnot.
  destruct (map_reparse_written saved Hwritten) as [Hsame Hfin].
  unfold toggleSave. rewrite Hsame.
  destruct (filterOtherKeys_finite (getPlaceKey numberToString place) saved Hfin)
    as (kept & Hkept & _ & _ & Hall).
  assert (Hno : someSameKey numberToString (getPlaceKey numberToString place) saved
                = Returns false).
  { unfold savedEffect in Hnot.
    destruct (someSameKey numberToString (getPlaceKey numberToString place) saved)
      as [[|]| |]; try discriminate. reflexivity. }
  rewrite (Hall Hno) in Hkept.
  assert (Hlast : filterOtherKeys numberToString (getPlaceKey numberToString place)
                    [jsonPlace place] = Returns []).
  { cbn [filterOtherKeys]. rewrite (storedPlaceKey_jsonPlace _ Hplace).
    rewrite jsstring_eqb_refl. reflexivity. }
  rewrite (filterOtherKeys_app _ _ _ _ _ Hkept Hlast), app_nil_r, Hsame. reflexivity.
Qed.

(** A place without a key in the store makes the filter throw. *)
Lemma filterOtherKeys_throws key (saved : list StoredPlace) :
  (exists p, In p saved /\ storedPlaceKey numberToString p = None) ->
  filterOtherKeys numberToString key saved = Throws.
Proof.
  intros (p & Hin & Hp). induction saved as [|q saved IH]; [destruct Hin|].
  cbn [filterOtherKeys]. destruct (storedPlaceKey numberToString q) as [k|] eqn:Hq;
    [|reflexivity].
  destruct Hin as [-> | Hin]; [congruence|]. rewrite (IH Hin). reflexivity.
Qed.

(** X22: a place with a coordinate that is not finite is stored with
    [null] in its place, and from then on no click removes anything: the
    filter of line 135 throws at it, so [toggleSave] on a saved place, this
    one or another, leaves the flag and the store as they are. *)
Theorem place_without_finite_coordinate_is_never_removed :
  forall (saved : list StoredPlace) (place : Place),
    is_finite (lat (coordinate place)) = false
    \/ is_finite (lng (coordinate place)) = false ->
    let '(isSaved', saved') := toggleSave numberToString false saved place in
    isSaved' = true
    /\ In (jsonPlace place) saved'
    /\ toggleSave numberToString isSaved' saved' place = (true, saved')
    /\ forall other, toggleSave numberToString true saved' other = (true, saved').
Proof.
  intros saved place Hinf. unfold toggleSave at 1.
  assert (Hkey : storedPlaceKey numberToString (jsonPlace place) = None).
  { unfold storedPlaceKey, jsonPlace. cbn [storedLat storedLng].
    destruct Hinf as [H|H]; rewrite (jsonNumber_not_finite _ H);
      [reflexivity|destruct (jsonNumber (lat (coordinate place))); reflexivity]. }
  assert (Hin : In (jsonPlace place) (map reparse saved ++ [jsonPlace place])).
  { apply in_or_app. right. left. reflexivity. }
  assert (Hthrows : forall other,
    toggleSave numberToString true (map reparse saved ++ [jsonPlace place]) other
    = (true, map reparse saved ++ [jsonPlace place])).
  { intros other. unfold toggleSave.
    rewrite (filterOtherKeys_throws _ _ (ex_intro _ _ (conj Hin Hkey))). reflexivity. }
  split; [reflexivity|]. split; [exact Hin|]. split; [apply Hthrows|exact Hthrows].
Qed.

End PopupProperties.

Lemma toggleSave_agrees_with_store_witness :
  Forall storedFinite
    [MapComponent.jsonPlace Samples.cafe; MapComponent.jsonPlace Samples.farCafe]
  /\ finiteCoordinate Samples.farCafe
  /\ MapComponent.savedEffect (fun _ => js "NaN") true
       (snd (MapComponent.toggleSave (fun _ => js "NaN") true
               [MapComponent.jsonPlace Samples.cafe;
                MapComponent.jsonPlace Samples.farCafe] Samples.farCafe))
       Samples.farCafe
     = fst (MapComponent.toggleSave (fun _ => js "NaN") true
              [MapComponent.jsonPlace Samples.cafe;
               MapComponent.jsonPlace Samples.farCafe] Samples.farCafe).
Proof.
  assert (H1 : Forall storedFinite
    [MapComponent.jsonPlace Samples.cafe; MapComponent.jsonPlace Samples.farCafe]).
  { repeat constructor; eexists; eexists; repeat split; reflexivity. }
  assert (H2 : finiteCoordinate Samples.farCafe) by (split; reflexivity).
  split; [exact H1|]. split; [exact H2|].
  exact (toggleSave_agrees_with_store (fun _ => js "NaN") true true _ _ H1 H2).
Defined.

Lemma toggleSave_twice_restores_store_witness :
  Forall storedAsWritten [MapComponent.jsonPlace Samples.cafe]
  /\ finiteCoordinate Samples.farCafe
  /\ MapComponent.savedEffect (fun _ => js "NaN") true
       [MapComponent.jsonPlace Samples.cafe] Samples.farCafe = false
  /\ MapComponent.toggleSave (fun _ => js "NaN") true
       ([MapComponent.jsonPlace Samples.cafe] ++ [MapComponent.jsonPlace Samples.farCafe])
       Samples.farCafe
     = (false, [MapComponent.jsonPlace Samples.cafe]).
Proof.
  assert (H1 : Forall storedAsWritten [MapComponent.jsonPlace Samples.cafe]).
  { repeat constructor. eexists; eexists; repeat split; reflexivity. }
  assert (H2 : finiteCoordinate Samples.farCafe) by (split; reflexivity).
  assert (H3 : MapComponent.savedEffect (fun _ => js "NaN") true
                 [MapComponent.jsonPlace Samples.cafe] Samples.farCafe = false)
    by (vm_compute; reflexivity).
  split; [exact H1|]. split; [exact H2|]. split; [exact H3|].
  exact (toggleSave_twice_restores_store (fun _ => js "NaN") _ _ H1 H2 H3).
Defined.

Lemma place_without_finite_coordinate_is_never_removed_witness :
  is_finite (lng (coordinate Samples.edge)) = false
  /\ MapComponent.toggleSave (fun _ => js "NaN") true
       [MapComponent.jsonPlace Samples.edge] Samples.edge
     = (true, [MapComponent.jsonPlace Samples.edge]).
Proof.
  split; [reflexivity|].
  exact (proj1 (proj2 (proj2
    (place_without_finite_coordinate_is_never_removed (fun _ => js "NaN") []
       Samples.edge (or_intror eq_refl))))).
Defined.

(** ** The session: view, result and database view *)

Section SessionProperties.

Import App.

Lemma run_app s events1 events2 :
  run s (events1 ++ events2) = run (run s events1) events2.
Proof. unfold run. apply fold_left_app. Qed.

Lemma run_keeps_snapshot events : forall s,
  Forall (fun e => takesSnapshot e = false) events ->
  previousViewState (run s events) = previousViewState s.
Proof.
  induction events as [|e events IH]; intros s Hall; [reflexivity|].
  inversion Hall as [|? ? He Hrest]; subst.
  change (run s (e :: events)) with (run (step s e) events). rewrite (IH _ Hrest).
  destruct e; try discriminate; try reflexivity.
  - cbn [step]. unfold handleClear.
    destruct (previousViewState s) as [[c z]|]; reflexivity.
  - cbn [step]. unfold handleDatabaseViewChange. destruct isOpen; [reflexivity|].
    destruct (searchResultsBackup s) as [[[ps sm] srcs]|]; reflexivity.
Qed.

(** X10: after a search or an added place, and whatever happens then short of
    another search or added place (map moves, clicks, completions, database
    view), [handleClear] puts the map back to the center and zoom it had when
    the search was submitted, and empties the result. *)
Theorem clear_restores_the_view_before_the_search :
  forall (s : AppState) (e : Event) (events : list Event),
    takesSnapshot e = true ->
    Forall (fun e' => takesSnapshot e' = false) events ->
    let s' := run s (e :: events ++ [Clear]) in
    mapCenter s' = mapCenter s /\ mapZoom s' = mapZoom s
    /\ published s' = ([], [], []).
Proof.
  intros s e events He Hall s'. subst s'.
  change (run s (e :: events ++ [Clear])) with (run (step s e) (events ++ [Clear])).
  rewrite run_app. cbn [run fold_left step].
  pose proof (run_keeps_snapshot events (step s e) Hall) as Hsnap.
  assert (Hset : previousViewState (step s e) = Some (mapCenter s, mapZoom s))
    by (destruct e; try discriminate; reflexivity).
  rewrite Hset in Hsnap. unfold handleClear. rewrite Hsnap. repeat split.
Qed.

Lemma clear_restores_the_view_before_the_search_witness :
  mapCenter (run Samples.session
               [Search (js "cafes"); MapMove (mkLatLng 1 2) 5; Resolved Samples.resultB;
                PlaceClick Samples.farCafe; Clear])
  = mapCenter Samples.session.
Proof.
  refine (proj1 (clear_restores_the_view_before_the_search Samples.session
                   (Search (js "cafes"))
                   [MapMove (mkLatLng 1 2) 5; Resolved Samples.resultB;
                    PlaceClick Samples.farCafe] _ _));
    [reflexivity|repeat constructor].
Defined.

Lemma run_in_database_view events : forall s b,
  searchResultsBackup s = Some b ->
  Forall (fun e => staysInDatabaseView e = true) events ->
  searchResultsBackup (run s events) = Some b
  /\ summary (run s events) = summary s /\ sources (run s events) = sources s.
Proof.
  induction events as [|e events IH]; intros s b Hb Hall; [auto|].
  inversion Hall as [|? ? He Hrest]; subst.
  change (run s (e :: events)) with (run (step s e) events).
  assert (Hstep : searchResultsBackup (step s e) = Some b
                  /\ summary (step s e) = summary s /\ sources (step s e) = sources s).
  { destruct e; try discriminate; cbn [step]; auto.
    destruct isOpen; [|discriminate]. unfold handleDatabaseViewChange.
    cbn [searchResultsBackup summary sources]. rewrite Hb. auto. }
  destruct Hstep as (H1 & H2 & H3).
  destruct (IH _ _ H1 Hrest) as (H1' & H2' & H3'). rewrite H1', H2', H3'. auto.
Qed.

(** X11: opening the database view, then clicking places, moving the map,
    deleting saved places, and closing the view shows again exactly the
    places, summary and sources that were published before it was opened. *)
Theorem database_view_round_trip :
  forall (s : AppState) (dbPlaces : list Place) (events : list Event)
         (ignored : list Place),
    searchResultsBackup s = None ->
    Forall (fun e => staysInDatabaseView e = true) events ->
    published
      (run s (DatabaseViewChange true dbPlaces :: events
              ++ [DatabaseViewChange false ignored]))
    = published s.
Proof.
  intros s dbPlaces events ignored Hnone Hall.
  change (run s (DatabaseViewChange true dbPlaces :: events
                 ++ [DatabaseViewChange false ignored]))
    with (run (handleDatabaseViewChange s true dbPlaces)
              (events ++ [DatabaseViewChange false ignored])).
  rewrite run_app. cbn [run fold_left step].
  assert (Hb : searchResultsBackup (handleDatabaseViewChange s true dbPlaces)
               = Some (places s, summary s, sources s))
    by (cbn; rewrite Hnone; reflexivity).
  destruct (run_in_database_view events _ _ Hb Hall) as (H1 & _ & _).
  unfold handleDatabaseViewChange at 1. rewrite H1. reflexivity.
Qed.

Lemma database_view_round_trip_witness :
  published
    (run Samples.session
       [DatabaseViewChange true [Samples.farCafe]; PlaceClick Samples.farCafe;
        DatabaseViewChange true []; DatabaseViewChange false []])
  = published Samples.session.
Proof.
  refine (database_view_round_trip Samples.session [Samples.farCafe]
            [PlaceClick Samples.farCafe; DatabaseViewChange true []] [] _ _);
    [reflexivity|repeat constructor].
Defined.

(** X12: submitting queries, their completions and failures, and the
    database view never change the map's center and zoom nor the stored user
    location. *)
Theorem result_events_keep_the_view :
  forall (events : list Event) (s : AppState),
    Forall (fun e => isResultEvent e = true) events ->
    mapCenter (run s events) = mapCenter s
    /\ mapZoom (run s events) = mapZoom s
    /\ userLocation (run s events) = userLocation s.
Proof.
  induction events as [|e events IH]; intros s Hall; [auto|].
  inversion Hall as [|? ? He Hrest]; subst.
  change (run s (e :: events)) with (run (step s e) events).
  destruct (IH (step s e) Hrest) as (H1 & H2 & H3). rewrite H1, H2, H3.
  destruct e; try discriminate; try (repeat split; fail).
  cbn [step]. unfold handleDatabaseViewChange. destruct isOpen; [repeat split|].
  destruct (searchResultsBackup s) as [[[ps sm] srcs]|]; repeat split.
Qed.

Lemma result_events_keep_the_view_witness :
  mapCenter (run Samples.session
               [Search (js "cafes"); DatabaseViewChange true []; Rejected])
  = mapCenter Samples.session.
Proof.
  refine (proj1 (result_events_keep_the_view
                   [Search (js "cafes"); DatabaseViewChange true []; Rejected]
                   Samples.session _));
    repeat constructor.
Defined.

(** X13: after [handleZoomIn] the zoom is not above 18 and after
    [handleZoomOut] it is not below 3, whatever it was; the center stays. *)
Theorem zoom_buttons_stay_within_limits :
  forall (s : AppState),
    (18 <? mapZoom (handleZoomIn s))%float = false
    /\ (mapZoom (handleZoomOut s) <? 3)%float = false
    /\ mapCenter (handleZoomIn s) = mapCenter s
    /\ mapCenter (handleZoomOut s) = mapCenter s.
Proof.
  intros s. cbn [handleZoomIn handleZoomOut mapZoom mapCenter].
  unfold mathMin, mathMax.
  split; [|split; [|split; reflexivity]].
  - destruct (isNaN (mapZoom s + 1) || isNaN 18); [reflexivity|].
    cbn [PrimFloat.Leibniz.eqb andb].
    change (PrimFloat.Leibniz.eqb 18 neg_zero) with false. cbn [andb].
    destruct (18 <? mapZoom s + 1)%float eqn:H; [reflexivity|exact H].
  - destruct (isNaN (mapZoom s - 1) || isNaN 3); [reflexivity|].
    change (PrimFloat.Leibniz.eqb 3 zero) with false. cbn [andb].
    destruct (mapZoom s - 1 <? 3)%float eqn:H; [reflexivity|exact H].
Qed.

End SessionProperties.

(** ** The form, and MapComponent around the effect *)

Section SubmitProperties.
Import App.

Lemma trim_blank (input : jsstring) :
  trim input = [] <-> forallb isWhiteSpace input = true.
Proof.
  unfold trim, trimEnd, trimStart. split.
  - intros H. induction input as [|c t IH]; [reflexivity|]. cbn [dropWhile forallb] in *.
    destruct (isWhiteSpace c) eqn:Hc; [apply IH; exact H|].
    exfalso. cbn [rev] in H.
    rewrite (dropWhile_keeps_last _ _ _ _ Hc), rev_app_distr in H. discriminate.
  - intros H. induction input as [|c t IH]; [reflexivity|]. cbn [dropWhile forallb] in *.
    apply andb_true_iff in H. destruct H as [Hc Ht]. rewrite Hc. apply IH; exact Ht.
Qed.


(** X14: a form submitted with an input of white space only, or while a
    query is loading, changes nothing; any other submission dispatches a
    search for the input as typed. *)
Theorem blank_or_busy_submit_is_ignored :
  forall (s : AppState) (input : jsstring),
    submitForm s input
    = if forallb isWhiteSpace input || isLoading s then s
      else fst (handleSearch_dispatch s input).
Proof.
  intros s input. unfold submitForm, ChatInterface.handleSubmit.
  destruct (forallb isWhiteSpace input) eqn:Hblank.
  - apply trim_blank in Hblank. rewrite Hblank. reflexivity.
  - destruct (trim input) as [|c t] eqn:Ht.
    + apply trim_blank in Ht. congruence.
    + cbn [orb]. destruct (isLoading s); reflexivity.
Qed.

End SubmitProperties.

Section WiringProperties.

Import MapComponent.
Local Open Scope float_scope.

Lemma safeCenter_valid (center : LatLng) :
  isValidLatLng (lat (safeCenter center)) (lng (safeCenter center)) = true.
Proof.
  unfold safeCenter.
  destruct (isValidLatLng (lat center) (lng center)) eqn:H; [exact H|reflexivity].
Qed.

Lemma filter_idem (A : Type) (p : A -> bool) (l : list A) :
  filter p (filter p l) = filter p l.
Proof.
  induction l as [|a l IH]; [reflexivity|]. cbn [filter].
  destruct (p a) eqn:Ha; [|exact IH]. cbn [filter]. rewrite Ha, IH. reflexivity.
Qed.

Lemma safePlaces_nil (places : list Place) :
  existsb hasValidCoordinate places = false <-> safePlaces places = [].
Proof.
  unfold safePlaces. change (fun p : Place =>
    isValidLatLng (lat (coordinate p)) (lng (coordinate p))) with hasValidCoordinate.
  induction places as [|p ps IH]; [split; reflexivity|]. cbn [existsb filter].
  destruct (hasValidCoordinate p); cbn [orb]; [split; discriminate|exact IH].
Qed.

(** What one render of MapComponent makes of the effect, when the array it
    allocates is a new object. *)
Lemma renderEffect_fresh prev fresh f :
  ref prev <> fresh ->
  renderEffect prev fresh f
  = if existsb hasValidCoordinate (propPlaces f)
    then (FitBounds (latLngBounds (map coordinatePair (safePlaces (propPlaces f))))
                    (50, 50) 16,
          mkArray fresh (safePlaces (propPlaces f)))
    else (fst (renderEffect prev fresh f), prev).
Proof.
  intros Hfresh. unfold renderEffect, MapUpdater.
  rewrite safeCenter_valid. cbn [negb prevPlacesRef elements getCenter getZoom].
  assert (Hnew : sameObject (mkArray fresh (safePlaces (propPlaces f))) prev = false).
  { unfold sameObject. cbn [ref]. apply Nat.eqb_neq. congruence. }
  rewrite Hnew. cbn [negb andb].
  destruct (existsb hasValidCoordinate (propPlaces f)) eqn:Hex.
  - assert (Hne : safePlaces (propPlaces f) <> []).
    { intros Hnil. apply safePlaces_nil in Hnil. congruence. }
    unfold safePlaces at 2 3 4. rewrite filter_idem. fold (safePlaces (propPlaces f)).
    unfold boundsIsValid. cbn [extendedBy].
    destruct (safePlaces (propPlaces f)) as [|p ps]; [congruence|]. reflexivity.
  - apply safePlaces_nil in Hex. rewrite Hex. cbn [List.length Nat.ltb Nat.leb].
    destruct (negb (isValidLatLng (lat (mapCenterNow f)) (lng (mapCenterNow f))));
      [reflexivity|].
    match goal with |- context [if ?b then _ else _] => destruct b end; reflexivity.
Qed.

Lemma runMapComponent_fits frames : forall prev nextRef,
  ref prev < nextRef ->
  Forall2 expectedAction frames (runMapComponent prev nextRef frames).
Proof.
  induction frames as [|f frames IH]; intros prev nextRef Hlt; [constructor|].
  cbn [runMapComponent].
  assert (Hfresh : ref prev <> nextRef) by lia.
  pose proof (renderEffect_fresh prev nextRef f Hfresh) as Hr.
  destruct (renderEffect prev nextRef f) as [a prev'] eqn:He.
  constructor.
  - unfold expectedAction.
    destruct (existsb hasValidCoordinate (propPlaces f)) eqn:Hex.
    + cbv beta iota in Hr. apply pair_equal_spec in Hr. destruct Hr as [-> _].
      reflexivity.
    + unfold renderEffect, MapUpdater in He. revert He.
      rewrite safeCenter_valid. cbn [negb prevPlacesRef elements getCenter getZoom].
      apply safePlaces_nil in Hex. rewrite Hex. cbn [List.length Nat.ltb Nat.leb].
      rewrite andb_false_r.
      destruct (negb (isValidLatLng (lat (mapCenterNow f)) (lng (mapCenterNow f))));
        [intros He; apply pair_equal_spec in He; destruct He as [<- _]; reflexivity|].
      match goal with |- context [if ?b then _ else _] => destruct b end;
        intros He; apply pair_equal_spec in He; destruct He as [<- _]; reflexivity.
  - apply IH.
    destruct (existsb hasValidCoordinate (propPlaces f));
      cbv beta iota in Hr; apply pair_equal_spec in Hr; destruct Hr as [_ ->];
      cbn [ref]; lia.
Qed.

(** X15: rendered through MapComponent from mount on, every run of the
    effect whose places include one with a valid coordinate fits the bounds
    of all valid-coordinate places, whatever center and zoom it is given (it
    never flies to them); the other runs never fit bounds. *)
Theorem every_render_with_a_valid_place_fits_bounds :
  forall (frames : list Frame),
    Forall2 (fun f a =>
               if existsb hasValidCoordinate (propPlaces f)
               then a = FitBounds
                          (latLngBounds (map coordinatePair (safePlaces (propPlaces f))))
                          (50, 50) 16
               else isFitBounds a = false)
            frames (runMapComponent mountedRef 1 frames).
Proof.
  intros frames. apply (runMapComponent_fits frames mountedRef 1). cbn. lia.
Qed.

Lemma eqb_refl_valid (x : float) : isNaN x = false -> (x =? x) = true.
Proof. unfold isNaN, is_nan. intros H. apply negb_false_iff in H. exact H. Qed.

(** X16: when no place with a valid coordinate is shown, the render that
    follows a gesture report (MapEvents, then handleMapMove) moves nothing. *)
Theorem gesture_report_without_places_is_no_op :
  forall (s : App.AppState) (prev : PlacesArray) (fresh : nat)
         (viewCenter : LatLng) (viewZoom : float) (c : LatLng) (z : float),
    MapEvents_report viewCenter viewZoom = Some (c, z) ->
    isNaN viewZoom = false ->
    safePlaces (App.places s) = [] ->
    let s' := App.handleMapMove s c z in
    renderEffect prev fresh
      (mkFrame viewCenter viewZoom (App.mapCenter s') (App.mapZoom s') (App.places s'))
    = (NoOp, prev).
Proof.
  intros s prev fresh viewCenter viewZoom c z Hreport Hzoom Hnone s'. subst s'.
  unfold MapEvents_report in Hreport.
  destruct (isValidLatLng (lat viewCenter) (lng viewCenter)) eqn:Hvalid; [|discriminate].
  injection Hreport as <- <-.
  cbn [App.handleMapMove App.mapCenter App.mapZoom App.places].
  unfold renderEffect, MapUpdater, safeCenter. cbn [lat lng propCenter propZoom propPlaces
    mapCenterNow mapZoomNow getCenter getZoom prevPlacesRef elements].
  rewrite Hvalid. cbn [lat lng negb]. rewrite Hvalid, Hnone. cbn [negb List.length Nat.ltb Nat.leb].
  rewrite andb_false_r.
  unfold isValidLatLng in Hvalid. apply andb_true_iff in Hvalid.
  destruct Hvalid as [Hlat Hlng]. apply negb_true_iff in Hlat, Hlng.
  rewrite (dist_of_equal _ _ _ _ (eqb_refl_valid _ Hlat) (eqb_refl_valid _ Hlng)).
  rewrite (eqb_refl_valid _ Hzoom). reflexivity.
Qed.

Lemma gesture_report_without_places_is_no_op_witness :
  MapEvents_report (mkLatLng 48 2) 13 = Some (mkLatLng 48 2, 13)
  /\ renderEffect mountedRef 1
       (mkFrame (mkLatLng 48 2) 13 (mkLatLng 48 2) 13 [Samples.nowhere])
     = (NoOp, mountedRef).
Proof.
  split; [reflexivity|].
  refine (gesture_report_without_places_is_no_op
            (App.mkApp [Samples.nowhere] [] [] false None (mkLatLng 0 0) 3 None None None)
            mountedRef 1 (mkLatLng 48 2) 13 (mkLatLng 48 2) 13 _ _ _); reflexivity.
Defined.

End WiringProperties.

(** ** Re-renders with the same places *)

Section RenderedPlaces.

Import MapComponent.
Local Open Scope float_scope.

(** One render of MapComponent, the array it allocates being a new object:
    a place with a valid coordinate decides for the bounds; without one the
    effect compares the centers and the zooms. *)
Lemma renderEffect_action prev fresh f :
  ref prev <> fresh ->
  isValidLatLng (lat (mapCenterNow f)) (lng (mapCenterNow f)) = true ->
  fst (renderEffect prev fresh f)
  = if existsb hasValidCoordinate (propPlaces f) then fitOf (propPlaces f)
    else if (0.0001 <? distanceToCenter f) || negb (mapZoomNow f =? propZoom f)
         then FlyTo (lat (safeCenter (propCenter f)), lng (safeCenter (propCenter f)))
                    (propZoom f) 1.5
         else NoOp.
Proof.
  intros Hfresh Hview. rewrite (renderEffect_fresh prev fresh f Hfresh).
  destruct (existsb hasValidCoordinate (propPlaces f)) eqn:Hex; [reflexivity|].
  cbn [fst]. unfold renderEffect, MapUpdater, distanceToCenter.
  rewrite safeCenter_valid. cbn [negb prevPlacesRef elements getCenter getZoom].
  apply safePlaces_nil in Hex. rewrite Hex. cbn [List.length Nat.ltb Nat.leb].
  rewrite andb_false_r, Hview. cbn [negb].
  match goal with |- context [if ?b then _ else _] => destruct b end; reflexivity.
Qed.

Lemma renderEffect_ref prev fresh f :
  ref prev < fresh -> ref (snd (renderEffect prev fresh f)) < S fresh.
Proof.
  intros Hlt. rewrite (renderEffect_fresh prev fresh f) by lia.
  destruct (existsb hasValidCoordinate (propPlaces f)); cbn [snd ref]; lia.
Qed.

(** C5, on the code: MapComponent hands MapUpdater a newly filtered array at
    every render (line 255), so the test of line 46 never sees the array it
    remembered. When the places shown include one with a valid coordinate,
    every render fits the bounds of all valid-coordinate places, with padding
    [50, 50] and maximal zoom 16, whatever center and zoom it is given: the
    first render, as the claim says, and also every re-render with the same
    places, which the claim says never fits again. *)
Theorem rerender_with_same_places_fits_bounds_again :
  forall (shown : list Place) (prev : PlacesArray) (nextRef : nat)
         (frames : list Frame),
    ref prev < nextRef ->
    existsb hasValidCoordinate shown = true ->
    Forall (fun f => propPlaces f = shown) frames ->
    let bounds := latLngBounds (map coordinatePair (safePlaces shown)) in
    runMapComponent prev nextRef frames
    = map (fun _ => FitBounds bounds (50, 50) 16) frames
    /\ forall p, In p shown -> hasValidCoordinate p = true ->
                 In (coordinatePair p) (extendedBy bounds).
Proof.
  intros shown prev nextRef frames Hlt Hshown Hall bounds. split.
  - revert prev nextRef Hlt.
    induction Hall as [|f frames Hf _ IH]; intros prev nextRef Hlt; [reflexivity|].
    cbn [runMapComponent map].
    pose proof (renderEffect_fresh prev nextRef f) as Hr.
    pose proof (renderEffect_ref prev nextRef f Hlt) as Href.
    destruct (renderEffect prev nextRef f) as [a prev'].
    rewrite Hf, Hshown in Hr. cbn [snd] in Href.
    assert (Ha : a = FitBounds bounds (50, 50) 16).
    { specialize (Hr ltac:(lia)). apply pair_equal_spec in Hr. apply Hr. }
    rewrite Ha, (IH prev' (S nextRef) Href). reflexivity.
  - intros p Hin Hvalid. subst bounds. cbn [extendedBy].
    apply in_map. unfold safePlaces. apply filter_In. split; assumption.
Qed.

(** C6, on the code: the second of two renders with the same places. With a
    valid-coordinate place among them the effect fits bounds again, whatever
    the distance between the centers and the zooms are: it neither flies to
    the center it is given nor does nothing. The comparison of the claim is
    made only when no place with a valid coordinate is shown. *)
Theorem unchanged_places_fit_bounds_not_fly_to :
  forall (prev : PlacesArray) (nextRef : nat) (f1 f2 : Frame),
    ref prev < nextRef ->
    propPlaces f2 = propPlaces f1 ->
    isValidLatLng (lat (mapCenterNow f2)) (lng (mapCenterNow f2)) = true ->
    last (runMapComponent prev nextRef [f1; f2]) NoOp
    = if existsb hasValidCoordinate (propPlaces f1) then fitOf (propPlaces f1)
      else if (0.0001 <? distanceToCenter f2) || negb (mapZoomNow f2 =? propZoom f2)
           then FlyTo (lat (safeCenter (propCenter f2)),
                       lng (safeCenter (propCenter f2))) (propZoom f2) 1.5
           else NoOp.
Proof.
  intros prev nextRef f1 f2 Hlt Hsame Hview.
  cbn [runMapComponent].
  pose proof (renderEffect_ref prev nextRef f1 Hlt) as Href.
  destruct (renderEffect prev nextRef f1) as [a1 prev1]. cbn [snd] in Href.
  pose proof (renderEffect_action prev1 (S nextRef) f2 ltac:(lia) Hview) as Ha.
  destruct (renderEffect prev1 (S nextRef) f2) as [a2 prev2]. cbn [fst] in Ha.
  cbn [last]. rewrite Ha, Hsame. reflexivity.
Qed.

End RenderedPlaces.

Lemma rerender_with_same_places_fits_bounds_again_witness :
  MapComponent.runMapComponent MapComponent.mountedRef 1
    [mapFrame Samples.twoCafes (mkLatLng 48 2) 13;
     mapFrame (App.handlePlaceClick Samples.twoCafes Samples.farCafe) (mkLatLng 10 60) 5]
  = [MapComponent.FitBounds (MapComponent.latLngBounds [(10, 20); (10, 100)]%float)
       (50, 50)%float 16%float;
     MapComponent.FitBounds (MapComponent.latLngBounds [(10, 20); (10, 100)]%float)
       (50, 50)%float 16%float].
Proof.
  refine (proj1 (rerender_with_same_places_fits_bounds_again
                   [Samples.cafe; Samples.farCafe] MapComponent.mountedRef 1
                   [mapFrame Samples.twoCafes (mkLatLng 48 2) 13;
                    mapFrame (App.handlePlaceClick Samples.twoCafes Samples.farCafe)
                             (mkLatLng 10 60) 5] _ _ _)).
  - cbn. lia.
  - reflexivity.
  - repeat constructor.
Defined.

Lemma unchanged_places_fit_bounds_not_fly_to_witness :
  App.places (App.handlePlaceClick Samples.twoCafes Samples.farCafe)
  = App.places Samples.twoCafes
  /\ (0.0001 <? distanceToCenter
                  (mapFrame (App.handlePlaceClick Samples.twoCafes Samples.farCafe)
                            (mkLatLng 10 60) 5))%float = true
  /\ last (MapComponent.runMapComponent MapComponent.mountedRef 1
             [mapFrame Samples.twoCafes (mkLatLng 48 2) 13;
              mapFrame (App.handlePlaceClick Samples.twoCafes Samples.farCafe)
                       (mkLatLng 10 60) 5])
          MapComponent.NoOp
     = MapComponent.FitBounds (MapComponent.latLngBounds [(10, 20); (10, 100)]%float)
         (50, 50)%float 16%float.
Proof.
  split; [reflexivity|]. split; [reflexivity|].
  refine (unchanged_places_fit_bounds_not_fly_to MapComponent.mountedRef 1
            (mapFrame Samples.twoCafes (mkLatLng 48 2) 13)
            (mapFrame (App.handlePlaceClick Samples.twoCafes Samples.farCafe)
                      (mkLatLng 10 60) 5) _ _ _).
  - cbn. lia.
  - reflexivity.
  - reflexivity.
Defined.

(** ** SimpleMarkdown *)

Section MarkdownProperties.

Import Regex MatcherFacts MatcherSemantics ChatInterface.

Lemma foldsTo_length l p : foldsTo l p -> List.length l = List.length p.
Proof.
  unfold foldsTo. intros H. apply (f_equal (@List.length N)) in H.
  rewrite !length_map in H. exact H.
Qed.

(** A match of the bold pattern at [q]: what it consumed is in group 1, and
    it is at least the four asterisks long. *)
Lemma boldPattern_match q s caps z :
  matcher boldPattern (mkState q s caps) Some = Some z ->
  exists pre,
    s = pre ++ rest z /\ endIndex z = q + List.length pre
    /\ getCapture 1 (captures z) = Some pre /\ 4 <= List.length pre.
Proof.
  intros H. unfold boldPattern in H. apply matcher_group_sound in H; [|discriminate].
  destruct H as (y & pre & Hy & [Hr Hi _] & Hm & Hc). injection Hy as ->.
  cbn [rest endIndex] in Hr, Hi. exists pre. repeat split; auto.
  cbn [seqs] in Hm. destruct Hm as (s1 & s' & -> & H1 & (s2 & s3 & -> & _ & H3)).
  apply matched_lit, foldsTo_length in H1, H3. rewrite !length_app, H1, H3. cbn. lia.
Qed.

Lemma splitLoop_boldPattern fuel : forall p q cur s,
  q = p + List.length cur -> List.length s < fuel ->
  partsText (splitLoop boldPattern fuel p q cur s) = cur ++ s
  /\ Forall (fun part => part <> None) (splitLoop boldPattern fuel p q cur s).
Proof.
  induction fuel as [|fuel IH]; intros p q cur s Hq Hfuel; [lia|].
  cbn [splitLoop]. destruct s as [|c s'].
  - cbn. split; [reflexivity|]. constructor; [discriminate|constructor].
  - assert (Hnext : partsText (splitLoop boldPattern fuel p (S q) (cur ++ [c]) s')
                    = cur ++ c :: s'
                    /\ Forall (fun part => part <> None)
                              (splitLoop boldPattern fuel p (S q) (cur ++ [c]) s')).
    { destruct (IH p (S q) (cur ++ [c]) s') as [H1 H2].
      - rewrite length_app. cbn. lia.
      - cbn in Hfuel. lia.
      - split; [|exact H2]. rewrite H1, <- app_assoc. reflexivity. }
    destruct (matcher boldPattern (mkState q (c :: s') (noCaptures boldPattern)) Some)
      as [z|] eqn:Hm; [|exact Hnext].
    apply boldPattern_match in Hm. destruct Hm as (pre & Hs & He & Hc & Hlen).
    replace (endIndex z =? p) with false by (symmetry; apply Nat.eqb_neq; lia).
    change (list_max (groupsOf boldPattern)) with 1. cbn [seq map app]. rewrite Hc.
    assert (Hskip : skipn (endIndex z - q) (c :: s') = rest z).
    { rewrite He, Hs. replace (q + List.length pre - q) with (List.length pre) by lia.
      apply skipn_length_app. }
    rewrite Hskip.
    destruct (IH (endIndex z) (endIndex z) [] (rest z)) as [H1 H2].
    + cbn. lia.
    + apply (f_equal (@List.length N)) in Hs. rewrite length_app in Hs. lia.
    + split.
      * cbn [partsText flat_map]. fold (partsText (splitLoop boldPattern fuel
          (endIndex z) (endIndex z) [] (rest z))). rewrite H1. cbn [app].
        rewrite Hs. reflexivity.
      * constructor; [discriminate|]. constructor; [discriminate|exact H2].
Qed.

Lemma renderParts_returns parts :
  Forall (fun part => part <> None) parts ->
  exists inlines, renderParts parts = Returns inlines.
Proof.
  induction 1 as [|part parts Hp _ [inlines IH]]; [exists []; reflexivity|].
  cbn [renderParts]. rewrite IH. destruct part as [t|]; [|congruence].
  cbn [renderPart]. destruct (isPrefix (js "**") t && isPrefix (js "**") (rev t)); eauto.
Qed.

(** X17: splitting a paragraph at its bold segments loses nothing: the parts,
    in order, make up the paragraph again; no part is [undefined], so the
    rendering of the parts does not throw. *)
Theorem bold_split_keeps_every_character :
  forall (para : jsstring),
    partsText (splitBy boldPattern para) = para
    /\ Forall (fun part => part <> None) (splitBy boldPattern para)
    /\ exists inlines, renderParts (splitBy boldPattern para) = Returns inlines.
Proof.
  intros para.
  assert (H : partsText (splitBy boldPattern para) = para
              /\ Forall (fun part => part <> None) (splitBy boldPattern para)).
  { destruct para as [|c t]; [cbn; split; [reflexivity|repeat constructor; discriminate]|].
    unfold splitBy. apply (splitLoop_boldPattern _ 0 0 [] (c :: t)); cbn; lia. }
  destruct H as [H1 H2]. split; [exact H1|]. split; [exact H2|].
  apply renderParts_returns. exact H2.
Qed.

End MarkdownProperties.

Section MarkdownWhole.

Import Regex MatcherFacts MatcherSemantics ChatInterface.

Lemma plainText_app a b : plainText (a ++ b) = plainText a ++ plainText b.
Proof. apply filter_app. Qed.

Lemma plainText_newlines pre :
  Forall (fun c => c = 10%N) pre -> plainText pre = [].
Proof.
  induction 1 as [|c pre -> _ IH]; [reflexivity|]. cbn. exact IH.
Qed.

Lemma paragraphPattern_match q s caps z :
  matcher paragraphPattern (mkState q s caps) Some = Some z ->
  exists pre,
    s = pre ++ rest z /\ endIndex z = q + List.length pre
    /\ Forall (fun c => c = 10%N) pre /\ 2 <= List.length pre.
Proof.
  intros H. apply matcher_sound in H.
  destruct H as (y & pre & Hy & [Hr Hi _] & Hm). injection Hy as ->.
  cbn [rest endIndex] in Hr, Hi. exists pre. split; [exact Hr|]. split; [exact Hi|].
  destruct Hm as (s1 & s2 & -> & H1 & (pieces & -> & Hall & Hn)).
  apply matched_punct in H1; [|reflexivity]. subst s1. cbn in Hn.
  assert (Hp : Forall (fun c => c = 10%N) (List.concat pieces)
               /\ List.length (List.concat pieces) = List.length pieces).
  { clear Hn Hr Hi. induction Hall as [|p ps Hp _ [IH1 IH2]];
      [cbn; split; [constructor|reflexivity]|].
    apply matched_punct in Hp; [|reflexivity]. subst p. cbn.
    split; [constructor; [reflexivity|exact IH1]|congruence]. }
  destruct Hp as [Hp1 Hp2]. split.
  - constructor; [reflexivity|exact Hp1].
  - cbn [app List.length]. lia.
Qed.

Lemma splitLoop_paragraphPattern fuel : forall p q cur s,
  q = p + List.length cur -> List.length s < fuel ->
  plainText (partsText (splitLoop paragraphPattern fuel p q cur s))
  = plainText (cur ++ s)
  /\ Forall (fun part => part <> None) (splitLoop paragraphPattern fuel p q cur s).
Proof.
  induction fuel as [|fuel IH]; intros p q cur s Hq Hfuel; [lia|].
  cbn [splitLoop]. destruct s as [|c s'].
  - cbn [partsText flat_map]. rewrite !app_nil_r.
    split; [reflexivity|]. constructor; [discriminate|constructor].
  - assert (Hnext : plainText (partsText (splitLoop paragraphPattern fuel p (S q)
                                            (cur ++ [c]) s'))
                    = plainText (cur ++ c :: s')
                    /\ Forall (fun part => part <> None)
                              (splitLoop paragraphPattern fuel p (S q) (cur ++ [c]) s')).
    { destruct (IH p (S q) (cur ++ [c]) s') as [H1 H2].
      - rewrite length_app. cbn. lia.
      - cbn in Hfuel. lia.
      - split; [|exact H2]. rewrite H1, <- app_assoc. reflexivity. }
    destruct (matcher paragraphPattern
                (mkState q (c :: s') (noCaptures paragraphPattern)) Some)
      as [z|] eqn:Hm; [|exact Hnext].
    apply paragraphPattern_match in Hm. destruct Hm as (pre & Hs & He & Hnl & Hlen).
    replace (endIndex z =? p) with false by (symmetry; apply Nat.eqb_neq; lia).
    change (list_max (groupsOf paragraphPattern)) with 0. cbn [seq map app].
    assert (Hskip : skipn (endIndex z - q) (c :: s') = rest z).
    { rewrite He, Hs. replace (q + List.length pre - q) with (List.length pre) by lia.
      apply skipn_length_app. }
    rewrite Hskip.
    destruct (IH (endIndex z) (endIndex z) [] (rest z)) as [H1 H2].
    + cbn. lia.
    + apply (f_equal (@List.length N)) in Hs. rewrite length_app in Hs. lia.
    + split.
      * cbn [partsText flat_map]. fold (partsText (splitLoop paragraphPattern fuel
          (endIndex z) (endIndex z) [] (rest z))).
        rewrite !plainText_app, H1, Hs, !plainText_app, (plainText_newlines _ Hnl).
        reflexivity.
      * constructor; [discriminate|exact H2].
Qed.

Lemma splitBy_paragraphPattern content :
  plainText (partsText (splitBy paragraphPattern content)) = plainText content
  /\ Forall (fun part => part <> None) (splitBy paragraphPattern content).
Proof.
  destruct content as [|c t]; [cbn; split; [reflexivity|repeat constructor; discriminate]|].
  unfold splitBy. apply (splitLoop_paragraphPattern _ 0 0 [] (c :: t)); cbn; lia.
Qed.

Lemma isPrefix_app p : forall s, isPrefix p s = true -> exists t, s = p ++ t.
Proof.
  induction p as [|a p IH]; intros s H; [exists s; reflexivity|].
  destruct s as [|b s]; [discriminate|]. cbn in H. apply andb_true_iff in H.
  destruct H as [Hab Hp]. apply N.eqb_eq in Hab. subst b.
  destruct (IH s Hp) as [t ->]. exists t. reflexivity.
Qed.

Lemma plainText_stars u : Forall (fun c => c = 42%N) u -> plainText u = [].
Proof.
  induction 1 as [|c u -> _ IH]; [reflexivity|]. cbn. exact IH.
Qed.

(** A part that starts and ends with two asterisks loses asterisks only. *)
Lemma plainText_sliceInside t :
  isPrefix (js "**") t && isPrefix (js "**") (rev t) = true ->
  plainText (sliceInside t) = plainText t.
Proof.
  intros H. apply andb_true_iff in H. destruct H as [H1 H2].
  apply isPrefix_app in H1, H2. destruct H1 as [u ->]. destruct H2 as [v Hv].
  apply (f_equal (@rev N)) in Hv. rewrite rev_involutive, rev_app_distr in Hv.
  change (rev (js "**")) with (js "**") in Hv.
  unfold sliceInside. rewrite length_app.
  change (List.length (js "**")) with 2. change (skipn 2 (js "**" ++ u)) with u.
  replace (2 + List.length u - 2 - 2) with (List.length u - 2) by lia.
  apply app_eq_app in Hv. destruct Hv as (l & [[Hl Hu]|[Hl Hu]]).
  - assert (Hstars : Forall (fun c => c = 42%N) u /\ List.length u <= 2).
    { destruct l as [|a [|b [|c l]]]; cbn in Hu.
      - subst u. split; [repeat constructor|cbn; lia].
      - injection Hu as _ <-. split; [repeat constructor|cbn; lia].
      - injection Hu as _ _ <-. split; [constructor|cbn; lia].
      - discriminate. }
    destruct Hstars as [Hs Hlen].
    replace (List.length u - 2) with 0 by lia. cbn [firstn].
    rewrite plainText_app, (plainText_stars u Hs). reflexivity.
  - subst u. rewrite length_app. change (List.length (js "**")) with 2.
    replace (List.length l + 2 - 2) with (List.length l) by lia.
    rewrite firstn_app, Nat.sub_diag, firstn_all. cbn [firstn]. rewrite app_nil_r.
    rewrite !plainText_app. cbn. rewrite app_nil_r. reflexivity.
Qed.

Lemma renderParts_plainText parts :
  Forall (fun part => part <> None) parts ->
  exists inlines,
    renderParts parts = Returns inlines
    /\ plainText (flat_map visibleText inlines) = plainText (partsText parts).
Proof.
  induction 1 as [|part parts Hp _ (inlines & IH & Htext)]; [exists []; auto|].
  cbn [renderParts]. rewrite IH. destruct part as [t|]; [|congruence].
  cbn [renderPart partsText flat_map].
  fold (partsText parts). rewrite plainText_app, <- Htext.
  destruct (isPrefix (js "**") t && isPrefix (js "**") (rev t)) eqn:Hb.
  - eexists. split; [reflexivity|]. cbn [flat_map visibleText].
    rewrite plainText_app, (plainText_sliceInside _ Hb). reflexivity.
  - eexists. split; [reflexivity|]. cbn [flat_map visibleText].
    rewrite plainText_app. reflexivity.
Qed.

Lemma renderParagraphs_plainText paragraphs :
  Forall (fun part => part <> None) paragraphs ->
  exists ps,
    renderParagraphs paragraphs = Returns ps
    /\ plainText (flat_map (flat_map visibleText) ps)
       = plainText (partsText paragraphs).
Proof.
  induction 1 as [|para paragraphs Hp _ (ps & IH & Htext)]; [exists []; auto|].
  destruct para as [para|]; [|congruence]. cbn [renderParagraphs]. rewrite IH.
  destruct (bold_split_keeps_every_character para) as (Hpara & Hsome & _).
  destruct (renderParts_plainText _ Hsome) as (inlines & Hr & Hi).
  rewrite Hr. eexists. split; [reflexivity|].
  cbn [flat_map partsText]. fold (partsText paragraphs).
  rewrite !plainText_app, Hi, Hpara, Htext. reflexivity.
Qed.

(** X18: SimpleMarkdown returns [null] for the empty content and otherwise
    paragraphs whose text, in order, is the content up to asterisks and line
    feeds: nothing else is dropped, added or moved, and it never throws. *)
Theorem SimpleMarkdown_shows_all_but_markup :
  forall (content : jsstring),
    match content with
    | [] => SimpleMarkdown content = Returns None
    | _ :: _ =>
        exists paragraphs,
          SimpleMarkdown content = Returns (Some paragraphs)
          /\ plainText (flat_map (flat_map visibleText) paragraphs)
             = plainText content
    end.
Proof.
  intros [|c t]; [reflexivity|].
  destruct (splitBy_paragraphPattern (c :: t)) as [Htext Hsome].
  destruct (renderParagraphs_plainText _ Hsome) as (ps & Hr & Hp).
  exists ps. unfold SimpleMarkdown. rewrite Hr. split; [reflexivity|].
  rewrite Hp. exact Htext.
Qed.

End MarkdownWhole.

(** ** After the transport call *)

Section TransportProperties.

Import GeminiService.

Lemma sourcesOf_length chunks :
  List.length (sourcesOf (Some chunks)) <= List.length chunks.
Proof.
  cbn [sourcesOf]. induction chunks as [|c cs IH]; [cbn; lia|].
  cbn [flat_map]. rewrite length_app. destruct (web c); cbn; lia.
Qed.

(** X19: once the transport call resolved, sendMessageToGemini returns: the
    text is never empty; a missing or empty response text gives the default
    text and no place; the sources are exactly the [web] entries of the
    grounding chunks, none when there are no chunks. *)
Theorem sendMessageToGemini_then_returns :
  forall (toString36 : float -> jsstring) (mathRandom : nat -> float)
         (response : ApiResponse),
  exists r,
    sendMessageToGemini_then toString36 mathRandom response = Returns r
    /\ text r <> []
    /\ match response_text response with
       | Some (c :: t) => text r = c :: t
       | _ => text r = js "No specific locations found." /\ places r = []
       end
    /\ match groundingChunks response with
       | Some chunks =>
           List.length (sources r) <= List.length chunks
           /\ forall src, In src (sources r) <-> In (mkChunk (Some src)) chunks
       | None => sources r = []
       end.
Proof.
  intros toString36 mathRandom response. unfold sendMessageToGemini_then.
  destruct (parseCoordinatesFromText_returns toString36 mathRandom
              (orDefault (response_text response) (js "No specific locations found.")))
    as (ps & Hps & _).
  rewrite Hps. eexists. split; [reflexivity|]. cbn [text places sources].
  split; [|split].
  - destruct (response_text response) as [[|c t]|]; discriminate.
  - destruct (response_text response) as [[|c t]|]; cbn [orDefault] in *;
      try reflexivity; (split; [reflexivity|]);
      (assert (Hd : parseCoordinatesFromText toString36 mathRandom
                      (js "No specific locations found.") = Returns [])
         by (vm_compute; reflexivity));
      congruence.
  - destruct (groundingChunks response) as [chunks|]; [|reflexivity].
    split; [apply sourcesOf_length|].
    intros src. cbn [sourcesOf]. rewrite in_flat_map. split.
    + intros (c & Hc & Hin). destruct c as [[w|]]; cbn in Hin; [|destruct Hin].
      destruct Hin as [<-|[]]. exact Hc.
    + intros Hin. exists (mkChunk (Some src)). split; [exact Hin|left; reflexivity].
Qed.

End TransportProperties.

(** ** The effect on one array *)

(** X20: however often one and the same array object is rendered, and
    whatever was remembered before, the effect fits bounds at most once. *)
Theorem same_array_fits_bounds_at_most_once :
  forall (renders : list MapComponent.Render) (prev P : MapComponent.PlacesArray),
    Forall (fun r => MapComponent.sameObject (MapComponent.places r) P = true) renders ->
    List.length (filter MapComponent.isFitBounds
                   (fst (MapComponent.runEffects prev renders))) <= 1.
Proof.
  intros renders prev P Hall. exact (runEffects_fits_at_most_once renders prev P Hall).
Qed.

Lemma same_array_fits_bounds_at_most_once_witness :
  List.length
    (filter MapComponent.isFitBounds
       (fst (MapComponent.runEffects MapComponent.mountedRef
               [MapComponent.mkRender (mkLatLng 48 2) 13 (mkLatLng nan 2) 13 Samples.newPlaces;
                MapComponent.mkRender (mkLatLng 48 2) 13 (mkLatLng 48 2) 13 Samples.newPlaces;
                MapComponent.mkRender (mkLatLng 10 60) 5 (mkLatLng 10 20) 16 Samples.newPlaces])))
  <= 1.
Proof.
  refine (same_array_fits_bounds_at_most_once _ MapComponent.mountedRef
            Samples.newPlaces _).
  repeat constructor.
Defined.

(** ** From the extractor to the markers *)

Section ExtractedMarkers.

Lemma safePlaces_keeps (ps : list Place) :
  Forall (fun p => isNaN (lat (coordinate p)) = false
                   /\ isNaN (lng (coordinate p)) = false) ps ->
  MapComponent.safePlaces ps = ps.
Proof.
  induction 1 as [|p ps [Hlat Hlng] _ IH]; [reflexivity|].
  unfold MapComponent.safePlaces in *. cbn [filter].
  unfold MapComponent.isValidLatLng at 1. rewrite Hlat, Hlng. cbn [negb andb].
  rewrite IH. reflexivity.
Qed.

(** X21: the filter of MapComponent keeps every place the extractor returns,
    in order: what the extractor lets through, out-of-range coordinates
    included, is drawn as a marker. *)
Theorem every_extracted_place_is_a_marker :
  forall (toString36 : float -> jsstring) (mathRandom : nat -> float)
         (text : jsstring),
  exists ps,
    GeminiService.parseCoordinatesFromText toString36 mathRandom text = Returns ps
    /\ MapComponent.safePlaces ps = ps.
Proof.
  intros toString36 mathRandom text.
  destruct (parseCoordinatesFromText_returns toString36 mathRandom text)
    as (ps & Hret & Hinv).
  exists ps. split; [exact Hret|].
  apply safePlaces_keeps. exact Hinv.
Qed.

End ExtractedMarkers.
